(** * A shallow embedding of the TASA glue code

    The development follows three source files:

    - [src/cache.ts]: the browser cache facade over Web Storage
      (modules [JS], [Runtime], section [Facade], module [Json]);
    - [src/middleware.ts]: the [authorized] callback (module [AuthGate]);
    - [dbconnect.js]: the memoised database connection (module [DbConnect]).

    Conventions.  A JavaScript number is an IEEE 754 double
    ([Number.t]); the reading of the clock, [Date.now()], is an integer
    ([Z]); lengths and counters are [nat].  An optional property of an
    object is an [option]: [None] is the absent property, or the value
    [undefined] where the property is always there.  A function that may
    raise returns an [Outcome]; code that reads or writes the browser
    state runs in the state-and-exception monad [M].  One facade
    operation runs to completion within one reading of the clock.  The
    ECMAScript [JSON] object is not code of the repository: the facade
    is stated over an arbitrary codec (section variables), and [Json]
    gives an executable codec. *)

From Stdlib Require Import ZArith String Ascii List Lia Bool.
From Stdlib Require Import DecimalString DecimalZ DecimalFacts.
From Stdlib Require Import SpecFloat.
From stdpp Require Import gmap strings list fin_maps.

Local Open Scope Z_scope.

(** ** JavaScript numbers *)

Module Number.

(** The Number type: IEEE 754 binary64 with a single NaN, as the
    inductive specification of the Standard Library has it.  A finite
    number [S754_finite s m e] is [± m * 2^e]. *)
Definition t : Type := spec_float.

Definition prec : Z := 53.
Definition emax : Z := 1024.

Definition NaN : t := S754_nan.
Definition Infinity : t := S754_infinity false.

(** The Number value for an integer: the nearest double, ties to even. *)
Definition of_Z (n : Z) : t := binary_normalize prec emax n 0 false.

(** [x + y] and [x > y] on Numbers. *)
Definition add (x y : t) : t := SFadd prec emax x y.

Definition gt (x y : t) : bool := SFltb y x.

Definition is_finite (x : t) : bool :=
  match x with
  | S754_zero _ | S754_finite _ _ _ => true
  | _ => false
  end.

(** The same Number (as [Object.is] has it: [NaN] is [NaN], and the two
    zeros differ). *)
Definition eqb (x y : t) : bool :=
  match x, y with
  | S754_zero a, S754_zero b => Bool.eqb a b
  | S754_infinity a, S754_infinity b => Bool.eqb a b
  | S754_nan, S754_nan => true
  | S754_finite a m e, S754_finite b m' e' =>
      Bool.eqb a b && Pos.eqb m m' && Z.eqb e e'
  | _, _ => false
  end.

(** The Number value for the decimal [± digits * 10^e10] ([digits] not
    negative): the nearest double, ties to even. *)
Definition of_decimal (negative : bool) (digits e10 : Z) : t :=
  match digits with
  | Zpos d =>
      if 0 <=? e10 then of_Z (cond_Zopp negative (digits * 10 ^ e10))
      else SFdiv prec emax (S754_finite negative d 0)
                           (S754_finite false (Z.to_pos (10 ^ (- e10))) 0)
  | _ => S754_zero negative
  end.

(** *** [Number::toString] *)

Definition show_int (n : Z) : string :=
  DecimalString.NilZero.string_of_int (Z.to_int n).

(** The integer a Number is, when it is one of magnitude below 2^53. *)
Definition safe_integer (x : t) : option Z :=
  let n :=
    match x with
    | S754_zero _ => Some 0
    | S754_finite s m e =>
        if 0 <=? e then Some (cond_Zopp s (Zpos m * 2 ^ e))
        else if Zpos m mod 2 ^ (- e) =? 0
             then Some (cond_Zopp s (Zpos m / 2 ^ (- e)))
             else None
    | _ => None
    end in
  match n with
  | Some n => if (Z.abs n <? 2 ^ 53) && eqb (of_Z n) x then Some n else None
  | None => None
  end.

(** A positive finite Number as a fraction [N / D]. *)
Definition fraction (m : positive) (e : Z) : Z * Z :=
  if 0 <=? e then (Zpos m * 2 ^ e, 1) else (Zpos m, 2 ^ (- e)).

(** [N / D < 10^n] *)
Definition below_pow10 (N D n : Z) : bool :=
  if 0 <=? n then N <? D * 10 ^ n else N * 10 ^ (- n) <? D.

(** The least [n], from [n] on, with [N / D < 10^n]. *)
Fixpoint magnitude (fuel : nat) (N D n : Z) : Z :=
  match fuel with
  | O => n
  | S fuel => if below_pow10 N D n then n else magnitude fuel N D (n + 1)
  end.

(** [floor (N / D * 10^s)] *)
Definition scaled (N D s : Z) : Z :=
  if 0 <=? s then (N * 10 ^ s) / D else N / (D * 10 ^ (- s)).

(** Where [N / D * 10^s] lies between [lo] and [lo + 1]: [Lt] nearer to
    [lo], [Gt] nearer to [lo + 1], [Eq] half way. *)
Definition nearer (N D s lo : Z) : comparison :=
  if 0 <=? s then 2 * N * 10 ^ s ?= (2 * lo + 1) * D
  else 2 * N ?= (2 * lo + 1) * D * 10 ^ (- s).

(** The integer [c] of [k] digits (or [10^k]) nearest to [x * 10^s],
    [s = k - n0], among those for which [c * 10^-s] is read as [x]. *)
Definition candidate (x : t) (N D n0 k : Z) : option Z :=
  let s := k - n0 in
  let lo := scaled N D s in
  let hi := lo + 1 in
  let reads c := eqb (of_decimal false c (- s)) x in
  match reads lo, reads hi with
  | true, true =>
      Some match nearer N D s lo with
           | Lt => lo
           | Gt => hi
           | Eq => if Z.even lo then lo else hi
           end
  | true, false => Some lo
  | false, true => Some hi
  | false, false => None
  end.

(** The shortest such integer, trying [k], [k + 1], ... digits. *)
Fixpoint shortest (fuel : nat) (x : t) (N D n0 k : Z) : Z * Z :=
  match fuel with
  | O => (scaled N D (k - n0), k - n0)
  | S fuel =>
      match candidate x N D n0 k with
      | Some c => (c, k - n0)
      | None => shortest fuel x N D n0 (k + 1)
      end
  end.

Fixpoint zeros (n : nat) : string :=
  match n with O => EmptyString | S n => String "0" (zeros n) end.

(** A digit string without its trailing zeros. *)
Fixpoint strip_zeros (s : string) : string :=
  match s with
  | EmptyString => EmptyString
  | String c r =>
      match strip_zeros r with
      | EmptyString => if Ascii.eqb c "0" then EmptyString else String c EmptyString
      | r' => String c r'
      end
  end.

(** The digits [ds] (there are [k] of them) with the decimal point after
    the first [n], written as [Number::toString] writes them. *)
Definition layout (ds : string) (n : Z) : string :=
  let k := Z.of_nat (String.length ds) in
  if (k <=? n) && (n <=? 21) then ds +:+ zeros (Z.to_nat (n - k))
  else if (0 <? n) && (n <=? 21) then
    substring 0 (Z.to_nat n) ds +:+ "." +:+
    substring (Z.to_nat n) (Z.to_nat (k - n)) ds
  else if (-6 <? n) && (n <=? 0) then
    "0." +:+ zeros (Z.to_nat (- n)) +:+ ds
  else
    let e := n - 1 in
    let exponent := (if 0 <=? e then "+" else "-") +:+ show_int (Z.abs e) in
    if k =? 1 then ds +:+ "e" +:+ exponent
    else substring 0 1 ds +:+ "." +:+ substring 1 (Z.to_nat (k - 1)) ds
         +:+ "e" +:+ exponent.

Definition show_positive (m : positive) (e : Z) : string :=
  let '(N, D) := fraction m e in
  let n0 := magnitude 700 N D (-330) in
  let '(c, s) := shortest 17 (S754_finite false m e) N D n0 1 in
  let all := show_int c in
  layout (strip_zeros all) (Z.of_nat (String.length all) - s).

(** [Number::toString(x)] in radix 10.  An integer of magnitude below
    2^53 is written by its digits. *)
Definition to_string (x : t) : string :=
  match safe_integer x with
  | Some n => show_int n
  | None =>
      match x with
      | S754_nan => "NaN"
      | S754_zero _ => "0"
      | S754_infinity s => if s then "-Infinity" else "Infinity"
      | S754_finite s m e =>
          (if s then "-" else "") +:+ show_positive m e
      end
  end.

End Number.

(** ** JavaScript values carried as cache payloads *)

Module JS.

(** The payload type [T] of [CacheItem<T>] is unconstrained in the source.
    The values below are the ones [JSON.stringify] distinguishes: values it
    writes faithfully, values it replaces by [null] or leaves out
    ([undefined], [NaN], the infinities), and values it refuses by raising
    ([BigInt]).  An array or an object is given by its content: two of
    them are never the same object. *)
#[local] Unset Elimination Schemes.
Inductive value : Type :=
  | VUndefined
  | VNull
  | VBool (b : bool)
  | VNum (x : Number.t)
  | VBigInt (n : Z)
  | VStr (s : string)
  | VArr (elems : list value)
  | VObj (props : list (string * value)).
#[local] Set Elimination Schemes.

Definition VNaN : value := VNum Number.NaN.

(** A value of type [string | undefined]. *)
Definition js_string (o : option string) : value :=
  match o with
  | Some s => VStr s
  | None => VUndefined
  end.

(** [a === b], for [b] a string or [undefined]: no value of another type
    is equal to one of these. *)
Definition strict_equal (a : value) (b : option string) : bool :=
  match a, b with
  | VStr s, Some s' => String.eqb s s'
  | VUndefined, None => true
  | _, _ => false
  end.

(** The operand [now + x] takes for a value of type [number | undefined]. *)
Definition ToNumeric (o : option Number.t) : Number.t :=
  default Number.NaN o.

End JS.

Export JS.

(** ** Data model of [cache.ts] *)

(** [interface CacheItem<T>].  The record is what the code reads off an
    item: [data] and [version] as the values they are ([version] is
    compared with [!==] only), [timestamp] and [expiresAt] as the numbers
    they are in a comparison. *)
Record CacheItem : Type := mkCacheItem {
  data : value;
  timestamp : Number.t;
  expiresAt : Number.t;
  version : value;
  hash : option string
}.

(** The union type ["localStorage" | "sessionStorage"]. *)
Inductive StorageType : Type := localStorage | sessionStorage.

(** [interface CacheOptions]: every property is optional.  [None] is an
    absent property, [Some None] a property that is there and holds
    [undefined], [Some (Some x)] one that holds [x]. *)
Record CacheOptions : Type := mkCacheOptions {
  opt_ttl : option (option Number.t);
  opt_version : option (option string);
  opt_storage : option (option StorageType);
  opt_forceRefresh : option (option bool)
}.

(** The type of [DEFAULT_CACHE_CONFIG] and of the merged [config]: every
    property is there; [None] is the value [undefined], which a property
    of the options may have brought in. *)
Record Config : Type := mkConfig {
  cfg_ttl : option Number.t;
  cfg_version : option string;
  cfg_storage : option StorageType;
  cfg_forceRefresh : option bool
}.

Definition DEFAULT_CACHE_CONFIG : Config :=
  {| cfg_ttl := Some (Number.of_Z (5 * 60 * 1000));
     cfg_version := Some "1.0.0";
     cfg_storage := Some localStorage;
     cfg_forceRefresh := Some false |}.

(** The object spread [{ ...base, ...options }]: a property that is there
    in [options], whatever it holds, takes the place of the one of
    [base]. *)
Definition spread (base : Config) (options : CacheOptions) : Config :=
  {| cfg_ttl := default (cfg_ttl base) (opt_ttl options);
     cfg_version := default (cfg_version base) (opt_version options);
     cfg_storage := default (cfg_storage base) (opt_storage options);
     cfg_forceRefresh :=
       default (cfg_forceRefresh base) (opt_forceRefresh options) |}.

(** The default argument [options = {}]. *)
Definition no_options : CacheOptions :=
  {| opt_ttl := None; opt_version := None;
     opt_storage := None; opt_forceRefresh := None |}.

(** The record returned by [getCacheStats]. *)
Record CacheStats : Type := mkCacheStats {
  totalKeys : nat;
  cacheKeys : nat;
  expiredKeys : nat;
  totalSize : nat
}.

(** ** The browser runtime: Web Storage, clock, console *)

Module Runtime.

(** A Web Storage area: its key/value pairs and the room the browser
    grants it, counted in characters of keys and values. *)
Record Storage : Type := mkStorage {
  items : gmap string string;
  quota : nat
}.

Inductive Level : Type := warn | error.

(** One [console.warn] / [console.error] call: the level and the message
    string (the error object passed as second argument is left out). *)
Record LogEntry : Type := Log { level : Level; message : string }.

(** The state the facade runs against.  [has_window] is
    [typeof window !== "undefined"]; a storage area that is [None] is one
    whose global raises when it is accessed (storage disabled by policy). *)
Record World : Type := mkWorld {
  has_window : bool;
  local_store : option Storage;
  session_store : option Storage;
  clock : Z;
  console : list LogEntry
}.

Inductive Exn : Type :=
  | SyntaxError | TypeError | QuotaExceededError | SecurityError.

Inductive Outcome (A : Type) : Type :=
  | Ret (a : A)
  | Throw (e : Exn).
Arguments Ret {A} a.
Arguments Throw {A} e.

(** State and exceptions.  A raise keeps the state reached so far, as a
    JavaScript [throw] keeps the writes made before it. *)
Definition M (S A : Type) : Type := S → Outcome A * S.

Definition ret {S A} (a : A) : M S A := λ s, (Ret a, s).

Definition throw {S A} (e : Exn) : M S A := λ s, (Throw e, s).

Definition bind {S A B} (m : M S A) (k : A → M S B) : M S B :=
  λ s, match m s with
       | (Ret a, s') => k a s'
       | (Throw e, s') => (Throw e, s')
       end.

(** [try { body } catch (e) { handler e }] *)
Definition try_catch {S A} (body : M S A) (handler : Exn → M S A) : M S A :=
  λ s, match body s with
       | (Ret a, s') => (Ret a, s')
       | (Throw e, s') => handler e s'
       end.

(** Raise when a partial runtime function has no result. *)
Definition or_throw {S A} (e : Exn) (o : option A) : M S A :=
  match o with Some a => ret a | None => throw e end.

(** [Array.prototype.forEach] *)
Fixpoint forEach {S A} (l : list A) (f : A → M S unit) : M S unit :=
  match l with
  | [] => ret tt
  | x :: l' => bind (f x) (λ _, forEach l' f)
  end.

(** A block with mutable local variables of type [L]: the body runs on
    the pair of the locals and the outer state. *)
Definition lift {L S A} (m : M S A) : M (L * S) A :=
  λ '(l, s), let '(r, s') := m s in (r, (l, s')).

Definition get_locals {L S} : M (L * S) L := λ '(l, s), (Ret l, (l, s)).

Definition set_locals {L S} (l : L) : M (L * S) unit :=
  λ '(_, s), (Ret tt, (l, s)).

Definition with_locals {L S A} (init : L) (body : M (L * S) A) : M S A :=
  λ s, let '(r, (_, s')) := body (init, s) in (r, s').

End Runtime.

Export Runtime.

Declare Scope eff_scope.
Delimit Scope eff_scope with eff.
Notation "'let!' x ':=' m 'in' k" := (bind m (λ x, k))
  (at level 10, x pattern, m at level 100, k at level 200) : eff_scope.
Notation "m ';;!' k" := (bind m (λ _, k))
  (at level 100, k at level 200, right associativity) : eff_scope.
Local Open Scope eff_scope.

(** *** Primitives of the runtime *)

Definition store_of (ty : StorageType) (w : World) : option Storage :=
  match ty with
  | localStorage => local_store w
  | sessionStorage => session_store w
  end.

Definition set_store (ty : StorageType) (st : Storage) (w : World) : World :=
  match ty with
  | localStorage =>
      mkWorld (has_window w) (Some st) (session_store w) (clock w) (console w)
  | sessionStorage =>
      mkWorld (has_window w) (local_store w) (Some st) (clock w) (console w)
  end.

(** Reading the global [localStorage] / [sessionStorage]; the result is a
    reference to the area, represented by its name. *)
Definition global_storage (ty : StorageType) : M World StorageType :=
  λ w, match store_of ty w with
       | Some _ => (Ret ty, w)
       | None => (Throw SecurityError, w)
       end.

Definition typeof_window_undefined : M World bool :=
  λ w, (Ret (negb (has_window w)), w).

Definition Date_now : M World Z := λ w, (Ret (clock w), w).

(** The world after one more console line. *)
Definition say (lvl : Level) (msg : string) (w : World) : World :=
  mkWorld (has_window w) (local_store w) (session_store w) (clock w)
          (console w ++ [Log lvl msg]).

Definition console_log (lvl : Level) (msg : string) : M World unit :=
  λ w, (Ret tt, say lvl msg w).

Definition console_warn := console_log warn.
Definition console_error := console_log error.

(** Characters held by a storage area. *)
Definition used (m : gmap string string) : nat :=
  map_fold (λ k v acc, (String.length k + String.length v + acc)%nat) 0%nat m.

(** [Storage.getItem]: [None] is JavaScript's [null]. *)
Definition getItem (h : StorageType) (key : string) : M World (option string) :=
  λ w, match store_of h w with
       | Some st => (Ret (items st !! key), w)
       | None => (Throw SecurityError, w)
       end.

(** [Storage.setItem]: raises [QuotaExceededError] when the write would
    take the area past its quota. *)
Definition setItem (h : StorageType) (key val : string) : M World unit :=
  λ w, match store_of h w with
       | Some st =>
           let m' := <[key := val]> (items st) in
           if (used m' <=? quota st)%nat
           then (Ret tt, set_store h (mkStorage m' (quota st)) w)
           else (Throw QuotaExceededError, w)
       | None => (Throw SecurityError, w)
       end.

(** [Storage.removeItem] *)
Definition removeItem (h : StorageType) (key : string) : M World unit :=
  λ w, match store_of h w with
       | Some st =>
           (Ret tt, set_store h (mkStorage (delete key (items st)) (quota st)) w)
       | None => (Throw SecurityError, w)
       end.

(** The names of the members of [Storage.prototype] and of
    [Object.prototype].  A stored key of one of these names is not a
    visible named property of the storage object: [getItem] finds it,
    [Object.keys] does not list it. *)
Definition builtin_names : list string :=
  ["length"; "key"; "getItem"; "setItem"; "removeItem"; "clear";
   "constructor"; "hasOwnProperty"; "isPrototypeOf";
   "propertyIsEnumerable"; "toLocaleString"; "toString"; "valueOf";
   "__proto__"; "__defineGetter__"; "__defineSetter__";
   "__lookupGetter__"; "__lookupSetter__"].

Definition shadowed (key : string) : bool :=
  existsb (String.eqb key) builtin_names.

(** [Object.keys] of a storage area: the stored keys that are visible.
    (A browser lists them in its own order; the map lists them in key
    order.) *)
Definition Object_keys (h : StorageType) : M World (list string) :=
  λ w, match store_of h w with
       | Some st =>
           (Ret (List.filter (λ k, negb (shadowed k))
                   (map_to_list (items st)).*1), w)
       | None => (Throw SecurityError, w)
       end.

(** [Date.now() > x] when the clock reads [now]. *)
Definition past (now : Z) (x : Number.t) : bool :=
  Number.gt (Number.of_Z now) x.

(** [String.prototype.startsWith] *)
Definition startsWith (s pre : string) : bool := String.prefix pre s.

(** Truthiness of [string | null]: [null] and the empty string are falsy. *)
Definition truthy (o : option string) : bool :=
  match o with
  | None => false
  | Some s => negb (String.eqb s "")
  end.

(** ** The cache facade of [cache.ts] *)

Section Facade.

(** [JSON.stringify] and [JSON.parse] at the type the source gives them:
    [stringify] takes a [CacheItem] to its text or raises ([None]), and
    [parse] reads a text annotated [CacheItem] or raises ([None]).  Every
    caller compares [Date.now()] with [expiresAt] of the item right after
    [JSON.parse], inside the same [try]; an exception of that comparison
    (the item is [null], or its [expiresAt] has no primitive value) is
    an exception of [parse] here. *)
Variable JSON_stringify : CacheItem → option string.
Variable JSON_parse : string → option CacheItem.

(** The string a value of type [StorageType | undefined] is in a
    template literal. *)
Definition name_of (storageType : option StorageType) : string :=
  match storageType with
  | Some localStorage => "localStorage"
  | Some sessionStorage => "sessionStorage"
  | None => "undefined"
  end.

(** [storageType === "localStorage" ? localStorage : sessionStorage]: the
    area selected. *)
Definition area (storageType : option StorageType) : StorageType :=
  match storageType with
  | Some localStorage => localStorage
  | _ => sessionStorage
  end.

Definition getStorage (storageType : option StorageType)
  : M World (option StorageType) :=
  let! no_window := typeof_window_undefined in
  if no_window then ret None
  else
    try_catch
      (let! s := global_storage (area storageType) in ret (Some s))
      (λ _,
        console_error ("Error accessing " +:+ name_of storageType +:+ ":") ;;!
        ret None).

Definition isExpired (item : CacheItem) : M World bool :=
  let! now := Date_now in ret (past now (expiresAt item)).

Definition isVersionOutdated (item : CacheItem) (currentVersion : option string)
  : bool :=
  negb (strict_equal (version item) currentVersion).

Definition setCacheData (key : string) (d : value) (options : CacheOptions)
  : M World bool :=
  try_catch
    (let config := spread DEFAULT_CACHE_CONFIG options in
     let! storage := getStorage (cfg_storage config) in
     match storage with
     | None => console_warn "Storage not available" ;;! ret false
     | Some storage =>
         let! now := Date_now in
         let cacheItem :=
           {| data := d;
              timestamp := Number.of_Z now;
              expiresAt := Number.add (Number.of_Z now) (ToNumeric (cfg_ttl config));
              version := js_string (cfg_version config);
              hash := None |} in
         let! jsonData := or_throw TypeError (JSON_stringify cacheItem) in
         setItem storage key jsonData ;;!
         ret true
     end)
    (λ _, console_error "Error setting cache data:" ;;! ret false).

Definition getCacheData (key : string) (options : CacheOptions)
  : M World value :=
  try_catch
    (let config := spread DEFAULT_CACHE_CONFIG options in
     let! storage := getStorage (cfg_storage config) in
     match storage with
     | None => console_warn "Storage not available" ;;! ret VNull
     | Some storage =>
         let! cachedData := getItem storage key in
         if negb (truthy cachedData) then ret VNull
         else
           let! cacheItem :=
             or_throw SyntaxError (JSON_parse (default "" cachedData)) in
           let! expired := isExpired cacheItem in
           if expired then removeItem storage key ;;! ret VNull
           else if isVersionOutdated cacheItem (cfg_version config)
           then removeItem storage key ;;! ret VNull
           else ret (data cacheItem)
     end)
    (λ _, console_error "Error getting cache data:" ;;! ret VNull).

Definition removeCacheData (key : string) (storage : StorageType)
  : M World bool :=
  try_catch
    (let! storageObj := getStorage (Some storage) in
     match storageObj with
     | None => ret false
     | Some storageObj => removeItem storageObj key ;;! ret true
     end)
    (λ _, console_error "Error removing cache data:" ;;! ret false).

Definition clearAllCache (storage : StorageType) : M World bool :=
  try_catch
    (let! storageObj := getStorage (Some storage) in
     match storageObj with
     | None => ret false
     | Some storageObj =>
         let! keys := Object_keys storageObj in
         let cacheKeys := List.filter (λ key, startsWith key "tasa_cache_") keys in
         forEach cacheKeys (λ key, removeItem storageObj key) ;;!
         ret true
     end)
    (λ _, console_error "Error clearing cache:" ;;! ret false).

Definition zero_stats : CacheStats :=
  {| totalKeys := 0; cacheKeys := 0; expiredKeys := 0; totalSize := 0 |}.

(** The callback of [cacheKeys.forEach] in [getCacheStats]; its locals are
    the pair [(expiredKeys, totalSize)] of the enclosing function. *)
Definition stats_visit (storageObj : StorageType) (key : string)
  : M (nat * nat * World) unit :=
  try_catch
    (let! cachedData := lift (getItem storageObj key) in
     if truthy cachedData then
       let! (expired, size) := get_locals in
       set_locals (expired, (size + String.length (default "" cachedData))%nat) ;;!
       let! cacheItem :=
         or_throw SyntaxError (JSON_parse (default "" cachedData)) in
       let! is_expired := lift (isExpired cacheItem) in
       if is_expired then
         let! (expired, size) := get_locals in
         set_locals (S expired, size)
       else ret tt
     else ret tt)
    (λ _, lift (console_error ("Error parsing cache item " +:+ key +:+ ":"))).

Definition getCacheStats (storage : StorageType) : M World CacheStats :=
  try_catch
    (let! storageObj := getStorage (Some storage) in
     match storageObj with
     | None => ret zero_stats
     | Some storageObj =>
         let! keys := Object_keys storageObj in
         let cacheKeys := List.filter (λ key, startsWith key "tasa_cache_") keys in
         with_locals (0%nat, 0%nat)
           (forEach cacheKeys (stats_visit storageObj) ;;!
            let! (expired, size) := get_locals in
            ret {| totalKeys := length keys;
                   cacheKeys := length cacheKeys;
                   expiredKeys := expired;
                   totalSize := size |})
     end)
    (λ _, console_error "Error getting cache stats:" ;;! ret zero_stats).

(** The callback of [cacheKeys.forEach] in [cleanupExpiredCache]; its
    local is [removedCount]. *)
Definition cleanup_visit (storageObj : StorageType) (key : string)
  : M (nat * World) unit :=
  try_catch
    (let! cachedData := lift (getItem storageObj key) in
     if truthy cachedData then
       let! cacheItem :=
         or_throw SyntaxError (JSON_parse (default "" cachedData)) in
       let! is_expired := lift (isExpired cacheItem) in
       if is_expired then
         lift (removeItem storageObj key) ;;!
         let! removedCount := get_locals in
         set_locals (S removedCount)
       else ret tt
     else ret tt)
    (λ _,
      lift (console_error ("Error cleaning up cache item " +:+ key +:+ ":")) ;;!
      lift (removeItem storageObj key) ;;!
      let! removedCount := get_locals in
      set_locals (S removedCount)).

Definition cleanupExpiredCache (storage : StorageType) : M World nat :=
  try_catch
    (let! storageObj := getStorage (Some storage) in
     match storageObj with
     | None => ret 0%nat
     | Some storageObj =>
         let! keys := Object_keys storageObj in
         let cacheKeys := List.filter (λ key, startsWith key "tasa_cache_") keys in
         with_locals 0%nat
           (forEach cacheKeys (cleanup_visit storageObj) ;;!
            get_locals)
     end)
    (λ _, console_error "Error cleaning up cache:" ;;! ret 0%nat).

Definition hasValidCache (key : string) (options : CacheOptions)
  : M World bool :=
  let config := spread DEFAULT_CACHE_CONFIG options in
  let! storage := getStorage (cfg_storage config) in
  match storage with
  | None => ret false
  | Some storage =>
      try_catch
        (let! cachedData := getItem storage key in
         if negb (truthy cachedData) then ret false
         else
           let! cacheItem :=
             or_throw SyntaxError (JSON_parse (default "" cachedData)) in
           let! expired := isExpired cacheItem in
           ret (negb expired && negb (isVersionOutdated cacheItem (cfg_version config))))
        (λ _, console_error "Error checking cache validity:" ;;! ret false)
  end.

End Facade.

(** ** An executable [JSON] codec

    [Json.stringify] follows the ECMAScript algorithm
    [SerializeJSONProperty] on the values of [JS.value] and [Json.parse]
    is a reader for the JSON grammar.  An object is the list of its
    properties in the order they are enumerated and written.  Strings
    are sequences of bytes; an escape [\uXXXX] is read as the UTF-8
    bytes of its code point.  A numeral is read as the nearest double.
    [Json.parse] then reads the parsed value as the code reads a
    [CacheItem]: by its properties [data], [expiresAt] and [version],
    whatever the value is. *)

Module Json.

Definition dquote : ascii := "034"%char.
Definition backslash : ascii := "\"%char.

Definition hex_char (n : N) : ascii :=
  if (n <? 10)%N then ascii_of_N (48 + n) else ascii_of_N (87 + n).

(** [QuoteJSONString], one character at a time: the short escapes, then
    [\u00XX] for the other control characters. *)
Definition quote_char (c : ascii) : string :=
  let n := N_of_ascii c in
  if Ascii.eqb c dquote then String backslash (String dquote "")
  else if Ascii.eqb c backslash then String backslash (String backslash "")
  else if (n =? 8)%N then String backslash "b"
  else if (n =? 12)%N then String backslash "f"
  else if (n =? 10)%N then String backslash "n"
  else if (n =? 13)%N then String backslash "r"
  else if (n =? 9)%N then String backslash "t"
  else if (n <? 32)%N then
    String backslash
      (String "u" (String "0" (String "0"
        (String (hex_char (n / 16)) (String (hex_char (n mod 16)) "")))))
  else String c "".

Fixpoint quote_body (s : string) : string :=
  match s with
  | EmptyString => EmptyString
  | String c s' => quote_char c +:+ quote_body s'
  end.

Definition QuoteJSONString (s : string) : string :=
  String dquote (quote_body s +:+ String dquote "").

(** What serialising one property value yields. *)
Inductive Ser : Type :=
  | Raised                (* a TypeError *)
  | Omitted               (* [undefined]: nothing to write *)
  | Text (s : string).

(** The elements of an array after the opening bracket; [undefined]
    elements are written [null]. *)
Fixpoint join_elems (parts : list string) : string :=
  match parts with
  | [] => "]"
  | [p] => p +:+ "]"
  | p :: rest => p +:+ "," +:+ join_elems rest
  end.

(** The members of an object after the opening brace. *)
Fixpoint join_members (parts : list (string * string)) : string :=
  match parts with
  | [] => "}"
  | [(k, p)] => QuoteJSONString k +:+ ":" +:+ p +:+ "}"
  | (k, p) :: rest =>
      QuoteJSONString k +:+ ":" +:+ p +:+ "," +:+ join_members rest
  end.

Fixpoint SerializeJSONProperty (v : value) : Ser :=
  match v with
  | VUndefined => Omitted
  | VNull => Text "null"
  | VBool b => Text (if b then "true" else "false")
  | VNum x => Text (if Number.is_finite x then Number.to_string x else "null")
  | VBigInt _ => Raised
  | VStr s => Text (QuoteJSONString s)
  | VArr elems =>
      let parts :=
        (fix go (l : list value) : option (list string) :=
           match l with
           | [] => Some []
           | x :: l' =>
               match SerializeJSONProperty x with
               | Raised => None
               | Omitted => option_map (cons "null") (go l')
               | Text t => option_map (cons t) (go l')
               end
           end) elems in
      match parts with
      | None => Raised
      | Some parts => Text (String "[" (join_elems parts))
      end
  | VObj props =>
      let parts :=
        (fix go (l : list (string * value)) : option (list (string * string)) :=
           match l with
           | [] => Some []
           | (k, x) :: l' =>
               match SerializeJSONProperty x with
               | Raised => None
               | Omitted => go l'
               | Text t => option_map (cons (k, t)) (go l')
               end
           end) props in
      match parts with
      | None => Raised
      | Some parts => Text (String "{" (join_members parts))
      end
  end.

(** The two inner loops of [SerializeJSONProperty], for stating facts
    about it. *)
Fixpoint ser_elems (l : list value) : option (list string) :=
  match l with
  | [] => Some []
  | x :: l' =>
      match SerializeJSONProperty x with
      | Raised => None
      | Omitted => option_map (cons "null") (ser_elems l')
      | Text t => option_map (cons t) (ser_elems l')
      end
  end.

Fixpoint ser_members (l : list (string * value))
  : option (list (string * string)) :=
  match l with
  | [] => Some []
  | (k, x) :: l' =>
      match SerializeJSONProperty x with
      | Raised => None
      | Omitted => ser_members l'
      | Text t => option_map (cons (k, t)) (ser_members l')
      end
  end.

(** A property that holds a value other than [undefined]. *)
Definition defined (kv : string * value) : bool :=
  match kv.2 with
  | VUndefined => false
  | _ => true
  end.

(** The object literal built in [setCacheData]; [hash] is absent unless
    the item carries one. *)
Definition to_object (item : CacheItem) : value :=
  VObj ([("data", data item);
         ("timestamp", VNum (timestamp item));
         ("expiresAt", VNum (expiresAt item));
         ("version", version item)]
        ++ match hash item with
           | Some h => [("hash", VStr h)]
           | None => []
           end).

(** [JSON.stringify] of a cache item; [None] when it raises. *)
Definition stringify (item : CacheItem) : option string :=
  match SerializeJSONProperty (to_object item) with
  | Text s => Some s
  | _ => None
  end.

(** *** Reading *)

Definition is_ws (c : ascii) : bool :=
  let n := N_of_ascii c in
  (n =? 32)%N || (n =? 9)%N || (n =? 10)%N || (n =? 13)%N.

Fixpoint skip_ws (s : string) : string :=
  match s with
  | String c r => if is_ws c then skip_ws r else s
  | EmptyString => s
  end.

Definition hex_val (c : ascii) : option N :=
  let n := N_of_ascii c in
  if (48 <=? n)%N && (n <=? 57)%N then Some (n - 48)%N
  else if (97 <=? n)%N && (n <=? 102)%N then Some (n - 87)%N
  else if (65 <=? n)%N && (n <=? 70)%N then Some (n - 55)%N
  else None.

(** The UTF-8 bytes of a code point below 0x10000 that is not a
    surrogate. *)
Definition utf8 (n : N) : option string :=
  if (n <? 128)%N then Some (String (ascii_of_N n) "")
  else if (n <? 2048)%N then
    Some (String (ascii_of_N (192 + n / 64))
           (String (ascii_of_N (128 + n mod 64)) ""))
  else if (55296 <=? n)%N && (n <? 57344)%N then None
  else
    Some (String (ascii_of_N (224 + n / 4096))
           (String (ascii_of_N (128 + (n / 64) mod 64))
             (String (ascii_of_N (128 + n mod 64)) ""))).

Definition unescape (c : ascii) : option ascii :=
  if Ascii.eqb c dquote then Some dquote
  else if Ascii.eqb c backslash then Some backslash
  else if Ascii.eqb c "/" then Some "/"%char
  else if Ascii.eqb c "b" then Some (ascii_of_N 8)
  else if Ascii.eqb c "f" then Some (ascii_of_N 12)
  else if Ascii.eqb c "n" then Some (ascii_of_N 10)
  else if Ascii.eqb c "r" then Some (ascii_of_N 13)
  else if Ascii.eqb c "t" then Some (ascii_of_N 9)
  else None.

(** The characters of a string literal after its opening quote, up to
    and including the closing quote. *)
Fixpoint read_string (s : string) : option (string * string) :=
  match s with
  | EmptyString => None
  | String c r =>
      if Ascii.eqb c dquote then Some (EmptyString, r)
      else if Ascii.eqb c backslash then
        match r with
        | String e r1 =>
            if Ascii.eqb e "u" then
              match r1 with
              | String h1 (String h2 (String h3 (String h4 r2))) =>
                  match hex_val h1, hex_val h2, hex_val h3, hex_val h4 with
                  | Some a, Some b, Some c', Some d =>
                      match utf8 (((a * 16 + b) * 16 + c') * 16 + d),
                            read_string r2 with
                      | Some bytes, Some (body, rest) => Some (bytes +:+ body, rest)
                      | _, _ => None
                      end
                  | _, _, _, _ => None
                  end
              | _ => None
              end
            else
              match unescape e, read_string r1 with
              | Some c', Some (body, rest) => Some (String c' body, rest)
              | _, _ => None
              end
        | EmptyString => None
        end
      else if (N_of_ascii c <? 32)%N then None
      else
        match read_string r with
        | Some (body, rest) => Some (String c body, rest)
        | None => None
        end
  end.

Definition digit_of (c : ascii) : option (Decimal.uint → Decimal.uint) :=
  let n := N_of_ascii c in
  if (n =? 48)%N then Some Decimal.D0
  else if (n =? 49)%N then Some Decimal.D1
  else if (n =? 50)%N then Some Decimal.D2
  else if (n =? 51)%N then Some Decimal.D3
  else if (n =? 52)%N then Some Decimal.D4
  else if (n =? 53)%N then Some Decimal.D5
  else if (n =? 54)%N then Some Decimal.D6
  else if (n =? 55)%N then Some Decimal.D7
  else if (n =? 56)%N then Some Decimal.D8
  else if (n =? 57)%N then Some Decimal.D9
  else None.

(** The longest run of decimal digits at the head of the text. *)
Fixpoint read_digits (s : string) : Decimal.uint * string :=
  match s with
  | EmptyString => (Decimal.Nil, s)
  | String c r =>
      match digit_of c with
      | Some d => let '(u, rest) := read_digits r in (d u, rest)
      | None => (Decimal.Nil, s)
      end
  end.

(** The integer part of a JSON numeral: at least one digit, no leading
    zero. *)
Definition read_unsigned (s : string) : option (Decimal.uint * string) :=
  match read_digits s with
  | (Decimal.Nil, _) => None
  | (Decimal.D0 Decimal.Nil, rest) => Some (Decimal.D0 Decimal.Nil, rest)
  | (Decimal.D0 _, _) => None
  | (u, rest) => Some (u, rest)
  end.

(** The fraction of a JSON numeral: a point and at least one digit, or
    nothing ([Nil]). *)
Definition read_fraction (s : string) : option (Decimal.uint * string) :=
  match s with
  | String c r =>
      if Ascii.eqb c "." then
        match read_digits r with
        | (Decimal.Nil, _) => None
        | (u, rest) => Some (u, rest)
        end
      else Some (Decimal.Nil, s)
  | EmptyString => Some (Decimal.Nil, s)
  end.

(** A sign, if there is one, and at least one digit. *)
Definition read_signed (s : string) : option (Z * string) :=
  let '(negative, r) :=
    match s with
    | String c r =>
        if Ascii.eqb c "-" then (true, r)
        else if Ascii.eqb c "+" then (false, r)
        else (false, s)
    | EmptyString => (false, s)
    end in
  match read_digits r with
  | (Decimal.Nil, _) => None
  | (u, rest) => Some (cond_Zopp negative (Z.of_uint u), rest)
  end.

(** The exponent of a numeral: [e] or [E] and a signed integer, or
    nothing ([0]). *)
Definition read_exponent (s : string) : option (Z * string) :=
  match s with
  | String c r =>
      if Ascii.eqb c "e" || Ascii.eqb c "E" then read_signed r
      else Some (0, s)
  | EmptyString => Some (0, s)
  end.

(** The Number written with the digits [u] before the point, [f] after
    it, and the exponent [e]. *)
Definition decimal (negative : bool) (u f : Decimal.uint) (e : Z) : Number.t :=
  Number.of_decimal negative (Z.of_uint (Decimal.app u f))
    (e - Z.of_nat (Decimal.nb_digits f)).

Definition read_number (s : string) : option (value * string) :=
  let '(negative, r) :=
    match s with
    | String c r => if Ascii.eqb c "-" then (true, r) else (false, s)
    | EmptyString => (false, s)
    end in
  match read_unsigned r with
  | Some (u, r1) =>
      match read_fraction r1 with
      | Some (f, r2) =>
          match read_exponent r2 with
          | Some (e, rest) => Some (VNum (decimal negative u f e), rest)
          | None => None
          end
      | None => None
      end
  | None => None
  end.

(** [expect word s v]: the text goes on with [word]. *)
Fixpoint expect (word s : string) (v : value) : option (value * string) :=
  match word with
  | EmptyString => Some (v, s)
  | String c word' =>
      match s with
      | String c' s' => if Ascii.eqb c c' then expect word' s' v else None
      | EmptyString => None
      end
  end.

(** Defining a property on the object under construction: a repeated
    name keeps its place and takes the later value. *)
Fixpoint define_prop (props : list (string * value)) (k : string) (v : value)
  : list (string * value) :=
  match props with
  | [] => [(k, v)]
  | (k', v') :: rest =>
      if String.eqb k' k then (k', v) :: rest
      else (k', v') :: define_prop rest k v
  end.

Definition make_object (members : list (string * value)) : value :=
  VObj (fold_left (λ props '(k, v), define_prop props k v) members []).

Fixpoint parse_value (fuel : nat) (s : string) : option (value * string) :=
  match fuel with
  | O => None
  | S fuel =>
      match skip_ws s with
      | EmptyString => None
      | String c r =>
          if Ascii.eqb c "n" then expect "ull" r VNull
          else if Ascii.eqb c "t" then expect "rue" r (VBool true)
          else if Ascii.eqb c "f" then expect "alse" r (VBool false)
          else if Ascii.eqb c dquote then
            match read_string r with
            | Some (str, rest) => Some (VStr str, rest)
            | None => None
            end
          else if Ascii.eqb c "[" then
            match skip_ws r with
            | String c' r' =>
                if Ascii.eqb c' "]" then Some (VArr [], r')
                else
                  match parse_elements fuel r with
                  | Some (vs, rest) => Some (VArr vs, rest)
                  | None => None
                  end
            | EmptyString => None
            end
          else if Ascii.eqb c "{" then
            match skip_ws r with
            | String c' r' =>
                if Ascii.eqb c' "}" then Some (VObj [], r')
                else
                  match parse_members fuel r with
                  | Some (ms, rest) => Some (make_object ms, rest)
                  | None => None
                  end
            | EmptyString => None
            end
          else read_number (String c r)
      end
  end
with parse_elements (fuel : nat) (s : string) : option (list value * string) :=
  match fuel with
  | O => None
  | S fuel =>
      match parse_value fuel s with
      | Some (v, r) =>
          match skip_ws r with
          | String c r' =>
              if Ascii.eqb c "," then
                match parse_elements fuel r' with
                | Some (vs, rest) => Some (v :: vs, rest)
                | None => None
                end
              else if Ascii.eqb c "]" then Some ([v], r')
              else None
          | EmptyString => None
          end
      | None => None
      end
  end
with parse_members (fuel : nat) (s : string)
  : option (list (string * value) * string) :=
  match fuel with
  | O => None
  | S fuel =>
      match skip_ws s with
      | String q r0 =>
          if Ascii.eqb q dquote then
            match read_string r0 with
            | Some (k, r1) =>
                match skip_ws r1 with
                | String colon r2 =>
                    if Ascii.eqb colon ":" then
                      match parse_value fuel r2 with
                      | Some (v, r3) =>
                          match skip_ws r3 with
                          | String c r' =>
                              if Ascii.eqb c "," then
                                match parse_members fuel r' with
                                | Some (ms, rest) => Some ((k, v) :: ms, rest)
                                | None => None
                                end
                              else if Ascii.eqb c "}" then Some ([(k, v)], r')
                              else None
                          | EmptyString => None
                          end
                      | None => None
                      end
                    else None
                | EmptyString => None
                end
            | None => None
            end
          else None
      | EmptyString => None
      end
  end.

(** The whole text is one JSON value, white space around it allowed. *)
Definition parse_text (s : string) : option value :=
  match parse_value (S (String.length s)) s with
  | Some (v, rest) =>
      match skip_ws rest with
      | EmptyString => Some v
      | _ => None
      end
  | None => None
  end.

(** Property read [o.name] on a parsed object; an absent property reads
    [undefined]. *)
Fixpoint get_prop (props : list (string * value)) (name : string) : value :=
  match props with
  | [] => VUndefined
  | (k, v) :: rest => if String.eqb k name then v else get_prop rest name
  end.

(** *** Reading a parsed value as a cache item *)

(** White space of a numeric string (the characters of it that are
    ASCII). *)
Definition is_space (c : ascii) : bool :=
  let n := N_of_ascii c in
  ((9 <=? n)%N && (n <=? 13)%N) || (n =? 32)%N.

Fixpoint trim_start (s : string) : string :=
  match s with
  | String c r => if is_space c then trim_start r else s
  | EmptyString => s
  end.

Fixpoint trim_end (s : string) : string :=
  match s with
  | EmptyString => EmptyString
  | String c r =>
      match trim_end r with
      | EmptyString => if is_space c then EmptyString else String c EmptyString
      | r' => String c r'
      end
  end.

(** The digits of a numeral in radix 2, 8 or 16; [None] when a character
    is not one. *)
Fixpoint read_radix (radix : N) (s : string) (acc : N) : option N :=
  match s with
  | EmptyString => Some acc
  | String c r =>
      match hex_val c with
      | Some d => if (d <? radix)%N then read_radix radix r (acc * radix + d)%N
                  else None
      | None => None
      end
  end.

(** [StrUnsignedDecimalLiteral]: [Infinity], or digits with an optional
    point and an optional exponent, at least one digit before the
    exponent; nothing may follow. *)
Definition unsigned_decimal (negative : bool) (s : string) : Number.t :=
  if String.eqb s "Infinity" then S754_infinity negative
  else
    let '(u, r1) := read_digits s in
    let '(f, r2) :=
      match r1 with
      | String c r => if Ascii.eqb c "." then read_digits r else (Decimal.Nil, r1)
      | EmptyString => (Decimal.Nil, r1)
      end in
    match u, f with
    | Decimal.Nil, Decimal.Nil => Number.NaN
    | _, _ =>
        match read_exponent r2 with
        | Some (e, EmptyString) => decimal negative u f e
        | _ => Number.NaN
        end
    end.

(** [StringToNumber] *)
Definition StringToNumber (s : string) : Number.t :=
  match trim_end (trim_start s) with
  | EmptyString => S754_zero false
  | String c r as s' =>
      if Ascii.eqb c "-" then unsigned_decimal true r
      else if Ascii.eqb c "+" then unsigned_decimal false r
      else
        match r with
        | String x (String _ _ as digits) =>
            if Ascii.eqb c "0" && (Ascii.eqb x "x" || Ascii.eqb x "X") then
              match read_radix 16 digits 0 with
              | Some n => Number.of_Z (Z.of_N n)
              | None => Number.NaN
              end
            else if Ascii.eqb c "0" && (Ascii.eqb x "o" || Ascii.eqb x "O") then
              match read_radix 8 digits 0 with
              | Some n => Number.of_Z (Z.of_N n)
              | None => Number.NaN
              end
            else if Ascii.eqb c "0" && (Ascii.eqb x "b" || Ascii.eqb x "B") then
              match read_radix 2 digits 0 with
              | Some n => Number.of_Z (Z.of_N n)
              | None => Number.NaN
              end
            else unsigned_decimal false s'
        | _ => unsigned_decimal false s'
        end
  end.

(** Whether an object has an own property of that name. *)
Definition has_own (props : list (string * value)) (name : string) : bool :=
  existsb (λ p, String.eqb p.1 name) props.

(** [ToString] of a parsed value; [None] when it raises.  An array is
    the join of its elements, [null] and [undefined] elements being
    empty.  An object goes through [OrdinaryToPrimitive]: a parsed
    object holds no function, so an own property [toString] hides
    [Object.prototype.toString] and the conversion raises a [TypeError];
    without one the text is that of [Object.prototype.toString]. *)
Fixpoint ToString (v : value) : option string :=
  match v with
  | VUndefined => Some "undefined"
  | VNull => Some "null"
  | VBool b => Some (if b then "true" else "false")
  | VNum x => Some (Number.to_string x)
  | VBigInt n => Some (Number.show_int n)
  | VStr s => Some s
  | VArr elems =>
      (fix join (l : list value) : option string :=
         match l with
         | [] => Some EmptyString
         | x :: l' =>
             match match x with
                   | VUndefined | VNull => Some EmptyString
                   | _ => ToString x
                   end with
             | Some s =>
                 match l' with
                 | [] => Some s
                 | _ =>
                     match join l' with
                     | Some r => Some (s +:+ "," +:+ r)
                     | None => None
                     end
                 end
             | None => None
             end
         end) elems
  | VObj props =>
      if has_own props "toString" then None else Some "[object Object]"
  end.

(** The number the comparison [Date.now() > v] compares with, for a
    parsed value [v] ([ToPrimitive], then [ToNumber]); [None] when the
    conversion raises. *)
Definition ToNumber (v : value) : option Number.t :=
  match v with
  | VUndefined => Some Number.NaN
  | VNull => Some (S754_zero false)
  | VBool b => Some (Number.of_Z (if b then 1 else 0))
  | VNum x => Some x
  | VBigInt n => Some (Number.of_Z n)
  | VStr s => Some (StringToNumber s)
  | VArr _ | VObj _ =>
      match ToString v with
      | Some s => Some (StringToNumber s)
      | None => None
      end
  end.

(** A parsed value read as the code reads a cache item.  Reading a
    property of [null] raises; any other value has the properties asked
    for or reads [undefined] for them.  [expiresAt] is the number the
    comparison of [isExpired] sees, and the item is [None] when that
    conversion raises; [timestamp], which the code never reads, is kept
    as a number where it is one. *)
Definition as_CacheItem (v : value) : option CacheItem :=
  match v with
  | VNull | VUndefined => None
  | _ =>
      let props := match v with VObj props => props | _ => [] end in
      match ToNumber (get_prop props "expiresAt") with
      | Some ex =>
          Some {| data := get_prop props "data";
                  timestamp := default Number.NaN
                                 (ToNumber (get_prop props "timestamp"));
                  expiresAt := ex;
                  version := get_prop props "version";
                  hash := match get_prop props "hash" with
                          | VStr h => Some h
                          | _ => None
                          end |}
      | None => None
      end
  end.

(** [JSON.parse] of a stored text, read as a cache item; [None] when it
    raises. *)
Definition parse (s : string) : option CacheItem :=
  match parse_text s with
  | Some v => as_CacheItem v
  | None => None
  end.

(** Payloads for which the round trip through this codec is proved:
    [null], booleans, integers of magnitude below 2^53, strings, and
    arrays and objects of such values, objects having pairwise distinct
    property names. *)
Fixpoint distinct (ks : list string) : bool :=
  match ks with
  | [] => true
  | k :: ks' => negb (existsb (String.eqb k) ks') && distinct ks'
  end.

Fixpoint plain (v : value) : bool :=
  match v with
  | VNull | VBool _ | VStr _ => true
  | VNum x => match Number.safe_integer x with Some _ => true | None => false end
  | VArr elems => forallb plain elems
  | VObj props =>
      distinct (List.map fst props)
      && (fix all (l : list (string * value)) : bool :=
            match l with
            | [] => true
            | (_, x) :: l' => plain x && all l'
            end) props
  | _ => false
  end.

Fixpoint plain_members (l : list (string * value)) : bool :=
  match l with
  | [] => true
  | (_, x) :: l' => plain x && plain_members l'
  end.

(** Recursion depth the reader needs for a value. *)
Fixpoint need (v : value) : nat :=
  match v with
  | VArr elems => S (list_sum (List.map (λ x, S (need x)) elems))
  | VObj props =>
      S ((fix go (l : list (string * value)) : nat :=
            match l with
            | [] => O
            | (_, x) :: l' => (S (need x) + go l')%nat
            end) props)
  | _ => 1%nat
  end.

Fixpoint need_members (l : list (string * value)) : nat :=
  match l with
  | [] => O
  | (_, x) :: l' => (S (need x) + need_members l')%nat
  end.

(** A character that may follow a value inside a text: none, or one of
    the separators. *)
Definition delimited (rest : string) : bool :=
  match rest with
  | EmptyString => true
  | String c _ => Ascii.eqb c "," || Ascii.eqb c "]" || Ascii.eqb c "}"
  end.

(** A character a serialised value may begin with. *)
Definition starts_value (c : ascii) : bool :=
  Ascii.eqb c "n" || Ascii.eqb c "t" || Ascii.eqb c "f" || Ascii.eqb c dquote
  || Ascii.eqb c "[" || Ascii.eqb c "{" || Ascii.eqb c "-"
  || ((48 <=? N_of_ascii c)%N && (N_of_ascii c <=? 57)%N).

(** A payload the cache gives back as it was stored: a plain value, or
    [undefined] (the [data] property is then left out of the text and
    reads [undefined] again). *)
Definition preserved (d : value) : bool :=
  match d with
  | VUndefined => true
  | _ => plain d
  end.

(** A decimal numeral as [Number::toString] writes it: at least one
    digit and no leading zero. *)
Definition canonical (u : Decimal.uint) : Prop :=
  match u with
  | Decimal.Nil => False
  | Decimal.D0 Decimal.Nil => True
  | Decimal.D0 _ => False
  | _ => True
  end.

(** A plain value is written as a text, the text begins like a value, it
    is at least as long as the reader's recursion is deep, and the
    reader gets the value back from it, whatever follows. *)
Definition reads_back (v : value) : Prop :=
  plain v = true →
  ∃ t,
    SerializeJSONProperty v = Text t
    ∧ (∃ c r, t = String c r ∧ starts_value c = true)
    ∧ (need v ≤ String.length t)%nat
    ∧ ∀ fuel rest,
        (need v ≤ fuel)%nat → delimited rest = true →
        parse_value fuel (t +:+ rest) = Some (v, rest).

End Json.

(** ** The [authorized] callback of [middleware.ts] *)

Module AuthGate.

(** [interface JWT] of [auth.ts]; the callback only tests the token for
    presence. *)
Record JWT : Type := mkJWT {
  role : string;
  accessToken : option string
}.

(** [authorized: ({ token, req }) => ...] with [pathname] standing for
    [req.nextUrl.pathname]; [token] is [JWT | null], and [!!token] is
    true exactly for a token that is present. *)
Definition authorized (token : option JWT) (pathname : string) : bool :=
  if startsWith pathname "/auth/" then true
  else if startsWith pathname "/dashboard" || startsWith pathname "/profile"
  then negb (negb (bool_decide (is_Some token)))
  else true.

End AuthGate.

(** ** The route matcher of [middleware.ts] *)

Module Middleware.

(** [config.matcher] *)
Definition matcher : list string :=
  ["/dashboard/:path*"; "/profile/:path*"; "/api/protected/:path*"].

(** The literal text of a pattern up to the slash that introduces its
    first parameter.  A pathname selected by the pattern begins with
    it. *)
Fixpoint literal_part (pattern : string) : string :=
  match pattern with
  | String "/" (String ":" _) => ""
  | String c rest => String c (literal_part rest)
  | "" => ""
  end.

(** The pathnames that begin as some pattern of the matcher asks: all
    the pathnames the middleware can be run on. *)
Definition selectable (pathname : string) : Prop :=
  ∃ pattern, pattern ∈ matcher
             ∧ startsWith pathname (literal_part pattern) = true.

End Middleware.

(** ** The memoised connection of [dbconnect.js]

    [dbConnect] is an [async] function: a call runs up to its [await],
    is suspended there, and is resumed once the awaited promise is
    settled.  The two halves are [dbConnect_enter] and [dbConnect_resume];
    [step] interleaves calls, settlements and resumptions as the event
    loop may. *)

Module DbConnect.

(** The handle [mongoose.connect] resolves to. *)
Definition Connection : Type := nat.

(** A promise returned by [mongoose.connect], named by the rank of the
    connection attempt that created it. *)
Definition PromiseId : Type := nat.

Inductive PromiseState : Type :=
  | Pending
  | Fulfilled (c : Connection)
  | Rejected.

(** [globalForMongoose.__mongoose] *)
Record Cache : Type := mkCache {
  promise : option PromiseId;
  connection : option Connection
}.

(** The Node process: the cache, every connection attempt initiated so
    far with the state of its promise, the calls suspended at [await],
    the handles returned to finished calls, and whether [process.exit]
    has run. *)
Record Process : Type := mkProcess {
  cached : Cache;
  attempts : list PromiseState;
  waiting : list PromiseId;
  returned : list Connection;
  exited : bool
}.

(** [global.__mongoose ??= { promise: null, connection: null }] in a fresh
    process. *)
Definition start : Process :=
  {| cached := {| promise := None; connection := None |};
     attempts := [];
     waiting := [];
     returned := [];
     exited := false |}.

(** [mongoose.connect(MONGODB_URI, opts)]: initiates a connection attempt
    and returns its promise. *)
Definition mongoose_connect (P : Process) : PromiseId * Process :=
  (length (attempts P),
   mkProcess (cached P) (attempts P ++ [Pending]) (waiting P) (returned P)
             (exited P)).

Inductive Suspension : Type :=
  | Done (c : Connection)       (* returned before any [await] *)
  | Await (p : PromiseId).      (* suspended on this promise *)

(** A call of [dbConnect] up to its [await]. *)
Definition dbConnect_enter (P : Process) : Suspension * Process :=
  match connection (cached P) with
  | Some c => (Done c, P)
  | None =>
      match promise (cached P) with
      | Some p => (Await p, P)
      | None =>
          let '(p, P1) := mongoose_connect P in
          (Await p,
           mkProcess {| promise := Some p; connection := connection (cached P1) |}
                     (attempts P1) (waiting P1) (returned P1) (exited P1))
      end
  end.

(** The rest of a call suspended on a promise that is now settled: the
    [try] assigns the handle and the call returns [cached.connection];
    the [catch] resets the cache and ends the process. *)
Definition dbConnect_resume (settled : PromiseState) (P : Process)
  : option (option Connection * Process) :=
  match settled with
  | Pending => None
  | Fulfilled c =>
      let P1 :=
        mkProcess {| promise := promise (cached P); connection := Some c |}
                  (attempts P) (waiting P) (returned P) (exited P) in
      Some (connection (cached P1), P1)
  | Rejected =>
      Some (None,
            mkProcess {| promise := None; connection := None |}
                      (attempts P) (waiting P) (returned P) true)
  end.

Inductive Event : Type :=
  | Call                                   (* some caller invokes [dbConnect] *)
  | Settle (p : PromiseId) (s : PromiseState)  (* the driver settles a promise *)
  | Resume (i : nat).                      (* the i-th suspended call goes on *)

(** One turn of the event loop; [None] when the event cannot happen. *)
Definition step (e : Event) (P : Process) : option Process :=
  if exited P then None
  else
    match e with
    | Call =>
        match dbConnect_enter P with
        | (Done c, P1) =>
            Some (mkProcess (cached P1) (attempts P1) (waiting P1)
                            (returned P1 ++ [c]) (exited P1))
        | (Await p, P1) =>
            Some (mkProcess (cached P1) (attempts P1) (waiting P1 ++ [p])
                            (returned P1) (exited P1))
        end
    | Settle p s =>
        match attempts P !! p, s with
        | Some Pending, Fulfilled _ | Some Pending, Rejected =>
            Some (mkProcess (cached P) (<[p := s]> (attempts P)) (waiting P)
                            (returned P) (exited P))
        | _, _ => None
        end
    | Resume i =>
        match waiting P !! i with
        | Some p =>
            match attempts P !! p with
            | Some s =>
                match dbConnect_resume s P with
                | Some (r, P1) =>
                    Some (mkProcess (cached P1) (attempts P1)
                                    (delete i (waiting P1))
                                    (returned P1 ++ option_list r)
                                    (exited P1))
                | None => None
                end
            | None => None
            end
        | None => None
        end
    end.

Fixpoint run (es : list Event) (P : Process) : option Process :=
  match es with
  | [] => Some P
  | e :: es' =>
      match step e P with
      | Some P' => run es' P'
      | None => None
      end
  end.

(** What every reachable state of the process satisfies: at most one
    connection attempt has been initiated; a running process with no
    cached promise has initiated none; a cached promise, and every
    promise a call is suspended on, is that one attempt's; a cached
    handle, and every handle returned, is the one the attempt resolved
    to. *)
Record Inv (P : Process) : Prop := mkInv {
  inv_attempts : (length (attempts P) ≤ 1)%nat;
  inv_fresh :
    exited P = false → promise (cached P) = None → attempts P = [];
  inv_promise :
    ∀ p, promise (cached P) = Some p → p = 0%nat ∧ length (attempts P) = 1%nat;
  inv_connection :
    ∀ c, connection (cached P) = Some c → attempts P = [Fulfilled c];
  inv_waiting : ∀ p, p ∈ waiting P → p = 0%nat;
  inv_returned : ∀ c, c ∈ returned P → attempts P = [Fulfilled c]
}.

End DbConnect.

(** ** Vocabulary of the statements *)

(** The storage area an operation gets from [getStorage]: none outside a
    browser, none when the global raises. *)
Definition backend (ty : StorageType) (w : World) : option Storage :=
  if has_window w then store_of ty w else None.

(** The world [getStorage] leaves when there is no backend: untouched
    outside a browser, one console line when the global raised. *)
Definition without_backend (storageType : option StorageType) (w : World)
  : World :=
  if has_window w
  then say error ("Error accessing " +:+ name_of storageType +:+ ":") w
  else w.

(** The key carries the application's cache prefix. *)
Definition prefixed (key : string) : bool := startsWith key "tasa_cache_".

(** The world when the clock reads [t]. *)
Definition at_time (t : Z) (w : World) : World :=
  mkWorld (has_window w) (local_store w) (session_store w) t (console w).

(** The configuration an operation works with. *)
Definition config_of (options : CacheOptions) : Config :=
  spread DEFAULT_CACHE_CONFIG options.

(** The options with the [forceRefresh] property set, or left out. *)
Definition with_forceRefresh (options : CacheOptions)
    (f : option (option bool)) : CacheOptions :=
  mkCacheOptions (opt_ttl options) (opt_version options) (opt_storage options) f.

(** The entry stored under a key: the item its text reads as, when the
    text is not empty. *)
Definition entry_at (JSON_parse : string → option CacheItem)
    (st : Storage) (key : string) : option CacheItem :=
  match items st !! key with
  | Some blob => if String.eqb blob "" then None else JSON_parse blob
  | None => None
  end.

(** The item [setCacheData] builds at clock reading [now]. *)
Definition item_for (d : value) (config : Config) (now : Z) : CacheItem :=
  {| data := d;
     timestamp := Number.of_Z now;
     expiresAt := Number.add (Number.of_Z now) (ToNumeric (cfg_ttl config));
     version := js_string (cfg_version config);
     hash := None |}.

(** The keys [Object.keys] lists, and those of them under the prefix. *)
Definition keys_of (st : Storage) : list string :=
  List.filter (λ k, negb (shadowed k)) (map_to_list (items st)).*1.

Definition cache_keys_of (st : Storage) : list string :=
  List.filter prefixed (keys_of st).

(** The area after [removeItem] on every key of a list. *)
Definition remove_all (ks : list string) (st : Storage) : Storage :=
  mkStorage (foldl (λ m k, delete k m) (items st) ks) (quota st).

(** The world with more console lines. *)
Definition add_console (lines : list LogEntry) (w : World) : World :=
  mkWorld (has_window w) (local_store w) (session_store w) (clock w)
          (console w ++ lines).

(** What the text under one key adds to [totalSize] and to [expiredKeys]
    in [getCacheStats], and whether reading it raises. *)
Definition size_share (o : option string) : nat :=
  if truthy o then String.length (default "" o) else 0%nat.

Definition expired_share (JSON_parse : string → option CacheItem) (now : Z)
    (o : option string) : nat :=
  if truthy o then
    match JSON_parse (default "" o) with
    | Some item => if past now (expiresAt item) then 1%nat else 0%nat
    | None => 0%nat
    end
  else 0%nat.

Definition unreadable (JSON_parse : string → option CacheItem)
    (o : option string) : bool :=
  truthy o && bool_decide (JSON_parse (default "" o) = None).

(** The console lines [getCacheStats] writes over a list of keys. *)
Definition parse_error_line (key : string) : LogEntry :=
  Log error ("Error parsing cache item " +:+ key +:+ ":").

Definition stats_lines (JSON_parse : string → option CacheItem)
    (st : Storage) (ks : list string) : list LogEntry :=
  parse_error_line <$>
    List.filter (λ k, unreadable JSON_parse (items st !! k)) ks.

(** Whether [cleanupExpiredCache] removes the text under a key: it is a
    non-empty text that is expired or unreadable. *)
Definition stale (JSON_parse : string → option CacheItem) (now : Z)
    (o : option string) : bool :=
  truthy o &&
  match JSON_parse (default "" o) with
  | Some item => past now (expiresAt item)
  | None => true
  end.

(** The console lines [cleanupExpiredCache] writes over a list of keys. *)
Definition cleanup_error_line (key : string) : LogEntry :=
  Log error ("Error cleaning up cache item " +:+ key +:+ ":").

Definition cleanup_lines (JSON_parse : string → option CacheItem)
    (st : Storage) (ks : list string) : list LogEntry :=
  cleanup_error_line <$>
    List.filter (λ k, unreadable JSON_parse (items st !! k)) ks.

(** The console line of a given operation is present. *)
Definition logged (lvl : Level) (msg : string) (w : World) : Prop :=
  Log lvl msg ∈ console w.

(** ** Vocabulary of the further statements *)

(** The two storage areas hold what they held. *)
Definition same_storage (w w' : World) : Prop :=
  local_store w' = local_store w ∧ session_store w' = session_store w.

(** What [getCacheData] returns for the text found under the key, and
    whether [hasValidCache] accepts it. *)
Definition read_of (JSON_parse : string → option CacheItem) (config : Config)
    (now : Z) (o : option string) : value :=
  if truthy o then
    match JSON_parse (default "" o) with
    | Some item =>
        if (past now (expiresAt item))
           || negb (strict_equal (version item) (cfg_version config))
        then VNull else data item
    | None => VNull
    end
  else VNull.

Definition valid_of (JSON_parse : string → option CacheItem) (config : Config)
    (now : Z) (o : option string) : bool :=
  truthy o &&
  match JSON_parse (default "" o) with
  | Some item =>
      negb (past now (expiresAt item))
      && strict_equal (version item) (cfg_version config)
  | None => false
  end.

(** The other storage area. *)
Definition other (ty : StorageType) : StorageType :=
  match ty with
  | localStorage => sessionStorage
  | sessionStorage => localStorage
  end.

(** An operation on one area leaves the rest of the world alone: the
    other area, the presence of a window, the clock. *)
Definition unchanged_outside (ty : StorageType) (w w' : World) : Prop :=
  store_of (other ty) w' = store_of (other ty) w
  ∧ has_window w' = has_window w
  ∧ clock w' = clock w.

(** The keys [cleanupExpiredCache] removes at clock reading [now], and
    the area it leaves. *)
Definition stale_keys (JSON_parse : string → option CacheItem) (now : Z)
    (st : Storage) : list string :=
  List.filter (λ k, stale JSON_parse now (items st !! k)) (cache_keys_of st).

Definition swept (JSON_parse : string → option CacheItem) (now : Z)
    (st : Storage) : Storage :=
  remove_all (stale_keys JSON_parse now st) st.

(** What a write adds to the number of keys: one when the key is new. *)
Definition fresh_count (o : option string) : nat :=
  match o with Some _ => 0%nat | None => 1%nat end.

(** What a stored key adds to the number of keys [Object.keys] lists. *)
Definition listed (key : string) : nat :=
  if shadowed key then 0%nat else 1%nat.

(** JSON carries an item: the text written for it is not empty and is
    read as an item with the same [data], [expiresAt] and [version]. *)
Definition carried (JSON_stringify : CacheItem → option string)
    (JSON_parse : string → option CacheItem) (item : CacheItem) : Prop :=
  ∀ blob,
    JSON_stringify item = Some blob →
    blob ≠ EmptyString
    ∧ ∃ item',
        JSON_parse blob = Some item'
        ∧ data item' = data item
        ∧ expiresAt item' = expiresAt item
        ∧ version item' = version item.

(** ** Sample worlds *)

Module Samples.

(** A browser with both storage areas empty; the clock reads 1000. *)
Definition browser : World :=
  mkWorld true (Some (mkStorage ∅ 4096)) (Some (mkStorage ∅ 4096)) 1000 [].

(** The payload [{name: "A"}] and the options [{ttl: 1000}]. *)
Definition profile : value := VObj [("name", VStr "A")].

Definition short_lived : CacheOptions :=
  {| opt_ttl := Some (Some (Number.of_Z 1000)); opt_version := None;
     opt_storage := None; opt_forceRefresh := None |}.

(** After [setCacheData("profile_1", {name: "A"}, {ttl: 1000})]. *)
Definition browser_after_set : World :=
  (setCacheData Json.stringify "profile_1" profile short_lived browser).2.

Definition area_after_set : Storage :=
  default (mkStorage ∅ 0) (local_store browser_after_set).

Definition profile_item : CacheItem :=
  item_for profile (config_of short_lived) 1000.

Definition profile_text : string :=
  default "" (Json.stringify profile_item).

(** A browser whose persistent area holds one unreadable text under the
    application prefix. *)
Definition broken_area : Storage :=
  mkStorage {[ "tasa_cache_broken" := "{oops" ]} 4096.

Definition broken_browser : World :=
  mkWorld true (Some broken_area) (Some (mkStorage ∅ 4096)) 1000 [].

(** A browser whose persistent area holds a cache entry under the prefix
    and a key of another part of the application. *)
Definition mixed_area : Storage :=
  mkStorage {[ "tasa_cache_user" := profile_text; "theme" := "dark" ]} 4096.

Definition mixed_browser : World :=
  mkWorld true (Some mixed_area) (Some (mkStorage ∅ 4096)) 1000 [].

End Samples.

(** ** More sample worlds *)

Module MoreSamples.
Import Samples.

(** A server-side render: no [window], though storage objects with
    content are modelled as present. *)
Definition server : World :=
  mkWorld false (Some mixed_area) (Some (mkStorage ∅ 4096)) 1000 [].

(** A browser whose persistent area holds the empty string under a
    prefixed key. *)
Definition blank_area : Storage :=
  mkStorage {[ "tasa_cache_blank" := EmptyString ]} 4096.

Definition blank_browser : World :=
  mkWorld true (Some blank_area) (Some (mkStorage ∅ 4096)) 1000 [].

(** The browser with the mixed area, once the entry under
    [tasa_cache_user] has expired. *)
Definition late_browser : World := at_time 2001 mixed_browser.

(** After [setCacheData("tasa_cache_user", {name: "A"}, {ttl: 1000})] in
    the empty browser. *)
Definition browser_after_user : World :=
  (setCacheData Json.stringify "tasa_cache_user" profile short_lived
     browser).2.

(** The options [{ttl: Infinity}] and [{ttl: undefined}], and the
    payload [1.5]. *)
Definition forever : CacheOptions :=
  {| opt_ttl := Some (Some Number.Infinity); opt_version := None;
     opt_storage := None; opt_forceRefresh := None |}.

Definition ttl_undefined : CacheOptions :=
  {| opt_ttl := Some None; opt_version := None;
     opt_storage := None; opt_forceRefresh := None |}.

Definition one_and_a_half : value := VNum (Number.of_decimal false 15 (-1)).

(** After [setCacheData("length", {name: "A"})] in the empty browser. *)
Definition browser_after_length : World :=
  (setCacheData Json.stringify "length" profile no_options browser).2.

Definition length_area : Storage :=
  default (mkStorage ∅ 0) (local_store browser_after_length).

(** The options [{storage: undefined}]. *)
Definition storage_undefined : CacheOptions :=
  {| opt_ttl := None; opt_version := None;
     opt_storage := Some None; opt_forceRefresh := None |}.

(** A process whose connection attempt was rejected, and one whose
    attempt succeeded with the handle 7. *)
Definition failing : list DbConnect.Event :=
  [DbConnect.Call; DbConnect.Call;
   DbConnect.Settle 0%nat DbConnect.Rejected; DbConnect.Resume 0%nat].

Definition connecting : list DbConnect.Event :=
  [DbConnect.Call; DbConnect.Settle 0%nat (DbConnect.Fulfilled 7%nat);
   DbConnect.Resume 0%nat].

(** The states these runs reach, and the state two more calls reach from
    the connected one. *)
Definition failed : DbConnect.Process :=
  default DbConnect.start (DbConnect.run failing DbConnect.start).

Definition connected : DbConnect.Process :=
  default DbConnect.start (DbConnect.run connecting DbConnect.start).

Definition connected_later : DbConnect.Process :=
  default DbConnect.start
    (DbConnect.run [DbConnect.Call; DbConnect.Call] connected).

End MoreSamples.

(** * Properties *)

(** ** The runtime primitives *)

Lemma store_of_say ty lvl msg w : store_of ty (say lvl msg w) = store_of ty w.
Proof. now destruct ty. Qed.

Lemma store_of_set_store ty st w : store_of ty (set_store ty st w) = Some st.
Proof. now destruct ty. Qed.

Lemma store_of_set_store_ne ty ty' st w :
  ty ≠ ty' → store_of ty' (set_store ty st w) = store_of ty' w.
Proof. now destruct ty, ty'. Qed.

Lemma store_of_at_time ty t w : store_of ty (at_time t w) = store_of ty w.
Proof. now destruct ty. Qed.

Lemma backend_Some ty w st :
  backend ty w = Some st ↔ has_window w = true ∧ store_of ty w = Some st.
Proof. unfold backend. destruct (has_window w); intuition congruence. Qed.

Lemma backend_at_time ty t w : backend ty (at_time t w) = backend ty w.
Proof. unfold backend. simpl. now rewrite store_of_at_time. Qed.

Lemma backend_set_store ty st w :
  has_window w = true → backend ty (set_store ty st w) = Some st.
Proof.
  intros H. unfold backend.
  replace (has_window (set_store ty st w)) with (has_window w) by now destruct ty.
  rewrite H. apply store_of_set_store.
Qed.

(** [getStorage] hands out the area exactly when there is a backend; a
    global that raises costs one console line. *)
Lemma getStorage_selected c w st :
  backend (area c) w = Some st → getStorage c w = (Ret (Some (area c)), w).
Proof.
  intros [Hw Hs]%backend_Some.
  cbv [getStorage bind typeof_window_undefined try_catch global_storage ret].
  rewrite Hw. cbn. now rewrite Hs.
Qed.

Lemma getStorage_unselected c w :
  backend (area c) w = None → getStorage c w = (Ret None, without_backend c w).
Proof.
  cbv [backend getStorage bind typeof_window_undefined try_catch
         global_storage ret without_backend].
  destruct (has_window w); cbn; [|done].
  now intros ->.
Qed.

Lemma area_Some ty : area (Some ty) = ty.
Proof. now destruct ty. Qed.

Lemma getStorage_ready ty w st :
  backend ty w = Some st → getStorage (Some ty) w = (Ret (Some ty), w).
Proof.
  intros Hb. rewrite <- (area_Some ty) in Hb.
  rewrite (getStorage_selected _ _ _ Hb). now rewrite area_Some.
Qed.

Lemma getStorage_unavailable ty w :
  backend ty w = None →
  getStorage (Some ty) w = (Ret None, without_backend (Some ty) w).
Proof.
  intros Hb. rewrite <- (area_Some ty) in Hb.
  apply (getStorage_unselected _ _ Hb).
Qed.

(** ** The facade over an arbitrary codec *)

Ltac eff :=
  cbv [bind ret throw try_catch or_throw lift get_locals set_locals
       with_locals typeof_window_undefined global_storage Date_now
       console_warn console_error console_log getItem setItem removeItem
       Object_keys isExpired].

Section FacadeFacts.

Variable JSON_stringify : CacheItem → option string.
Variable JSON_parse : string → option CacheItem.

Lemma truthy_spec (o : option string) :
  truthy o = true ↔ ∃ blob, o = Some blob ∧ blob ≠ "".
Proof.
  destruct o as [blob|]; simpl.
  - destruct (String.eqb_spec blob ""); simpl; split.
    + discriminate.
    + intros (b & [= <-] & Hb). contradiction.
    + eauto.
    + done.
  - split; [discriminate | intros (b & [=] & _)].
Qed.

Lemma entry_at_Some st key item :
  entry_at JSON_parse st key = Some item ↔
  ∃ blob, items st !! key = Some blob ∧ blob ≠ "" ∧ JSON_parse blob = Some item.
Proof.
  unfold entry_at. destruct (items st !! key) as [blob|]; split.
  - destruct (String.eqb_spec blob ""); [discriminate | eauto].
  - intros (b & [= <-] & Hb & Hp).
    destruct (String.eqb_spec blob ""); [contradiction | done].
  - discriminate.
  - intros (b & [=] & _).
Qed.

Lemma strict_equal_spec (a : value) (b : option string) :
  strict_equal a b = true ↔ a = js_string b.
Proof using Type.
  destruct a, b as [s'|]; simpl; try (split; (done || discriminate)).
  destruct (String.eqb_spec s s') as [->|Hne]; split;
    (done || discriminate || congruence).
Qed.

Lemma isVersionOutdated_false item v :
  isVersionOutdated item v = false ↔ version item = js_string v.
Proof using Type.
  unfold isVersionOutdated. rewrite negb_false_iff. apply strict_equal_spec.
Qed.

Lemma isVersionOutdated_true item v :
  isVersionOutdated item v = true ↔ version item ≠ js_string v.
Proof using Type.
  unfold isVersionOutdated. rewrite negb_true_iff.
  rewrite <- strict_equal_spec. now destruct (strict_equal _ _).
Qed.

(** What [getCacheData] does, path by path, once a backend is there. *)
Lemma getCacheData_run key options w st :
  backend (area (cfg_storage (config_of options))) w = Some st →
  getCacheData JSON_parse key options w =
    match items st !! key with
    | None => (Ret VNull, w)
    | Some blob =>
        if String.eqb blob "" then (Ret VNull, w)
        else
          match JSON_parse blob with
          | None => (Ret VNull, say error "Error getting cache data:" w)
          | Some item =>
              if (past (clock w) (expiresAt item))
                 || isVersionOutdated item (cfg_version (config_of options))
              then
                (Ret VNull,
                 set_store (area (cfg_storage (config_of options)))
                   (mkStorage (delete key (items st)) (quota st)) w)
              else (Ret (data item), w)
          end
    end.
Proof.
  unfold getCacheData. fold (config_of options).
  generalize (config_of options) as cfg. intros cfg Hb.
  pose proof Hb as [Hw Hs]%backend_Some.
  unfold try_catch at 1. unfold bind at 1.
  rewrite (getStorage_selected _ _ _ Hb).
  eff. rewrite Hs.
  destruct (items st !! key) as [blob|]; simpl; [|done].
  destruct (String.eqb blob ""); simpl; [done|].
  destruct (JSON_parse blob) as [item|]; [|done].
  destruct (past (clock w) (expiresAt item)); simpl; [now rewrite Hs|].
  destruct (isVersionOutdated _ _); [now rewrite Hs | done].
Qed.

Lemma getCacheData_unavailable key options w :
  backend (area (cfg_storage (config_of options))) w = None →
  getCacheData JSON_parse key options w =
    (Ret VNull,
     say warn "Storage not available"
       (without_backend (cfg_storage (config_of options)) w)).
Proof.
  unfold getCacheData. fold (config_of options).
  generalize (config_of options) as cfg. intros cfg Hb.
  unfold try_catch at 1. unfold bind at 1.
  now rewrite (getStorage_unselected _ _ Hb).
Qed.

Lemma setCacheData_run key d options w st :
  backend (area (cfg_storage (config_of options))) w = Some st →
  setCacheData JSON_stringify key d options w =
    match JSON_stringify (item_for d (config_of options) (clock w)) with
    | None => (Ret false, say error "Error setting cache data:" w)
    | Some blob =>
        if (used (<[key := blob]> (items st)) <=? quota st)%nat
        then
          (Ret true,
           set_store (area (cfg_storage (config_of options)))
             (mkStorage (<[key := blob]> (items st)) (quota st)) w)
        else (Ret false, say error "Error setting cache data:" w)
    end.
Proof.
  unfold setCacheData, item_for. fold (config_of options).
  generalize (config_of options) as cfg. intros cfg Hb.
  pose proof Hb as [Hw Hs]%backend_Some.
  unfold try_catch at 1. unfold bind at 1.
  rewrite (getStorage_selected _ _ _ Hb).
  eff. destruct (JSON_stringify _) as [blob|]; [|done].
  rewrite Hs. now destruct (_ <=? _)%nat.
Qed.

Lemma setCacheData_unavailable key d options w :
  backend (area (cfg_storage (config_of options))) w = None →
  setCacheData JSON_stringify key d options w =
    (Ret false,
     say warn "Storage not available"
       (without_backend (cfg_storage (config_of options)) w)).
Proof.
  unfold setCacheData. fold (config_of options).
  generalize (config_of options) as cfg. intros cfg Hb.
  unfold try_catch at 1. unfold bind at 1.
  now rewrite (getStorage_unselected _ _ Hb).
Qed.

Lemma hasValidCache_run key options w st :
  backend (area (cfg_storage (config_of options))) w = Some st →
  hasValidCache JSON_parse key options w =
    match items st !! key with
    | None => (Ret false, w)
    | Some blob =>
        if String.eqb blob "" then (Ret false, w)
        else
          match JSON_parse blob with
          | None => (Ret false, say error "Error checking cache validity:" w)
          | Some item =>
              (Ret (negb (past (clock w) (expiresAt item))
                    && negb (isVersionOutdated item
                               (cfg_version (config_of options)))), w)
          end
    end.
Proof.
  unfold hasValidCache. fold (config_of options).
  generalize (config_of options) as cfg. intros cfg Hb.
  pose proof Hb as [Hw Hs]%backend_Some.
  unfold bind at 1.
  rewrite (getStorage_selected _ _ _ Hb).
  eff. rewrite Hs.
  destruct (items st !! key) as [blob|]; simpl; [|done].
  destruct (String.eqb blob ""); simpl; [done|].
  now destruct (JSON_parse blob) as [item|].
Qed.

Lemma hasValidCache_unavailable key options w :
  backend (area (cfg_storage (config_of options))) w = None →
  hasValidCache JSON_parse key options w =
    (Ret false, without_backend (cfg_storage (config_of options)) w).
Proof.
  unfold hasValidCache. fold (config_of options).
  generalize (config_of options) as cfg. intros cfg Hb.
  unfold bind at 1.
  now rewrite (getStorage_unselected _ _ Hb).
Qed.

Lemma removeCacheData_run key ty w st :
  backend ty w = Some st →
  removeCacheData key ty w =
    (Ret true, set_store ty (mkStorage (delete key (items st)) (quota st)) w).
Proof.
  intros Hb. pose proof Hb as [Hw Hs]%backend_Some.
  unfold removeCacheData.
  unfold try_catch at 1. unfold bind at 1.
  rewrite (getStorage_ready _ _ _ Hb).
  eff. now rewrite Hs.
Qed.

Lemma removeCacheData_unavailable key ty w :
  backend ty w = None →
  removeCacheData key ty w = (Ret false, without_backend (Some ty) w).
Proof.
  intros Hb. unfold removeCacheData.
  unfold try_catch at 1. unfold bind at 1.
  now rewrite (getStorage_unavailable _ _ Hb).
Qed.

End FacadeFacts.

(** ** The scans: [clearAllCache], [getCacheStats], [cleanupExpiredCache] *)

Lemma set_store_same ty st w : store_of ty w = Some st → set_store ty st w = w.
Proof. destruct ty, w; simpl; now intros ->. Qed.

Lemma set_store_twice ty st st' w :
  set_store ty st' (set_store ty st w) = set_store ty st' w.
Proof. now destruct ty. Qed.

Lemma add_console_nil w : add_console [] w = w.
Proof. destruct w. unfold add_console. simpl. now rewrite app_nil_r. Qed.

Lemma add_console_add l1 l2 w :
  add_console l2 (add_console l1 w) = add_console (l1 ++ l2) w.
Proof. unfold add_console. simpl. now rewrite app_assoc. Qed.

Lemma store_of_add_console ty lines w :
  store_of ty (add_console lines w) = store_of ty w.
Proof. now destruct ty. Qed.

Lemma remove_all_nil st : remove_all [] st = st.
Proof. now destruct st. Qed.

Lemma remove_all_cons k ks st :
  remove_all (k :: ks) st =
  remove_all ks (mkStorage (delete k (items st)) (quota st)).
Proof. reflexivity. Qed.

Lemma lookup_remove_all ks st j :
  items (remove_all ks st) !! j = if decide (j ∈ ks) then None else items st !! j.
Proof.
  revert st. induction ks as [|k ks IH]; intros st.
  - now rewrite remove_all_nil.
  - rewrite remove_all_cons, IH. simpl.
    destruct (decide (j = k)) as [->|Hne].
    + rewrite lookup_delete_eq. rewrite (decide_True (P := k ∈ k :: ks)).
      * now case_decide.
      * apply elem_of_cons; now left.
    + rewrite lookup_delete_ne by done.
      destruct (decide (j ∈ ks)) as [Hin|Hnin].
      * rewrite decide_True; [done | apply elem_of_cons; now right].
      * rewrite decide_False; [done|].
        intros [?|?]%elem_of_cons; contradiction.
Qed.

Lemma forEach_removeItem ty ks w st :
  store_of ty w = Some st →
  forEach ks (removeItem ty) w = (Ret tt, set_store ty (remove_all ks st) w).
Proof.
  revert w st. induction ks as [|k ks IH]; intros w st Hs; simpl.
  - rewrite remove_all_nil. now rewrite set_store_same.
  - unfold bind, removeItem at 1. rewrite Hs.
    rewrite (IH _ (mkStorage (delete k (items st)) (quota st)))
      by apply store_of_set_store.
    now rewrite set_store_twice, remove_all_cons.
Qed.

(** No key under the prefix has the name of a built-in member. *)
Lemma prefixed_visible k : prefixed k = true → shadowed k = false.
Proof.
  intros Hp. destruct (shadowed k) eqn:Hs; [|done].
  apply existsb_exists in Hs as (name & Hin & Heq).
  apply String.eqb_eq in Heq as <-.
  unfold builtin_names in Hin. simpl in Hin.
  repeat (destruct Hin as [<- | Hin]; [discriminate Hp|]).
  destruct Hin.
Qed.

Lemma elem_of_keys_of st k :
  k ∈ keys_of st ↔ shadowed k = false ∧ is_Some (items st !! k).
Proof.
  unfold keys_of. rewrite list_elem_of_In, filter_In, <- list_elem_of_In.
  rewrite negb_true_iff, list_elem_of_fmap. split.
  - intros [([k' v] & -> & Hin) Hs]. apply elem_of_map_to_list in Hin. eauto.
  - intros [Hs [v Hv]]. split; [|done].
    exists (k, v). split; [done|]. now apply elem_of_map_to_list.
Qed.

Lemma elem_of_cache_keys_of st k :
  k ∈ cache_keys_of st ↔ prefixed k = true ∧ is_Some (items st !! k).
Proof.
  unfold cache_keys_of. rewrite list_elem_of_In, filter_In, <- list_elem_of_In.
  rewrite elem_of_keys_of. split; [tauto|].
  intros [Hp ?]. pose proof (prefixed_visible k Hp). tauto.
Qed.

Lemma clearAllCache_run ty w st :
  backend ty w = Some st →
  clearAllCache ty w =
    (Ret true, set_store ty (remove_all (cache_keys_of st) st) w).
Proof.
  intros Hb. pose proof Hb as [Hw Hs]%backend_Some.
  unfold clearAllCache.
  unfold try_catch at 1. unfold bind at 1.
  rewrite (getStorage_ready _ _ _ Hb).
  unfold bind at 1. unfold Object_keys at 1. rewrite Hs.
  unfold bind at 1.
  now rewrite (forEach_removeItem _ _ _ _ Hs).
Qed.

Lemma clearAllCache_unavailable ty w :
  backend ty w = None → clearAllCache ty w = (Ret false, without_backend (Some ty) w).
Proof.
  intros Hb. unfold clearAllCache.
  unfold try_catch at 1. unfold bind at 1.
  now rewrite (getStorage_unavailable _ _ Hb).
Qed.

Lemma clock_set_store ty st w : clock (set_store ty st w) = clock w.
Proof. now destruct ty. Qed.

Lemma has_window_set_store ty st w :
  has_window (set_store ty st w) = has_window w.
Proof. now destruct ty. Qed.

Lemma backend_set_store_of ty st st' w :
  backend ty w = Some st → backend ty (set_store ty st' w) = Some st'.
Proof. intros [Hw _]%backend_Some. now apply backend_set_store. Qed.

Lemma set_store_add_console ty st lines w :
  set_store ty st (add_console lines w) = add_console lines (set_store ty st w).
Proof. now destruct ty. Qed.

Lemma List_filter_agree {A} (f g : A → bool) (l : list A) :
  (∀ x, x ∈ l → f x = g x) → List.filter f l = List.filter g l.
Proof.
  intros H. apply filter_ext_in. intros x Hx. now apply H, list_elem_of_In.
Qed.

Section ScanFacts.

Variable JSON_parse : string → option CacheItem.

Lemma stats_visit_run ty key e t w st :
  store_of ty w = Some st →
  stats_visit JSON_parse ty key (e, t, w) =
    (Ret tt,
     ((e + expired_share JSON_parse (clock w) (items st !! key))%nat,
      (t + size_share (items st !! key))%nat,
      if unreadable JSON_parse (items st !! key)
      then add_console [parse_error_line key] w else w)).
Proof.
  intros Hs.
  unfold stats_visit, expired_share, size_share, unreadable.
  eff. rewrite Hs.
  destruct (truthy (items st !! key)); simpl.
  - destruct (JSON_parse _) as [item|]; simpl.
    + destruct (past (clock w) (expiresAt item)); simpl;
        repeat f_equal; lia.
    + repeat f_equal; lia.
  - repeat f_equal; lia.
Qed.

Lemma stats_forEach ty ks e t w st :
  store_of ty w = Some st →
  forEach ks (stats_visit JSON_parse ty) (e, t, w) =
    (Ret tt,
     ((e + sum_list_with
             (λ k, expired_share JSON_parse (clock w) (items st !! k)) ks)%nat,
      (t + sum_list_with (λ k, size_share (items st !! k)) ks)%nat,
      add_console (stats_lines JSON_parse st ks) w)).
Proof.
  revert e t w. induction ks as [|k ks IH]; intros e t w Hs; simpl.
  - unfold ret, stats_lines. simpl. rewrite add_console_nil.
    now rewrite !Nat.add_0_r.
  - unfold bind. rewrite (stats_visit_run _ _ _ _ _ _ Hs).
    unfold stats_lines. simpl.
    destruct (unreadable JSON_parse (items st !! k)); simpl.
    + rewrite IH by now rewrite store_of_add_console.
      simpl. rewrite add_console_add. unfold stats_lines.
      now rewrite <- !Nat.add_assoc.
    + rewrite IH by done. unfold stats_lines.
      now rewrite <- !Nat.add_assoc.
Qed.

Lemma getCacheStats_run ty w st :
  backend ty w = Some st →
  getCacheStats JSON_parse ty w =
    (Ret {| totalKeys := length (keys_of st);
            cacheKeys := length (cache_keys_of st);
            expiredKeys :=
              sum_list_with
                (λ k, expired_share JSON_parse (clock w) (items st !! k))
                (cache_keys_of st);
            totalSize :=
              sum_list_with (λ k, size_share (items st !! k))
                (cache_keys_of st) |},
     add_console (stats_lines JSON_parse st (cache_keys_of st)) w).
Proof.
  intros Hb. pose proof Hb as [Hw Hs]%backend_Some.
  unfold getCacheStats.
  unfold try_catch at 1. unfold bind at 1.
  rewrite (getStorage_ready _ _ _ Hb).
  unfold bind at 1. unfold Object_keys at 1. rewrite Hs.
  unfold with_locals, bind at 1.
  fold (keys_of st). fold (cache_keys_of st).
  rewrite (stats_forEach _ _ _ _ _ _ Hs).
  reflexivity.
Qed.

Lemma getCacheStats_unavailable ty w :
  backend ty w = None →
  getCacheStats JSON_parse ty w = (Ret zero_stats, without_backend (Some ty) w).
Proof.
  intros Hb. unfold getCacheStats.
  unfold try_catch at 1. unfold bind at 1.
  now rewrite (getStorage_unavailable _ _ Hb).
Qed.

Lemma cleanup_visit_exact ty key n w st :
  store_of ty w = Some st →
  cleanup_visit JSON_parse ty key (n, w) =
    (Ret tt,
     if stale JSON_parse (clock w) (items st !! key)
     then
       (S n,
        set_store ty (mkStorage (delete key (items st)) (quota st))
          (if unreadable JSON_parse (items st !! key)
           then add_console [cleanup_error_line key] w else w))
     else (n, w)).
Proof.
  intros Hs. unfold cleanup_visit, stale, unreadable. eff. rewrite Hs.
  destruct (truthy (items st !! key)); simpl; [|done].
  destruct (JSON_parse _) as [item|]; simpl.
  - destruct (past (clock w) (expiresAt item)); simpl; [now rewrite Hs | done].
  - now rewrite store_of_say, Hs.
Qed.

Lemma cleanup_forEach_exact ty ks n w st :
  NoDup ks →
  store_of ty w = Some st →
  forEach ks (cleanup_visit JSON_parse ty) (n, w) =
    (Ret tt,
     ((n + length (List.filter
                     (λ k, stale JSON_parse (clock w) (items st !! k)) ks))%nat,
      add_console (cleanup_lines JSON_parse st ks)
        (set_store ty
           (remove_all
              (List.filter
                 (λ k, stale JSON_parse (clock w) (items st !! k)) ks) st)
           w))).
Proof.
  intros Hnd. revert n w st.
  induction Hnd as [|k ks Hk _ IH]; intros n w st Hs.
  - simpl. unfold ret, cleanup_lines. simpl.
    rewrite remove_all_nil, (set_store_same _ _ _ Hs), add_console_nil.
    now rewrite Nat.add_0_r.
  - cbn [forEach]. unfold bind.
    rewrite (cleanup_visit_exact _ _ _ _ _ Hs).
    assert (Hlook : ∀ j, j ∈ ks →
              delete k (items st) !! j = items st !! j).
    { intros j Hj. apply lookup_delete_ne. intros ->. contradiction. }
    unfold cleanup_lines. cbn [List.filter].
    destruct (stale JSON_parse (clock w) (items st !! k)) eqn:Hstale.
    + set (st1 := mkStorage (delete k (items st)) (quota st)).
      set (w0 := if unreadable JSON_parse (items st !! k)
                 then add_console [cleanup_error_line k] w else w).
      assert (Hs0 : store_of ty w0 = Some st).
      { unfold w0. destruct (unreadable _ _);
          [now rewrite store_of_add_console | done]. }
      assert (Hclock : clock (set_store ty st1 w0) = clock w).
      { rewrite clock_set_store. unfold w0. now destruct (unreadable _ _). }
      rewrite (IH _ _ st1) by apply store_of_set_store.
      rewrite Hclock.
      rewrite (List_filter_agree
                 (λ j, stale JSON_parse (clock w) (items st1 !! j))
                 (λ j, stale JSON_parse (clock w) (items st !! j)))
        by (intros j Hj; simpl; now rewrite Hlook).
      unfold cleanup_lines.
      rewrite (List_filter_agree
                 (λ j, unreadable JSON_parse (items st1 !! j))
                 (λ j, unreadable JSON_parse (items st !! j)))
        by (intros j Hj; simpl; now rewrite Hlook).
      rewrite set_store_twice, remove_all_cons. fold st1.
      cbn [length]. rewrite Nat.add_succ_r. simpl.
      f_equal. f_equal. unfold w0.
      destruct (unreadable JSON_parse (items st !! k)); simpl.
      * now rewrite set_store_add_console, add_console_add.
      * reflexivity.
    + assert (unreadable JSON_parse (items st !! k) = false) as ->.
      { unfold stale, unreadable in *.
        destruct (truthy (items st !! k)); [|done]. simpl in *.
        now destruct (JSON_parse _). }
      now rewrite (IH _ _ st Hs).
Qed.

Lemma NoDup_keys_of st : NoDup (keys_of st).
Proof.
  unfold keys_of. apply NoDup_ListNoDup, List.NoDup_filter,
    NoDup_ListNoDup, NoDup_fst_map_to_list.
Qed.

Lemma NoDup_cache_keys_of st : NoDup (cache_keys_of st).
Proof.
  unfold cache_keys_of. apply NoDup_ListNoDup, List.NoDup_filter,
    NoDup_ListNoDup, NoDup_keys_of.
Qed.

(** [cleanupExpiredCache] removes exactly the stale keys under the
    prefix, returns their number, and writes one line for each
    unreadable one. *)
Lemma cleanupExpiredCache_exact ty w st :
  backend ty w = Some st →
  cleanupExpiredCache JSON_parse ty w =
    (Ret (length (List.filter
                    (λ k, stale JSON_parse (clock w) (items st !! k))
                    (cache_keys_of st))),
     add_console (cleanup_lines JSON_parse st (cache_keys_of st))
       (set_store ty
          (remove_all
             (List.filter
                (λ k, stale JSON_parse (clock w) (items st !! k))
                (cache_keys_of st)) st)
          w)).
Proof.
  intros Hb. pose proof Hb as [Hw Hs]%backend_Some.
  unfold cleanupExpiredCache.
  unfold try_catch at 1. unfold bind at 1.
  rewrite (getStorage_ready _ _ _ Hb).
  unfold bind at 1. unfold Object_keys at 1. rewrite Hs.
  unfold with_locals, bind at 1.
  fold (keys_of st).
  change (List.filter _ (keys_of st)) with (cache_keys_of st).
  rewrite (cleanup_forEach_exact _ _ _ _ _ (NoDup_cache_keys_of st) Hs).
  reflexivity.
Qed.

(** In particular the scan leaves alone every key outside the prefix and
    the other storage area. *)
Lemma cleanupExpiredCache_run ty w st :
  backend ty w = Some st →
  ∃ n w' st',
    cleanupExpiredCache JSON_parse ty w = (Ret n, w')
    ∧ backend ty w' = Some st'
    ∧ quota st' = quota st
    ∧ (∀ j, prefixed j = false → items st' !! j = items st !! j)
    ∧ (∀ ty', ty' ≠ ty → store_of ty' w' = store_of ty' w).
Proof.
  intros Hb. rewrite (cleanupExpiredCache_exact _ _ _ Hb).
  eexists _, _, _. split; [reflexivity|].
  split.
  { unfold backend. simpl has_window. rewrite has_window_set_store.
    apply backend_Some in Hb as [-> _].
    rewrite store_of_add_console. apply store_of_set_store. }
  split; [reflexivity|]. split.
  - intros j Hj. rewrite lookup_remove_all. case_decide as Hin; [|done].
    apply list_elem_of_In, filter_In in Hin as [Hin _].
    apply list_elem_of_In, elem_of_cache_keys_of in Hin as [? _]. congruence.
  - intros ty' Hne. rewrite store_of_add_console.
    now apply store_of_set_store_ne.
Qed.

Lemma cleanupExpiredCache_unavailable ty w :
  backend ty w = None →
  cleanupExpiredCache JSON_parse ty w = (Ret 0%nat, without_backend (Some ty) w).
Proof.
  intros Hb. unfold cleanupExpiredCache.
  unfold try_catch at 1. unfold bind at 1.
  now rewrite (getStorage_unavailable _ _ Hb).
Qed.

End ScanFacts.

(** ** What one key contributes to [getCacheStats] *)

Lemma List_filter_Permutation {A} (f : A → bool) (l l' : list A) :
  l ≡ₚ l' → List.filter f l ≡ₚ List.filter f l'.
Proof.
  induction 1 as [|x l l' _ IH|x y l|l l' l'' _ IH1 _ IH2]; simpl.
  - done.
  - destruct (f x); [now constructor | done].
  - destruct (f x), (f y); try done. apply perm_swap.
  - now transitivity (List.filter f l').
Qed.

Lemma sum_list_with_agree {A} (f g : A → nat) (l : list A) :
  (∀ x, x ∈ l → f x = g x) → sum_list_with f l = sum_list_with g l.
Proof.
  induction l as [|x l IH]; intros H; simpl; [done|].
  rewrite H by (apply elem_of_cons; now left).
  rewrite IH; [done|]. intros y Hy. apply H, elem_of_cons. now right.
Qed.

(** The area without one key. *)
Lemma keys_of_delete st k blob :
  items st !! k = Some blob →
  keys_of st ≡ₚ
    (if shadowed k then [] else [k])
    ++ keys_of (mkStorage (delete k (items st)) (quota st)).
Proof.
  intros Hk. unfold keys_of.
  assert ((map_to_list (items st)).*1
          ≡ₚ k :: (map_to_list (delete k (items st))).*1) as Hperm.
  { now rewrite <- (map_to_list_delete (items st) k blob Hk). }
  rewrite (List_filter_Permutation _ _ _ Hperm).
  simpl. now destruct (shadowed k).
Qed.

Lemma cache_keys_of_delete st k blob :
  items st !! k = Some blob →
  cache_keys_of st ≡ₚ
    (if prefixed k then [k] else [])
    ++ cache_keys_of (mkStorage (delete k (items st)) (quota st)).
Proof.
  intros Hk. unfold cache_keys_of.
  rewrite (List_filter_Permutation _ _ _ (keys_of_delete st k blob Hk)).
  rewrite List.filter_app.
  destruct (prefixed k) eqn:Hp.
  - rewrite (prefixed_visible k Hp). simpl. now rewrite Hp.
  - destruct (shadowed k); simpl; [done|]. now rewrite Hp.
Qed.

Section StatsShare.

Variable JSON_parse : string → option CacheItem.

Lemma getCacheStats_share ty w st k blob :
  backend ty w = Some st →
  items st !! k = Some blob →
  ∃ s s0 w' w0',
    getCacheStats JSON_parse ty w = (Ret s, w')
    ∧ getCacheStats JSON_parse ty
        (set_store ty (mkStorage (delete k (items st)) (quota st)) w)
      = (Ret s0, w0')
    ∧ totalKeys s = (listed k + totalKeys s0)%nat
    ∧ cacheKeys s = ((if prefixed k then 1 else 0) + cacheKeys s0)%nat
    ∧ expiredKeys s =
        ((if prefixed k
          then expired_share JSON_parse (clock w) (Some blob) else 0)
         + expiredKeys s0)%nat
    ∧ totalSize s =
        ((if prefixed k then size_share (Some blob) else 0) + totalSize s0)%nat
    ∧ (prefixed k = true → unreadable JSON_parse (Some blob) = true →
       logged error ("Error parsing cache item " +:+ k +:+ ":") w').
Proof.
  intros Hb Hk.
  set (st0 := mkStorage (delete k (items st)) (quota st)).
  assert (Hb0 : backend ty (set_store ty st0 w) = Some st0)
    by now apply (backend_set_store_of _ st).
  eexists _, _, _, _.
  split; [apply (getCacheStats_run _ _ _ _ Hb)|].
  split; [apply (getCacheStats_run _ _ _ _ Hb0)|].
  cbn [totalKeys cacheKeys expiredKeys totalSize].
  rewrite clock_set_store.
  pose proof (cache_keys_of_delete st k blob Hk) as Hperm. fold st0 in Hperm.
  assert (Hother : ∀ j, j ∈ cache_keys_of st0 → items st0 !! j = items st !! j).
  { intros j Hj. simpl. apply lookup_delete_ne. intros ->.
    apply elem_of_cache_keys_of in Hj as [_ [? Hj]]. simpl in Hj.
    now rewrite lookup_delete_eq in Hj. }
  split.
  { rewrite (keys_of_delete st k blob Hk), length_app.
    unfold listed. now destruct (shadowed k). }
  split.
  { rewrite Hperm, length_app. now destruct (prefixed k). }
  split.
  { rewrite Hperm, sum_list_with_app. f_equal.
    - destruct (prefixed k); simpl; [|done]. now rewrite Hk, Nat.add_0_r.
    - apply sum_list_with_agree. intros j Hj. now rewrite Hother. }
  split.
  { rewrite Hperm, sum_list_with_app. f_equal.
    - destruct (prefixed k); simpl; [|done]. now rewrite Hk, Nat.add_0_r.
    - apply sum_list_with_agree. intros j Hj. now rewrite Hother. }
  intros Hp Hu. unfold logged, add_console. simpl.
  apply elem_of_app. right. unfold stats_lines.
  apply list_elem_of_fmap. exists k. split; [reflexivity|].
  apply list_elem_of_In, filter_In. split.
  - apply list_elem_of_In, elem_of_cache_keys_of. rewrite Hk. eauto.
  - now rewrite Hk.
Qed.

End StatsShare.

(** ** Properties of the facade *)

Section FacadeClaims.

Variable JSON_stringify : CacheItem → option string.
Variable JSON_parse : string → option CacheItem.

(** The read of an invalid entry, exactly. *)
Lemma getCacheData_invalid key options w st item :
  backend (area (cfg_storage (config_of options))) w = Some st →
  entry_at JSON_parse st key = Some item →
  past (clock w) (expiresAt item) = true ∨ version item ≠ js_string (cfg_version (config_of options)) →
  getCacheData JSON_parse key options w =
    (Ret VNull,
     set_store (area (cfg_storage (config_of options)))
       (mkStorage (delete key (items st)) (quota st)) w).
Proof.
  intros Hb (blob & Hk & Hne & Hp)%entry_at_Some Hinvalid.
  rewrite (getCacheData_run _ _ _ _ _ Hb), Hk.
  destruct (String.eqb_spec blob ""); [contradiction|]. rewrite Hp.
  assert ((past (clock w) (expiresAt item))
          || isVersionOutdated item (cfg_version (config_of options)) = true)
    as ->; [|reflexivity].
  apply orb_true_iff. destruct Hinvalid as [Hexp | Hver].
  - now left.
  - right. now apply isVersionOutdated_true.
Qed.

(** C2.  Invalid-entry eviction: whenever the entry stored under [key] is
    expired (the clock reads more than its [expiresAt]) or carries a
    version other than the caller's configured one, [getCacheData]
    returns [null] and the read removes [key] from the selected storage
    area, leaving the rest of the area and of the world as it was. *)
Theorem getCacheData_evicts_invalid key options w st item :
  backend (area (cfg_storage (config_of options))) w = Some st →
  entry_at JSON_parse st key = Some item →
  past (clock w) (expiresAt item) = true ∨ version item ≠ js_string (cfg_version (config_of options)) →
  ∃ w' st',
    getCacheData JSON_parse key options w = (Ret VNull, w')
    ∧ backend (area (cfg_storage (config_of options))) w' = Some st'
    ∧ items st' !! key = None
    ∧ items st' = delete key (items st)
    ∧ w' = set_store (area (cfg_storage (config_of options)))
             (mkStorage (delete key (items st)) (quota st)) w.
Proof.
  intros Hb Hentry Hinvalid.
  eexists _, _. split; [now apply (getCacheData_invalid _ _ _ st item)|].
  split; [now apply (backend_set_store_of _ st)|].
  simpl. split; [apply lookup_delete_eq | done].
Qed.

(** C8.  [hasValidCache] is a pure observer: it never raises, it answers
    [true] exactly when the selected area holds an entry for the key that
    is not expired and carries the caller's configured version, and it
    leaves both storage areas as they were, whatever the stored text
    (expired, of another version, or unreadable). *)
Theorem hasValidCache_observer key options w :
  ∃ b w',
    hasValidCache JSON_parse key options w = (Ret b, w')
    ∧ local_store w' = local_store w
    ∧ session_store w' = session_store w
    ∧ (b = true ↔
       ∃ st item,
         backend (area (cfg_storage (config_of options))) w = Some st
         ∧ entry_at JSON_parse st key = Some item
         ∧ past (clock w) (expiresAt item) = false
         ∧ version item = js_string (cfg_version (config_of options))).
Proof.
  destruct (backend (area (cfg_storage (config_of options))) w) as [st|] eqn:Hb.
  - rewrite (hasValidCache_run _ _ _ _ _ Hb).
    unfold entry_at.
    destruct (items st !! key) as [blob|] eqn:Hk.
    + destruct (String.eqb blob "") eqn:He.
      * exists false, w. repeat split; try done.
        intros (st' & item & [= <-] & Hent & _). unfold entry_at in Hent.
        now rewrite Hk, He in Hent.
      * destruct (JSON_parse blob) as [item|] eqn:Hp.
        -- eexists _, w. split; [reflexivity|]. repeat split.
           ++ intros [Hexp Hver]%andb_true_iff.
              exists st, item. rewrite Hk, He. repeat split; try done.
              ** now apply negb_true_iff in Hexp.
              ** apply negb_true_iff in Hver.
                 now apply isVersionOutdated_false.
           ++ intros (st' & item' & [= <-] & Hent & Hexp & Hver).
              rewrite Hk, He, Hp in Hent. injection Hent as <-.
              apply andb_true_iff. split; apply negb_true_iff.
              ** exact Hexp.
              ** now apply isVersionOutdated_false.
        -- eexists false, _. split; [reflexivity|]. repeat split; try done.
           intros (st' & item & [= <-] & Hent & _).
           rewrite Hk, He in Hent. congruence.
    + exists false, w. repeat split; try done.
      intros (st' & item & [= <-] & Hent & _). now rewrite Hk in Hent.
  - rewrite (hasValidCache_unavailable _ _ _ _ Hb).
    eexists false, _. split; [reflexivity|].
    unfold without_backend.
    repeat split; try (now destruct (has_window w)).
    intros (st & item & [=] & _).
Qed.

(** C9.  [forceRefresh] is inert: whatever the option is (true, false or
    absent), [setCacheData], [getCacheData] and [hasValidCache] return the
    same result and leave the same world; the option reaches the merged
    configuration and is read by no operation. *)
Theorem forceRefresh_inert key d options f f' w :
  setCacheData JSON_stringify key d (with_forceRefresh options f) w
  = setCacheData JSON_stringify key d (with_forceRefresh options f') w
  ∧ getCacheData JSON_parse key (with_forceRefresh options f) w
    = getCacheData JSON_parse key (with_forceRefresh options f') w
  ∧ hasValidCache JSON_parse key (with_forceRefresh options f) w
    = hasValidCache JSON_parse key (with_forceRefresh options f') w
  ∧ cfg_forceRefresh (config_of (with_forceRefresh options f))
    = default (Some false) f.
Proof. repeat split. Qed.

(** C3 (amended).  Corrupt-entry accounting of [getCacheStats]: for a
    key under the application prefix whose non-empty text fails to parse,
    the scan does not abort (the operation returns its statistics), the
    failure is logged under the key's name, the key adds nothing to
    [expiredKeys], and it adds the length of its text to [totalSize]
    (the length is added before the text is parsed).  A key's share is
    measured against the same area without the key. *)
Theorem getCacheStats_corrupt_share ty w st key blob :
  backend ty w = Some st →
  prefixed key = true →
  items st !! key = Some blob →
  blob ≠ "" →
  JSON_parse blob = None →
  ∃ s s0 w' w0',
    getCacheStats JSON_parse ty w = (Ret s, w')
    ∧ getCacheStats JSON_parse ty
        (set_store ty (mkStorage (delete key (items st)) (quota st)) w)
      = (Ret s0, w0')
    ∧ logged error ("Error parsing cache item " +:+ key +:+ ":") w'
    ∧ expiredKeys s = expiredKeys s0
    ∧ totalSize s = (String.length blob + totalSize s0)%nat.
Proof.
  intros Hb Hp Hk Hne Hparse.
  destruct (getCacheStats_share JSON_parse ty w st key blob Hb Hk)
    as (s & s0 & w' & w0' & Hs & Hs0 & _ & _ & Hexp & Hsize & Hlog).
  exists s, s0, w', w0'.
  assert (Htruthy : truthy (Some blob) = true).
  { apply truthy_spec. eauto. }
  rewrite Hp in *. unfold expired_share, size_share, unreadable in *.
  rewrite Htruthy in *. simpl in *. rewrite Hparse in *.
  repeat split; auto.
Qed.

(** C4 (amended).  Totality of the facade: none of the seven operations
    raises outward, whatever the world and the codec do; without a
    backend each returns its safe default ([false], [null], [0], the
    zeroed statistics); an error while serialising or writing (in
    [setCacheData]) or while reading the stored text (in [getCacheData],
    [hasValidCache]) is turned into the safe default as well.  A text
    that fails to parse inside a scan does not end the scan:
    [getCacheStats] still reports the keys of the area, and
    [cleanupExpiredCache] removes the key and counts it. *)
Theorem facade_total key d options ty w :
  ((∃ b w', setCacheData JSON_stringify key d options w = (Ret b, w'))
   ∧ (∃ v w', getCacheData JSON_parse key options w = (Ret v, w'))
   ∧ (∃ b w', removeCacheData key ty w = (Ret b, w'))
   ∧ (∃ b w', clearAllCache ty w = (Ret b, w'))
   ∧ (∃ s w', getCacheStats JSON_parse ty w = (Ret s, w'))
   ∧ (∃ n w', cleanupExpiredCache JSON_parse ty w = (Ret n, w'))
   ∧ (∃ b w', hasValidCache JSON_parse key options w = (Ret b, w')))
  ∧ (backend (area (cfg_storage (config_of options))) w = None →
     (setCacheData JSON_stringify key d options w).1 = Ret false
     ∧ (getCacheData JSON_parse key options w).1 = Ret VNull
     ∧ (hasValidCache JSON_parse key options w).1 = Ret false)
  ∧ (backend ty w = None →
     (removeCacheData key ty w).1 = Ret false
     ∧ (clearAllCache ty w).1 = Ret false
     ∧ (getCacheStats JSON_parse ty w).1 = Ret zero_stats
     ∧ (cleanupExpiredCache JSON_parse ty w).1 = Ret 0%nat)
  ∧ (JSON_stringify (item_for d (config_of options) (clock w)) = None →
     (setCacheData JSON_stringify key d options w).1 = Ret false)
  ∧ (∀ st blob,
       backend (area (cfg_storage (config_of options))) w = Some st →
       JSON_stringify (item_for d (config_of options) (clock w)) = Some blob →
       (quota st < used (<[key := blob]> (items st)))%nat →
       (setCacheData JSON_stringify key d options w).1 = Ret false)
  ∧ (∀ st blob,
       backend (area (cfg_storage (config_of options))) w = Some st →
       items st !! key = Some blob →
       JSON_parse blob = None →
       (getCacheData JSON_parse key options w).1 = Ret VNull
       ∧ (hasValidCache JSON_parse key options w).1 = Ret false)
  ∧ (∀ st blob,
       backend ty w = Some st →
       prefixed key = true →
       items st !! key = Some blob →
       blob ≠ "" →
       JSON_parse blob = None →
       (∃ s w',
          getCacheStats JSON_parse ty w = (Ret s, w')
          ∧ totalKeys s = length (keys_of st)
          ∧ (1 ≤ cacheKeys s)%nat)
       ∧ (∃ n w' st',
            cleanupExpiredCache JSON_parse ty w = (Ret (S n), w')
            ∧ backend ty w' = Some st'
            ∧ items st' !! key = None)).
Proof.
  split; [|split; [|split; [|split; [|split; [|split]]]]].
  - split.
    { destruct (backend (area (cfg_storage (config_of options))) w) as [st|] eqn:Hb.
      - rewrite (setCacheData_run _ _ _ _ _ _ Hb).
        destruct (JSON_stringify _); [destruct (_ <=? _)%nat|]; eauto.
      - rewrite (setCacheData_unavailable _ _ _ _ _ Hb). eauto. }
    split.
    { destruct (backend (area (cfg_storage (config_of options))) w) as [st|] eqn:Hb.
      - rewrite (getCacheData_run _ _ _ _ _ Hb).
        destruct (items st !! key) as [blob|]; [|eauto].
        destruct (String.eqb blob ""); [eauto|].
        destruct (JSON_parse blob); [destruct (_ || _)|]; eauto.
      - rewrite (getCacheData_unavailable _ _ _ _ Hb). eauto. }
    split.
    { destruct (backend ty w) as [st|] eqn:Hb.
      - rewrite (removeCacheData_run _ _ _ _ Hb). eauto.
      - rewrite (removeCacheData_unavailable _ _ _ Hb). eauto. }
    split.
    { destruct (backend ty w) as [st|] eqn:Hb.
      - rewrite (clearAllCache_run _ _ _ Hb). eauto.
      - rewrite (clearAllCache_unavailable _ _ Hb). eauto. }
    split.
    { destruct (backend ty w) as [st|] eqn:Hb.
      - rewrite (getCacheStats_run _ _ _ _ Hb). eauto.
      - rewrite (getCacheStats_unavailable _ _ _ Hb). eauto. }
    split.
    { destruct (backend ty w) as [st|] eqn:Hb.
      - destruct (cleanupExpiredCache_run JSON_parse _ _ _ Hb)
          as (n & w' & _ & -> & _). eauto.
      - rewrite (cleanupExpiredCache_unavailable _ _ _ Hb). eauto. }
    destruct (backend (area (cfg_storage (config_of options))) w) as [st|] eqn:Hb.
    + rewrite (hasValidCache_run _ _ _ _ _ Hb).
      destruct (items st !! key) as [blob|]; [|eauto].
      destruct (String.eqb blob ""); [eauto|].
      destruct (JSON_parse blob); eauto.
    + rewrite (hasValidCache_unavailable _ _ _ _ Hb). eauto.
  - intros Hb.
    now rewrite (setCacheData_unavailable _ _ _ _ _ Hb),
      (getCacheData_unavailable _ _ _ _ Hb),
      (hasValidCache_unavailable _ _ _ _ Hb).
  - intros Hb.
    now rewrite (removeCacheData_unavailable _ _ _ Hb),
      (clearAllCache_unavailable _ _ Hb),
      (getCacheStats_unavailable _ _ _ Hb),
      (cleanupExpiredCache_unavailable _ _ _ Hb).
  - intros Hser.
    destruct (backend (area (cfg_storage (config_of options))) w) as [st|] eqn:Hb.
    + now rewrite (setCacheData_run _ _ _ _ _ _ Hb), Hser.
    + now rewrite (setCacheData_unavailable _ _ _ _ _ Hb).
  - intros st blob Hb Hser Hfull.
    rewrite (setCacheData_run _ _ _ _ _ _ Hb), Hser.
    destruct (Nat.leb_spec (used (<[key := blob]> (items st))) (quota st));
      [lia | done].
  - intros st blob Hb Hk Hparse.
    rewrite (getCacheData_run _ _ _ _ _ Hb),
      (hasValidCache_run _ _ _ _ _ Hb), Hk.
    destruct (String.eqb blob ""); [done|]. now rewrite Hparse.
  - intros st blob Hb Hp Hk Hne Hparse.
    assert (Hin : key ∈ cache_keys_of st).
    { apply elem_of_cache_keys_of. rewrite Hk. eauto. }
    assert (Hstale : stale JSON_parse (clock w) (items st !! key) = true).
    { unfold stale. rewrite Hk. simpl.
      destruct (String.eqb_spec blob ""); [contradiction|]. simpl.
      now rewrite Hparse. }
    assert (Hfil : key ∈ List.filter
                     (λ k, stale JSON_parse (clock w) (items st !! k))
                     (cache_keys_of st)).
    { apply list_elem_of_In, filter_In. split; [|done].
      now apply list_elem_of_In. }
    split.
    + rewrite (getCacheStats_run _ _ _ _ Hb).
      eexists _, _. split; [reflexivity|]. simpl. split; [done|].
      destruct (cache_keys_of st); [now apply elem_of_nil in Hin|].
      simpl. lia.
    + rewrite (cleanupExpiredCache_exact _ _ _ _ Hb).
      destruct (List.filter _ (cache_keys_of st)) as [|k ks] eqn:Hks;
        [now apply elem_of_nil in Hfil|].
      eexists (length ks), _, _. split; [reflexivity|].
      split.
      { unfold backend. simpl has_window. rewrite has_window_set_store.
        apply backend_Some in Hb as [-> _].
        rewrite store_of_add_console. apply store_of_set_store. }
      rewrite lookup_remove_all. now rewrite decide_True.
Qed.

(** The area [clearAllCache] leaves. *)
Lemma lookup_cleared st k :
  items (remove_all (cache_keys_of st) st) !! k
  = if prefixed k then None else items st !! k.
Proof.
  rewrite lookup_remove_all. destruct (prefixed k) eqn:Hp.
  - case_decide as Hin; [done|].
    destruct (items st !! k) eqn:Hk; [|done].
    exfalso. apply Hin, elem_of_cache_keys_of. rewrite Hk. eauto.
  - case_decide as Hin; [|done].
    apply elem_of_cache_keys_of in Hin as [? _]. congruence.
Qed.

(** C7.  Frame of [clearAllCache]: it never raises; it returns [false]
    exactly when there is no backend; with a backend, afterwards every
    key under the prefix [tasa_cache_] is absent and every other key of
    the area holds the text it held before; the other storage area is
    untouched; and [getCacheStats] then reports [cacheKeys = 0]. *)
Theorem clearAllCache_frame ty w :
  ∃ b w',
    clearAllCache ty w = (Ret b, w')
    ∧ (b = false ↔ backend ty w = None)
    ∧ (∀ st, backend ty w = Some st →
       ∃ st', backend ty w' = Some st'
         ∧ ∀ k, items st' !! k = if prefixed k then None else items st !! k)
    ∧ (∀ ty', ty' ≠ ty → store_of ty' w' = store_of ty' w)
    ∧ ∃ s w'', getCacheStats JSON_parse ty w' = (Ret s, w'')
               ∧ cacheKeys s = 0%nat.
Proof.
  destruct (backend ty w) as [st|] eqn:Hb.
  - rewrite (clearAllCache_run _ _ _ Hb).
    set (st' := remove_all (cache_keys_of st) st).
    assert (Hb' : backend ty (set_store ty st' w) = Some st')
      by now apply (backend_set_store_of _ st).
    assert (Hlook : ∀ k, items st' !! k
                         = if prefixed k then None else items st !! k)
      by apply lookup_cleared.
    eexists true, _. split; [reflexivity|].
    split; [split; discriminate|].
    split. { intros st1 [= <-]. eauto. }
    split. { intros ty' Hne. now apply store_of_set_store_ne. }
    rewrite (getCacheStats_run _ _ _ _ Hb').
    eexists _, _. split; [reflexivity|]. simpl.
    destruct (cache_keys_of st') as [|k ks] eqn:Hks; [done|].
    exfalso.
    assert (Hin : k ∈ cache_keys_of st')
      by (rewrite Hks; apply elem_of_cons; now left).
    apply elem_of_cache_keys_of in Hin as [Hp [v Hv]].
    rewrite Hlook, Hp in Hv. discriminate.
  - rewrite (clearAllCache_unavailable _ _ Hb).
    assert (Hb' : backend ty (without_backend (Some ty) w) = None).
    { unfold backend, without_backend in *.
      destruct (has_window w) eqn:Hw; simpl; rewrite Hw; [|done].
      now rewrite store_of_say. }
    eexists false, _. split; [reflexivity|].
    split; [done|]. split; [discriminate|].
    split.
    { intros ty' _. unfold without_backend.
      destruct (has_window w); [apply store_of_say | done]. }
    rewrite (getCacheStats_unavailable _ _ _ Hb'). eauto.
Qed.

Lemma setCacheData_true_inv key d options w w1 :
  setCacheData JSON_stringify key d options w = (Ret true, w1) →
  ∃ st blob,
    backend (area (cfg_storage (config_of options))) w = Some st
    ∧ JSON_stringify (item_for d (config_of options) (clock w)) = Some blob
    ∧ w1 = set_store (area (cfg_storage (config_of options)))
             (mkStorage (<[key := blob]> (items st)) (quota st)) w.
Proof.
  destruct (backend (area (cfg_storage (config_of options))) w) as [st|] eqn:Hb.
  - rewrite (setCacheData_run _ _ _ _ _ _ Hb).
    destruct (JSON_stringify _) as [blob|]; [|discriminate].
    destruct (_ <=? _)%nat; [|discriminate].
    intros [= <-]. eauto.
  - now rewrite (setCacheData_unavailable _ _ _ _ _ Hb).
Qed.

(** C10 (amended).  [setCacheData] writes under exactly the key it is
    given and prepends nothing: the area after a successful write is the
    area before with that one key bound to the serialised item.  Hence,
    for a key that does not start with [tasa_cache_]: wherever such a
    key is stored, [clearAllCache] and [cleanupExpiredCache] leave its
    text in place, and [getCacheStats] counts it in none of [cacheKeys],
    [expiredKeys], [totalSize] (each equals its value on the area
    without the key); it counts it in [totalKeys] exactly when
    [Object.keys] lists the key, that is unless the key has the name of
    a member of [Storage.prototype] or [Object.prototype]. *)
Theorem unprefixed_key_outside_scans key d options :
  prefixed key = false →
  (∀ w w1,
     setCacheData JSON_stringify key d options w = (Ret true, w1) →
     ∃ st st1 blob,
       backend (area (cfg_storage (config_of options))) w = Some st
       ∧ backend (area (cfg_storage (config_of options))) w1 = Some st1
       ∧ JSON_stringify (item_for d (config_of options) (clock w)) = Some blob
       ∧ items st1 = <[key := blob]> (items st)
       ∧ items st1 !! key = Some blob
       ∧ items st1 !! ("tasa_cache_" +:+ key)
         = items st !! ("tasa_cache_" +:+ key))
  ∧ (∀ ty w1 st1 blob,
       backend ty w1 = Some st1 →
       items st1 !! key = Some blob →
       (∃ w2 st2,
          clearAllCache ty w1 = (Ret true, w2)
          ∧ backend ty w2 = Some st2
          ∧ items st2 !! key = Some blob)
       ∧ (∃ n w2 st2,
            cleanupExpiredCache JSON_parse ty w1 = (Ret n, w2)
            ∧ backend ty w2 = Some st2
            ∧ items st2 !! key = Some blob)
       ∧ (∃ s s0 w2 w3,
            getCacheStats JSON_parse ty w1 = (Ret s, w2)
            ∧ getCacheStats JSON_parse ty
                (set_store ty (mkStorage (delete key (items st1)) (quota st1)) w1)
              = (Ret s0, w3)
            ∧ totalKeys s = ((if shadowed key then 0 else 1) + totalKeys s0)%nat
            ∧ cacheKeys s = cacheKeys s0
            ∧ expiredKeys s = expiredKeys s0
            ∧ totalSize s = totalSize s0)).
Proof.
  intros Hp. split.
  - intros w w1 (st & blob & Hb & Hser & ->)%setCacheData_true_inv.
    eexists st, _, blob. split; [exact Hb|].
    split; [now apply (backend_set_store_of _ st)|].
    split; [exact Hser|]. simpl.
    split; [reflexivity|]. split; [apply lookup_insert_eq|].
    apply lookup_insert_ne. intros Heq.
    assert (prefixed ("tasa_cache_" +:+ key) = true) as Hpre
      by (cbn; now destruct key).
    rewrite <- Heq in Hpre. congruence.
  - intros ty w1 st1 blob Hb Hk. split; [|split].
    + rewrite (clearAllCache_run _ _ _ Hb).
      eexists _, _. split; [reflexivity|].
      split; [now apply (backend_set_store_of _ st1)|].
      now rewrite lookup_cleared, Hp.
    + destruct (cleanupExpiredCache_run JSON_parse ty w1 st1 Hb)
        as (n & w2 & st2 & Hrun & Hb2 & _ & Hkeep & _).
      exists n, w2, st2. split; [done|]. split; [done|].
      now rewrite Hkeep.
    + destruct (getCacheStats_share JSON_parse ty w1 st1 key blob Hb Hk)
        as (s & s0 & w2 & w3 & Hs & Hs0 & Htot & Hck & Hexp & Hsize & _).
      exists s, s0, w2, w3. rewrite Hp in *. unfold listed in Htot.
      simpl in *. auto 10.
Qed.

End FacadeClaims.

(** ** The Auth Gate *)

Lemma prefix_append (p s : string) :
  String.prefix p s = true ↔ ∃ r, s = p +:+ r.
Proof.
  revert s. induction p as [|a p IH]; intros s.
  - split; [intros _; now exists s | intros _; now destruct s].
  - destruct s as [|b s]; simpl.
    + split; [discriminate | intros [r [=]]].
    + destruct (ascii_dec a b) as [<-|Hne].
      * rewrite IH. split; intros [r Hr]; exists r.
        -- now rewrite Hr.
        -- now injection Hr.
      * split; [discriminate | intros [r Hr]; injection Hr; congruence].
Qed.

Section AuthGateClaims.
Import AuthGate.

(** C5.  The Auth Gate decision: a path under [/auth/] is authorised
    whatever the token; a path under [/dashboard] or [/profile] is
    authorised exactly when a token is present; every other path is
    authorised (default-allow).  In particular [/dashboard/settings]
    without a token is denied, and [/auth/login] and [/public/info]
    without a token are allowed. *)
Theorem authorized_decision (token : option JWT) (pathname : string) :
  (startsWith pathname "/auth/" = true → authorized token pathname = true)
  ∧ (startsWith pathname "/dashboard" = true
     ∨ startsWith pathname "/profile" = true →
     (authorized token pathname = true ↔ token ≠ None))
  ∧ (startsWith pathname "/auth/" = false →
     startsWith pathname "/dashboard" = false →
     startsWith pathname "/profile" = false →
     authorized token pathname = true)
  ∧ authorized None "/dashboard/settings" = false
  ∧ authorized None "/auth/login" = true
  ∧ authorized None "/public/info" = true.
Proof.
  unfold authorized.
  assert (Hprotected :
            startsWith pathname "/dashboard" = true
            ∨ startsWith pathname "/profile" = true →
            startsWith pathname "/auth/" = false
            ∧ startsWith pathname "/dashboard"
              || startsWith pathname "/profile" = true).
  { intros Hp. split; [|now apply orb_true_iff].
    destruct Hp as [[r ->]%prefix_append | [r ->]%prefix_append];
      reflexivity. }
  split; [now intros ->|]. split.
  { intros Hp. destruct (Hprotected Hp) as [-> ->].
    destruct token; simpl; split; (done || discriminate). }
  split; [now intros -> -> ->|].
  repeat split.
Qed.

End AuthGateClaims.

(** ** The memoised connection *)

Section DbConnectClaims.
Import DbConnect.

Lemma Inv_start : Inv start.
Proof.
  split; simpl; try done.
  - lia.
  - intros p Hp. inversion Hp.
  - intros c Hc. inversion Hc.
Qed.

Lemma elem_of_snoc {A} (l : list A) (x y : A) :
  y ∈ l ++ [x] → y ∈ l ∨ y = x.
Proof.
  intros [H | H]%elem_of_app; [now left | right].
  now apply list_elem_of_singleton in H.
Qed.

Lemma elem_of_list_delete {A} (l : list A) (i : nat) (x : A) :
  x ∈ delete i l → x ∈ l.
Proof.
  intros [j Hj]%list_elem_of_lookup.
  destruct (decide (j < i)%nat).
  - rewrite list_lookup_delete_lt in Hj by done.
    eapply list_elem_of_lookup_2, Hj.
  - rewrite list_lookup_delete_ge in Hj by lia.
    eapply list_elem_of_lookup_2, Hj.
Qed.

Lemma single_attempt (l : list PromiseState) (p : nat) (s : PromiseState) :
  (length l ≤ 1)%nat → l !! p = Some s → l = [s] ∧ p = 0%nat.
Proof.
  destruct l as [|a [|b l]]; simpl; intros Hlen Hp; try lia.
  - discriminate.
  - destruct p; simpl in Hp; [now injection Hp as -> | discriminate].
Qed.

Lemma Inv_enter P P' r :
  Inv P → exited P = false → dbConnect_enter P = (r, P') →
  Inv P'
  ∧ match r with
    | Done c => attempts P' = [Fulfilled c]
    | Await p => p = 0%nat
    end.
Proof.
  intros HI Hex. unfold dbConnect_enter.
  destruct (connection (cached P)) as [c|] eqn:Hc.
  - intros [= <- <-]. split; [exact HI | now apply (inv_connection P HI)].
  - destruct (promise (cached P)) as [p|] eqn:Hp.
    + intros [= <- <-].
      split; [exact HI | now destruct (inv_promise P HI p Hp)].
    + simpl. intros [= <- <-].
      pose proof (inv_fresh P HI Hex Hp) as Hnil.
      split; [|now rewrite Hnil]. split; simpl.
      * rewrite Hnil. simpl. lia.
      * discriminate.
      * intros p [= <-]. now rewrite Hnil.
      * rewrite Hc. discriminate.
      * apply (inv_waiting P HI).
      * intros c Hin. apply (inv_returned P HI) in Hin. congruence.
Qed.

Lemma Inv_step e P P' : Inv P → step e P = Some P' → Inv P'.
Proof.
  intros HI. unfold step.
  destruct (exited P) eqn:Hex; [discriminate|].
  destruct e as [|p s|i].
  - (* a call enters *)
    destruct (dbConnect_enter P) as [r P1] eqn:Henter.
    destruct (Inv_enter P P1 r HI Hex Henter)
      as [[Hatt Hfresh Hprom Hconn Hwait Hret] Hr].
    destruct r as [c | p]; intros [= <-]; split; simpl; auto.
    + intros c' [Hin | ->]%elem_of_snoc; auto.
    + intros q [Hin | ->]%elem_of_snoc; auto.
  - (* the driver settles a promise *)
    destruct HI as [Hatt Hfresh Hprom Hconn Hwait Hret].
    destruct (attempts P !! p) as [[| |]|] eqn:Hp;
      try (destruct s; discriminate).
    destruct (single_attempt _ _ _ Hatt Hp) as [Hall ->].
    assert (s ≠ Pending →
            Inv (mkProcess (cached P) (<[0%nat := s]> (attempts P))
                           (waiting P) (returned P) false)) as Hgoal.
    { intros Hs. rewrite Hall. split; simpl.
      - lia.
      - intros _ Hnone. specialize (Hfresh Hex Hnone). congruence.
      - intros q Hq. now destruct (Hprom q Hq).
      - intros c Hc. apply Hconn in Hc. congruence.
      - exact Hwait.
      - intros c Hc. apply Hret in Hc. congruence. }
    destruct s; intros [= <-]; now apply Hgoal.
  - (* a suspended call goes on *)
    destruct HI as [Hatt Hfresh Hprom Hconn Hwait Hret].
    destruct (waiting P !! i) as [p|] eqn:Hi; [|discriminate].
    assert (p = 0%nat) as ->.
    { apply Hwait. eapply list_elem_of_lookup_2, Hi. }
    destruct (attempts P !! _) as [s|] eqn:Hs; [|discriminate].
    destruct (single_attempt _ _ _ Hatt Hs) as [Hall _].
    destruct s as [|c|]; simpl; [discriminate| |].
    + intros [= <-]. split; simpl.
      * exact Hatt.
      * exact Hfresh.
      * exact Hprom.
      * now intros c' [= <-].
      * intros q Hq%elem_of_list_delete. now apply Hwait.
      * intros c' [Hin | ->]%elem_of_snoc; auto.
    + intros [= <-]. split; simpl.
      * exact Hatt.
      * discriminate.
      * discriminate.
      * discriminate.
      * intros q Hq%elem_of_list_delete. now apply Hwait.
      * intros c. rewrite app_nil_r. apply Hret.
Qed.

Lemma Inv_run es P P' : Inv P → run es P = Some P' → Inv P'.
Proof.
  revert P. induction es as [|e es IH]; intros P HI; simpl.
  - now intros [= <-].
  - destruct (step e P) as [P1|] eqn:Hstep; [|discriminate].
    apply IH. now apply (Inv_step e P).
Qed.

(** C6.  Connection memoisation.  A call that finds a cached handle
    returns it and changes nothing, so it initiates no attempt; a
    successful resumption caches the handle it returns; a call that
    finds a pending promise and no handle is suspended on that same
    promise and initiates no attempt; two calls entering one after the
    other from the empty state are suspended on the same promise with
    exactly one attempt initiated; and in every state the process can
    reach, by any interleaving of calls, settlements and resumptions, at
    most one attempt has been initiated and every handle returned is the
    one that attempt resolved to. *)
Theorem dbConnect_memoized :
  (∀ P c, connection (cached P) = Some c → dbConnect_enter P = (Done c, P))
  ∧ (∀ P c, ∃ P',
       dbConnect_resume (Fulfilled c) P = Some (Some c, P')
       ∧ connection (cached P') = Some c
       ∧ attempts P' = attempts P)
  ∧ (∀ P p,
       connection (cached P) = None → promise (cached P) = Some p →
       dbConnect_enter P = (Await p, P))
  ∧ (∃ p P1,
       dbConnect_enter start = (Await p, P1)
       ∧ dbConnect_enter P1 = (Await p, P1)
       ∧ length (attempts P1) = 1%nat)
  ∧ (∀ es P,
       run es start = Some P →
       (length (attempts P) ≤ 1)%nat
       ∧ (∀ p, p ∈ waiting P → p = 0%nat)
       ∧ (∀ c, c ∈ returned P → attempts P = [Fulfilled c])).
Proof.
  split; [|split; [|split; [|split]]].
  - intros P c Hc. unfold dbConnect_enter. now rewrite Hc.
  - intros P c. eexists. simpl. eauto.
  - intros P p Hc Hp. unfold dbConnect_enter. now rewrite Hc, Hp.
  - eexists _, _. repeat split.
  - intros es P Hrun.
    destruct (Inv_run es start P Inv_start Hrun). auto.
Qed.

End DbConnectClaims.

(** ** The codec gives back what it wrote *)

Module JsonFacts.
Import Json.

Section value_induction.
Variable P : value → Prop.
Hypothesis Hundef : P VUndefined.
Hypothesis Hnull : P VNull.
Hypothesis Hbool : ∀ b, P (VBool b).
Hypothesis Hnum : ∀ x, P (VNum x).
Hypothesis Hbig : ∀ n, P (VBigInt n).
Hypothesis Hstr : ∀ s, P (VStr s).
Hypothesis Harr : ∀ elems, Forall P elems → P (VArr elems).
Hypothesis Hobj : ∀ props, Forall (λ kv, P kv.2) props → P (VObj props).

Fixpoint value_ind' (v : value) : P v :=
  match v with
  | VUndefined => Hundef
  | VNull => Hnull
  | VBool b => Hbool b
  | VNum x => Hnum x
  | VBigInt n => Hbig n
  | VStr s => Hstr s
  | VArr elems =>
      Harr elems
        ((fix go (l : list value) : Forall P l :=
            match l with
            | [] => @List.Forall_nil _ P
            | x :: l' => @List.Forall_cons _ _ x l' (value_ind' x) (go l')
            end) elems)
  | VObj props =>
      Hobj props
        ((fix go (l : list (string * value)) : Forall (λ kv, P kv.2) l :=
            match l with
            | [] => @List.Forall_nil _ _
            | kv :: l' => @List.Forall_cons _ _ kv l' (value_ind' kv.2) (go l')
            end) props)
  end.
End value_induction.

Lemma ser_arr elems :
  SerializeJSONProperty (VArr elems) =
  match ser_elems elems with
  | None => Raised
  | Some parts => Text (String "[" (join_elems parts))
  end.
Proof. reflexivity. Qed.

Lemma ser_obj props :
  SerializeJSONProperty (VObj props) =
  match ser_members props with
  | None => Raised
  | Some parts => Text (String "{" (join_members parts))
  end.
Proof. reflexivity. Qed.

Lemma plain_obj props :
  plain (VObj props) = distinct (List.map fst props) && plain_members props.
Proof. reflexivity. Qed.

Lemma need_obj props : need (VObj props) = S (need_members props).
Proof. reflexivity. Qed.

(** *** Strings *)

Lemma append_cons (x : ascii) (a b : string) :
  String x a +:+ b = String x (a +:+ b).
Proof. reflexivity. Qed.

Lemma append_nil_l (b : string) : "" +:+ b = b.
Proof. reflexivity. Qed.

Lemma append_assoc (a b c : string) : (a +:+ b) +:+ c = a +:+ (b +:+ c).
Proof.
  induction a as [|x a IH]; [done|]. now rewrite !append_cons, IH.
Qed.

Lemma append_nil_r (a : string) : a +:+ "" = a.
Proof. induction a as [|x a IH]; [done|]. now rewrite append_cons, IH. Qed.

Lemma read_string_quote_char c tail :
  read_string (quote_char c +:+ tail) =
  match read_string tail with
  | Some (body, rest) => Some (String c body, rest)
  | None => None
  end.
Proof.
  destruct c as [[] [] [] [] [] [] [] []]; reflexivity.
Qed.

Lemma read_string_quote_body s rest :
  read_string (quote_body s +:+ String dquote rest) = Some (s, rest).
Proof.
  induction s as [|c s IH].
  - reflexivity.
  - cbn [quote_body]. now rewrite append_assoc, read_string_quote_char, IH.
Qed.

(** *** Numbers *)

Lemma delimited_head rest :
  delimited rest = true →
  (read_fraction rest = Some (Decimal.Nil, rest)
   ∧ read_exponent rest = Some (0, rest))
  ∧ match rest with
    | EmptyString => True
    | String c _ => digit_of c = None ∧ is_ws c = false
    end.
Proof.
  destruct rest as [|c rest]; [done|]. unfold delimited.
  intros [[H | H]%orb_true_iff | H]%orb_true_iff;
    apply Ascii.eqb_eq in H; subst c; done.
Qed.

Lemma read_digits_string_of_uint u rest :
  match rest with
  | EmptyString => True
  | String c _ => digit_of c = None
  end →
  read_digits (NilEmpty.string_of_uint u +:+ rest) = (u, rest).
Proof.
  intros Hrest.
  induction u as [|u IH|u IH|u IH|u IH|u IH|u IH|u IH|u IH|u IH|u IH];
    cbn [NilEmpty.string_of_uint];
    rewrite ?append_cons, ?append_nil_l;
    try (cbn [read_digits]; rewrite IH; reflexivity).
  destruct rest as [|c rest]; [done|].
  cbn [read_digits]. now rewrite Hrest.
Qed.

Lemma read_unsigned_canonical u rest :
  canonical u → delimited rest = true →
  read_unsigned (NilEmpty.string_of_uint u +:+ rest) = Some (u, rest).
Proof.
  intros Hu [_ Hdig]%delimited_head. unfold read_unsigned.
  rewrite read_digits_string_of_uint.
  - destruct u as [|u|u|u|u|u|u|u|u|u|u]; try done.
    now destruct u.
  - destruct rest; [done | apply Hdig].
Qed.

Lemma nzhead_not_D0 u u' : Decimal.nzhead u ≠ Decimal.D0 u'.
Proof. induction u; simpl; try discriminate. exact IHu. Qed.

Lemma canonical_to_uint p : canonical (Pos.to_uint p).
Proof.
  pose proof (DecimalPos.Unsigned.to_of (Pos.to_uint p)) as Hnorm.
  rewrite DecimalPos.Unsigned.of_to in Hnorm. simpl in Hnorm.
  pose proof (DecimalPos.Unsigned.to_uint_nonnil p) as Hnil.
  destruct (Pos.to_uint p) as [|u| | | | | | | | |]; try done.
  unfold Decimal.unorm in Hnorm. simpl in Hnorm.
  destruct (Decimal.nzhead u) eqn:Hz; try discriminate.
  - injection Hnorm as Hu. now subst u.
  - exfalso. injection Hnorm as Hu. subst. now apply nzhead_not_D0 in Hz.
Qed.

Lemma string_of_canonical u :
  canonical u →
  NilZero.string_of_uint u = NilEmpty.string_of_uint u
  ∧ ∃ c r, NilEmpty.string_of_uint u = String c r
           ∧ (48 <=? N_of_ascii c)%N && (N_of_ascii c <=? 57)%N = true.
Proof.
  destruct u; try done; intros _; (split; [reflexivity|]);
    eexists _, _; (split; [reflexivity|]); reflexivity.
Qed.

Lemma app_Nil u : Decimal.app u Decimal.Nil = u.
Proof.
  unfold Decimal.app. rewrite <- (DecimalFacts.rev_rev u) at 2.
  unfold Decimal.rev at 2. reflexivity.
Qed.

(** The Number an integer numeral is read as. *)
Lemma decimal_integer negative u :
  decimal negative u Decimal.Nil 0
  = match Z.of_uint u with
    | Zpos p => Number.of_Z (cond_Zopp negative (Zpos p))
    | _ => S754_zero negative
    end.
Proof.
  unfold decimal, Number.of_decimal. rewrite app_Nil. simpl.
  destruct (Z.of_uint u) as [|p|p]; try reflexivity.
  change (10 ^ (0 - Z.of_nat 0)) with 1. now rewrite Z.mul_1_r.
Qed.

Lemma read_number_show_int n rest :
  delimited rest = true →
  read_number (Number.show_int n +:+ rest) = Some (VNum (Number.of_Z n), rest).
Proof.
  intros Hrest. unfold Number.show_int.
  destruct (delimited_head rest Hrest) as [[Hfrac Hexp] _].
  assert (∀ u, canonical u →
            read_number (NilZero.string_of_uint u +:+ rest)
            = Some (VNum (decimal false u Decimal.Nil 0), rest)) as Hpos.
  { intros u Hu. destruct (string_of_canonical u Hu) as (-> & c & r & Hs & Hc).
    pose proof (read_unsigned_canonical u rest Hu Hrest) as Hread.
    rewrite Hs, append_cons in *. unfold read_number.
    destruct (Ascii.eqb_spec c "-") as [-> | _]; [discriminate|].
    now rewrite Hread, Hfrac, Hexp. }
  destruct n as [|p|p].
  - apply (Hpos (Decimal.D0 Decimal.Nil) I).
  - change (NilZero.string_of_int (Z.to_int (Z.pos p)))
      with (NilZero.string_of_uint (Pos.to_uint p)).
    rewrite (Hpos _ (canonical_to_uint p)), decimal_integer.
    change (Z.of_uint (Pos.to_uint p)) with (Z.of_N (Pos.of_uint (Pos.to_uint p))).
    now rewrite DecimalPos.Unsigned.of_to.
  - pose proof (canonical_to_uint p) as Hu.
    change (NilZero.string_of_int (Z.to_int (Z.neg p)))
      with (String "-" (NilZero.string_of_uint (Pos.to_uint p))).
    destruct (string_of_canonical _ Hu) as (-> & _).
    rewrite append_cons. unfold read_number.
    replace (Ascii.eqb "-" "-") with true by reflexivity.
    rewrite (read_unsigned_canonical _ rest Hu Hrest), Hfrac, Hexp.
    rewrite decimal_integer.
    change (Z.of_uint (Pos.to_uint p)) with (Z.of_N (Pos.of_uint (Pos.to_uint p))).
    now rewrite DecimalPos.Unsigned.of_to.
Qed.

Lemma eqb_eq (x y : Number.t) : Number.eqb x y = true → x = y.
Proof.
  destruct x as [a|a| |a m e], y as [b|b| |b m' e']; simpl; try discriminate.
  - now intros ->%Bool.eqb_prop.
  - now intros ->%Bool.eqb_prop.
  - done.
  - intros [[->%Bool.eqb_prop ->%Pos.eqb_eq]%andb_true_iff ->%Z.eqb_eq]%andb_true_iff.
    reflexivity.
Qed.

(** A Number that is a safe integer is written by the digits of the
    integer and is the Number value of that integer. *)
Lemma safe_integer_spec x n :
  Number.safe_integer x = Some n →
  Number.of_Z n = x
  ∧ Number.is_finite x = true
  ∧ Number.to_string x = Number.show_int n.
Proof.
  intros Hsafe. unfold Number.to_string. rewrite Hsafe.
  unfold Number.safe_integer in Hsafe.
  destruct (match x with
            | S754_zero _ => Some 0
            | S754_finite s m e => _
            | _ => None
            end) as [n'|] eqn:Hn; [|discriminate].
  destruct (_ && _) eqn:Hok; [|discriminate].
  injection Hsafe as ->.
  apply andb_true_iff in Hok as [_ Heq%eqb_eq].
  split; [done|]. split; [|done].
  destruct x; (done || discriminate).
Qed.

Lemma show_int_head n :
  ∃ c r, Number.show_int n = String c r
         ∧ (Ascii.eqb c "-"
            || (48 <=? N_of_ascii c)%N && (N_of_ascii c <=? 57)%N) = true.
Proof.
  unfold Number.show_int. destruct n as [|p|p]; simpl.
  - eexists _, _. split; reflexivity.
  - destruct (string_of_canonical _ (canonical_to_uint p))
      as (-> & c & r & -> & Hc).
    exists c, r. split; [done|]. rewrite Hc. apply orb_true_r.
  - eexists _, _. split; reflexivity.
Qed.

(** *** Dispatch of [parse_value] on the first character *)

Lemma starts_value_not_ws c : starts_value c = true → is_ws c = false.
Proof.
  destruct c as [[] [] [] [] [] [] [] []]; (discriminate || reflexivity).
Qed.

Lemma starts_value_not_close c :
  starts_value c = true → Ascii.eqb c "]" = false ∧ Ascii.eqb c "}" = false.
Proof.
  destruct c as [[] [] [] [] [] [] [] []]; (discriminate || (split; reflexivity)).
Qed.

Lemma parse_value_number fuel c r :
  (Ascii.eqb c "-" || (48 <=? N_of_ascii c)%N && (N_of_ascii c <=? 57)%N) = true →
  starts_value c = true
  ∧ parse_value (S fuel) (String c r) = read_number (String c r).
Proof.
  destruct c as [[] [] [] [] [] [] [] []]; (discriminate || (split; reflexivity)).
Qed.

Lemma parse_value_string fuel body :
  parse_value (S fuel) (String dquote body) =
  match read_string body with
  | Some (str, rest) => Some (VStr str, rest)
  | None => None
  end.
Proof. reflexivity. Qed.

Lemma parse_value_array fuel r :
  parse_value (S fuel) (String "[" r) =
  match skip_ws r with
  | String c' r' =>
      if Ascii.eqb c' "]" then Some (VArr [], r')
      else
        match parse_elements fuel r with
        | Some (vs, rest) => Some (VArr vs, rest)
        | None => None
        end
  | EmptyString => None
  end.
Proof. reflexivity. Qed.

Lemma parse_value_object fuel r :
  parse_value (S fuel) (String "{" r) =
  match skip_ws r with
  | String c' r' =>
      if Ascii.eqb c' "}" then Some (VObj [], r')
      else
        match parse_members fuel r with
        | Some (ms, rest) => Some (make_object ms, rest)
        | None => None
        end
  | EmptyString => None
  end.
Proof. reflexivity. Qed.

Lemma parse_elements_S fuel s :
  parse_elements (S fuel) s =
  match parse_value fuel s with
  | Some (v, r) =>
      match skip_ws r with
      | String c r' =>
          if Ascii.eqb c "," then
            match parse_elements fuel r' with
            | Some (vs, rest) => Some (v :: vs, rest)
            | None => None
            end
          else if Ascii.eqb c "]" then Some ([v], r')
          else None
      | EmptyString => None
      end
  | None => None
  end.
Proof. reflexivity. Qed.

Lemma parse_members_S fuel body :
  parse_members (S fuel) (String dquote body) =
  match read_string body with
  | Some (k, r1) =>
      match skip_ws r1 with
      | String colon r2 =>
          if Ascii.eqb colon ":" then
            match parse_value fuel r2 with
            | Some (v, r3) =>
                match skip_ws r3 with
                | String c r' =>
                    if Ascii.eqb c "," then
                      match parse_members fuel r' with
                      | Some (ms, rest) => Some ((k, v) :: ms, rest)
                      | None => None
                      end
                    else if Ascii.eqb c "}" then Some ([(k, v)], r')
                    else None
                | EmptyString => None
                end
            | None => None
            end
          else None
      | EmptyString => None
      end
  | None => None
  end.
Proof. reflexivity. Qed.

Lemma skip_ws_head c r : is_ws c = false → skip_ws (String c r) = String c r.
Proof. intros H. simpl. now rewrite H. Qed.

Lemma length_append (a b : string) :
  String.length (a +:+ b) = (String.length a + String.length b)%nat.
Proof.
  induction a as [|x a IH]; [done|]. rewrite append_cons. simpl. now rewrite IH.
Qed.

(** *** Objects rebuilt from their members *)

Lemma define_prop_fresh props k v :
  existsb (String.eqb k) (List.map fst props) = false →
  define_prop props k v = props ++ [(k, v)].
Proof.
  induction props as [|[k' v'] props IH]; simpl; [done|].
  intros [Hk Hrest]%orb_false_iff.
  rewrite String.eqb_sym, Hk. now rewrite IH.
Qed.

Lemma existsb_app_keys k (l1 l2 : list string) :
  existsb (String.eqb k) (l1 ++ l2) =
  existsb (String.eqb k) l1 || existsb (String.eqb k) l2.
Proof. apply existsb_app. Qed.

Lemma fold_define_prop ms acc :
  distinct (List.map fst ms) = true →
  (∀ k, In k (List.map fst ms) →
        existsb (String.eqb k) (List.map fst acc) = false) →
  fold_left (λ props '(k, v), define_prop props k v) ms acc = acc ++ ms.
Proof.
  revert acc. induction ms as [|[k v] ms IH]; intros acc Hd Hacc; simpl.
  - now rewrite app_nil_r.
  - simpl in Hd. apply andb_true_iff in Hd as [Hk Hd].
    apply negb_true_iff in Hk.
    rewrite define_prop_fresh by (apply Hacc; now left).
    rewrite IH; [now rewrite <- app_assoc | exact Hd |].
    intros k' Hin. rewrite List.map_app, existsb_app_keys. simpl.
    rewrite (Hacc k') by now right. simpl. rewrite orb_false_r.
    destruct (String.eqb_spec k' k) as [-> | _]; [|done].
    exfalso. assert (existsb (String.eqb k) (List.map fst ms) = true)
      as Hex; [|congruence].
    apply existsb_exists. exists k. split; [done | apply String.eqb_refl].
Qed.

Lemma make_object_distinct ms :
  distinct (List.map fst ms) = true → make_object ms = VObj ms.
Proof.
  intros Hd. unfold make_object. now rewrite fold_define_prop.
Qed.

(** *** Values *)

Lemma Quote_append k x :
  QuoteJSONString k +:+ x = String dquote (quote_body k +:+ String dquote x).
Proof.
  unfold QuoteJSONString.
  now rewrite append_cons, append_assoc, append_cons, append_nil_l.
Qed.

Lemma length_Quote k : (2 ≤ String.length (QuoteJSONString k))%nat.
Proof.
  unfold QuoteJSONString. simpl. rewrite length_append. simpl. lia.
Qed.

Lemma elems_read_back l :
  Forall reads_back l → forallb plain l = true →
  ∃ parts,
    ser_elems l = Some parts
    ∧ (list_sum (List.map (λ x, S (need x)) l)
       ≤ String.length (join_elems parts))%nat
    ∧ (l ≠ [] →
       (∃ c r, join_elems parts = String c r ∧ starts_value c = true)
       ∧ ∀ fuel rest,
           (list_sum (List.map (λ x, S (need x)) l) ≤ fuel)%nat →
           parse_elements fuel (join_elems parts +:+ rest) = Some (l, rest)).
Proof.
  induction 1 as [|x l Hx _ IH]; intros Hplain.
  - exists []. split; [done|]. split; [simpl; lia | done].
  - simpl in Hplain. apply andb_true_iff in Hplain as [Hpx Hpl].
    destruct (Hx Hpx) as (t & Hser & (c & r & -> & Hc) & Hlen & Hread).
    destruct (IH Hpl) as (parts & Hparts & Hsum & Hrest).
    exists (String c r :: parts). cbn [ser_elems]. rewrite Hser, Hparts.
    split; [done|].
    destruct l as [|y l].
    + (* the last element *)
      injection Hparts as <-. cbn [join_elems List.map list_sum].
      split; [rewrite length_append; simpl in *; lia|].
      intros _. split; [rewrite append_cons; eauto|].
      intros fuel rest Hfuel. destruct fuel as [|fuel]; [simpl in Hfuel; lia|].
      rewrite parse_elements_S, append_assoc, Hread;
        [|simpl in Hfuel; lia | reflexivity].
      reflexivity.
    + (* an element followed by others *)
      destruct Hrest as [_ Hrest]; [done|].
      destruct parts as [|p parts]; [simpl in Hparts;
        destruct (SerializeJSONProperty y); try discriminate;
        destruct (ser_elems l); discriminate|].
      change (join_elems (String c r :: p :: parts))
        with (String c r +:+ "," +:+ join_elems (p :: parts)).
      change (list_sum (List.map (λ x, S (need x)) (x :: y :: l)))
        with (S (need x) + list_sum (List.map (λ x, S (need x)) (y :: l)))%nat.
      set (J := join_elems (p :: parts)) in *.
      set (N := list_sum (List.map (λ x, S (need x)) (y :: l))) in *.
      split; [rewrite !length_append; change (String.length ",") with 1%nat; lia|].
      intros _. split; [rewrite append_cons; eauto|].
      intros fuel rest Hfuel. destruct fuel as [|fuel]; [lia|].
      rewrite parse_elements_S, !append_assoc, Hread;
        [|lia | reflexivity].
      rewrite append_cons, append_nil_l.
      rewrite skip_ws_head by reflexivity.
      replace (Ascii.eqb "," ",") with true by reflexivity.
      rewrite Hrest by lia. reflexivity.
Qed.

Lemma members_read_back l :
  Forall (λ kv, reads_back kv.2) l → plain_members l = true →
  ∃ parts,
    ser_members l = Some parts
    ∧ List.map fst parts = List.map fst l
    ∧ (need_members l ≤ String.length (join_members parts))%nat
    ∧ (l ≠ [] →
       (∃ r, join_members parts = String dquote r)
       ∧ ∀ fuel rest,
           (need_members l ≤ fuel)%nat →
           parse_members fuel (join_members parts +:+ rest) = Some (l, rest)).
Proof.
  induction 1 as [|[k x] l Hx _ IH]; intros Hplain.
  - exists []. split; [done|]. split; [done|]. split; [simpl; lia | done].
  - simpl in Hplain, Hx. apply andb_true_iff in Hplain as [Hpx Hpl].
    destruct (Hx Hpx) as (t & Hser & (c & r & -> & Hc) & Hlen & Hread).
    destruct (IH Hpl) as (parts & Hparts & Hkeys & Hsum & Hrest).
    exists ((k, String c r) :: parts). cbn [ser_members].
    rewrite Hser, Hparts. split; [done|].
    split; [simpl; now rewrite Hkeys|].
    pose proof (length_Quote k) as HlenQ.
    destruct l as [|[k' y] l].
    + (* the last member *)
      destruct parts; [|discriminate]. cbn [join_members need_members].
      split; [rewrite !length_append; simpl in *; lia|].
      intros _. split; [rewrite Quote_append; eauto|].
      intros fuel rest Hfuel. destruct fuel as [|fuel]; [simpl in Hfuel; lia|].
      rewrite !append_assoc, Quote_append, parse_members_S.
      rewrite read_string_quote_body.
      rewrite append_cons, append_nil_l.
      rewrite skip_ws_head by reflexivity.
      replace (Ascii.eqb ":" ":") with true by reflexivity.
      rewrite Hread; [|simpl in Hfuel; lia | reflexivity].
      reflexivity.
    + (* a member followed by others *)
      destruct Hrest as [_ Hrest]; [done|].
      destruct parts as [|[k'' p] parts]; [discriminate|].
      change (join_members ((k, String c r) :: (k'', p) :: parts))
        with (QuoteJSONString k +:+ ":" +:+ String c r +:+ ","
              +:+ join_members ((k'', p) :: parts)).
      change (need_members ((k, x) :: (k', y) :: l))
        with (S (need x) + need_members ((k', y) :: l))%nat.
      set (J := join_members ((k'', p) :: parts)) in *.
      set (N := need_members ((k', y) :: l)) in *.
      split; [rewrite !length_append; change (String.length ",") with 1%nat;
              change (String.length ":") with 1%nat; lia|].
      intros _. split; [rewrite Quote_append; eauto|].
      intros fuel rest Hfuel. destruct fuel as [|fuel]; [lia|].
      rewrite !append_assoc, Quote_append, parse_members_S.
      rewrite read_string_quote_body.
      rewrite append_cons, append_nil_l.
      rewrite skip_ws_head by reflexivity.
      replace (Ascii.eqb ":" ":") with true by reflexivity.
      rewrite Hread; [|lia | reflexivity].
      rewrite append_cons, append_nil_l.
      rewrite skip_ws_head by reflexivity.
      replace (Ascii.eqb "," ",") with true by reflexivity.
      rewrite Hrest by lia. reflexivity.
Qed.

Theorem plain_reads_back v : reads_back v.
Proof.
  induction v as [| |b|x|n|s|elems IH|props IH] using value_ind';
    intros Hplain; try discriminate.
  - (* null *)
    exists "null". split; [done|]. split; [eauto|]. split; [simpl; lia|].
    intros [|fuel] rest Hfuel _; [simpl in Hfuel; lia | reflexivity].
  - (* booleans *)
    exists (if b then "true" else "false"). split; [done|].
    split; [destruct b; eauto|]. split; [destruct b; simpl; lia|].
    intros [|fuel] rest Hfuel _; [simpl in Hfuel; lia|].
    now destruct b.
  - (* integers *)
    simpl in Hplain.
    destruct (Number.safe_integer x) as [n|] eqn:Hsafe; [|discriminate].
    destruct (safe_integer_spec x n Hsafe) as (<- & Hfin & Hshow).
    exists (Number.show_int n).
    split; [simpl; now rewrite Hfin, Hshow|].
    destruct (show_int_head n) as (c & r & Hs & Hc).
    split; [exists c, r; split; [done | now apply (parse_value_number 0 c r)]|].
    split; [rewrite Hs; simpl; lia|].
    intros [|fuel] rest Hfuel Hrest; [simpl in Hfuel; lia|].
    pose proof (read_number_show_int n rest Hrest) as Hread.
    rewrite Hs, append_cons in *.
    now rewrite (proj2 (parse_value_number fuel c _ Hc)).
  - (* strings *)
    exists (QuoteJSONString s). split; [done|]. split; [unfold QuoteJSONString; eauto|].
    split; [pose proof (length_Quote s); simpl; lia|].
    intros [|fuel] rest Hfuel _; [simpl in Hfuel; lia|].
    rewrite Quote_append, parse_value_string.
    now rewrite read_string_quote_body.
  - (* arrays *)
    destruct (elems_read_back elems IH Hplain)
      as (parts & Hparts & Hsum & Hrest).
    rewrite ser_arr, Hparts.
    eexists. split; [reflexivity|]. split; [eauto|].
    split; [simpl in *; lia|].
    intros [|fuel] rest Hfuel _; [simpl in Hfuel; lia|].
    rewrite append_cons, parse_value_array.
    destruct elems as [|x elems].
    + injection Hparts as <-. reflexivity.
    + destruct Hrest as [(c & r & Hj & Hc) Hread]; [done|].
      rewrite Hj, append_cons.
      rewrite skip_ws_head by now apply starts_value_not_ws.
      rewrite (proj1 (starts_value_not_close c Hc)).
      rewrite <- append_cons, <- Hj.
      rewrite Hread; [reflexivity|]. simpl in Hfuel. simpl. lia.
  - (* objects *)
    rewrite plain_obj in Hplain.
    apply andb_true_iff in Hplain as [Hdistinct Hplain].
    destruct (members_read_back props IH Hplain)
      as (parts & Hparts & Hkeys & Hsum & Hrest).
    rewrite ser_obj, Hparts.
    eexists. split; [reflexivity|]. split; [eauto|].
    split; [rewrite need_obj; simpl; lia|].
    intros [|fuel] rest Hfuel _; [simpl in Hfuel; lia|].
    rewrite append_cons, parse_value_object.
    destruct props as [|kv props].
    + injection Hparts as <-. reflexivity.
    + destruct Hrest as [(r & Hj) Hread]; [done|].
      rewrite Hj, append_cons.
      rewrite skip_ws_head by reflexivity.
      replace (Ascii.eqb dquote "}") with false by reflexivity.
      rewrite <- append_cons, <- Hj.
      rewrite Hread; [|rewrite need_obj in Hfuel; lia].
      now rewrite make_object_distinct.
Qed.

(** Properties that hold [undefined] are left out of the text. *)
Lemma ser_members_defined l :
  ser_members l = ser_members (List.filter defined l).
Proof.
  induction l as [|[k x] l IH]; [done|].
  destruct x; cbn [ser_members List.filter defined snd];
    rewrite <- ?IH; reflexivity.
Qed.

(** A plain value written by [SerializeJSONProperty] is what [parse_text]
    reads. *)
Corollary parse_text_plain v :
  plain v = true →
  ∃ t, SerializeJSONProperty v = Text t ∧ t ≠ "" ∧ parse_text t = Some v.
Proof.
  intros Hplain.
  destruct (plain_reads_back v Hplain)
    as (t & Hser & (c & r & Ht & _) & Hlen & Hread).
  exists t. split; [done|]. split; [now rewrite Ht|].
  unfold parse_text. rewrite <- (append_nil_r t) at 2.
  rewrite Hread; [reflexivity | lia | reflexivity].
Qed.

End JsonFacts.

(** ** Round trip through the cache *)

Section CodecRoundTrip.
Import Json.

Lemma preserved_cases d : preserved d = true → d = VUndefined ∨ plain d = true.
Proof. destruct d; auto. Qed.

(** The item [setCacheData] builds is read back from its own text by
    this codec, when the payload is a preserved one and the two numbers
    are safe integers. *)
Lemma stringify_parse_item d ts ex ver :
  preserved d = true →
  plain (VNum ts) = true →
  plain (VNum ex) = true →
  ∃ blob,
    stringify (mkCacheItem d ts ex (js_string ver) None) = Some blob
    ∧ blob ≠ ""
    ∧ parse blob = Some (mkCacheItem d ts ex (js_string ver) None).
Proof.
  intros Hd Hts Hex.
  set (props := [("data", d); ("timestamp", VNum ts); ("expiresAt", VNum ex);
                 ("version", js_string ver)]).
  assert (Hplain : plain (VObj (List.filter defined props)) = true
                   ∧ as_CacheItem (VObj (List.filter defined props))
                     = Some (mkCacheItem d ts ex (js_string ver) None)).
  { rewrite JsonFacts.plain_obj. unfold as_CacheItem.
    apply preserved_cases in Hd as [-> | Hd]; destruct ver as [s|];
      try (destruct d; try discriminate Hd);
      cbn -[plain Number.safe_integer ToNumber] in *;
      rewrite ?Hts, ?Hex, ?Hd; split; reflexivity. }
  destruct Hplain as [Hplain Hitem].
  destruct (JsonFacts.parse_text_plain _ Hplain) as (t & Hser & Hne & Hparse).
  exists t. split; [|split; [exact Hne|]].
  - unfold stringify.
    change (to_object (mkCacheItem d ts ex (js_string ver) None))
      with (VObj props).
    rewrite JsonFacts.ser_obj, JsonFacts.ser_members_defined.
    rewrite JsonFacts.ser_obj in Hser. now rewrite Hser.
  - unfold parse. now rewrite Hparse.
Qed.

(** Hence this codec carries the item, as the round trip asks. *)
Lemma json_carries d config now :
  preserved d = true →
  plain (VNum (Number.of_Z now)) = true →
  plain (VNum (expiresAt (item_for d config now))) = true →
  carried stringify parse (item_for d config now).
Proof.
  intros Hd Hts Hex blob Hblob.
  destruct (stringify_parse_item d (Number.of_Z now)
              (expiresAt (item_for d config now)) (cfg_version config)
              Hd Hts Hex) as (blob' & Hser & Hne & Hparse).
  change (mkCacheItem d _ _ _ None) with (item_for d config now) in Hser, Hparse.
  rewrite Hser in Hblob. injection Hblob as <-.
  split; [exact Hne|]. eauto.
Qed.

End CodecRoundTrip.

Section RoundTrip.

Variable JSON_stringify : CacheItem → option string.
Variable JSON_parse : string → option CacheItem.

Lemma strict_equal_js_string v : strict_equal (js_string v) v = true.
Proof using Type. apply strict_equal_spec. reflexivity. Qed.

(** What a read finds after a successful write, when JSON carries the
    item written. *)
Lemma read_after_write key d options options' w w1 t :
  carried JSON_stringify JSON_parse (item_for d (config_of options) (clock w)) →
  setCacheData JSON_stringify key d options w = (Ret true, w1) →
  area (cfg_storage (config_of options')) = area (cfg_storage (config_of options)) →
  ∃ st blob item,
    backend (area (cfg_storage (config_of options'))) (at_time t w1) = Some st
    ∧ items st !! key = Some blob
    ∧ blob ≠ ""
    ∧ JSON_parse blob = Some item
    ∧ data item = d
    ∧ expiresAt item
      = Number.add (Number.of_Z (clock w)) (ToNumeric (cfg_ttl (config_of options)))
    ∧ version item = js_string (cfg_version (config_of options)).
Proof using Type.
  intros Hcarried (st & blob & Hb & Hser & ->)%setCacheData_true_inv Hsto.
  destruct (Hcarried blob Hser) as (Hne & item & Hparse & Hd & Hex & Hver).
  eexists _, blob, item. split.
  { rewrite Hsto, backend_at_time. now apply (backend_set_store_of _ st). }
  split; [apply lookup_insert_eq|]. auto.
Qed.

(** C1 (amended).  Round trip: for every key, payload and options for
    which JSON carries the item written (its text is read as an item
    with the same [data], [expiresAt] and [version]), after a successful
    [setCacheData], a [getCacheData] with the same version and storage
    selection, performed while [Date.now()] is not greater than the
    [Date.now()] of the write plus [ttl], returns the payload and leaves
    the world as it is. *)
Theorem cache_round_trip key d options options' w w1 t :
  carried JSON_stringify JSON_parse (item_for d (config_of options) (clock w)) →
  setCacheData JSON_stringify key d options w = (Ret true, w1) →
  cfg_version (config_of options') = cfg_version (config_of options) →
  area (cfg_storage (config_of options')) = area (cfg_storage (config_of options)) →
  past t (Number.add (Number.of_Z (clock w))
            (ToNumeric (cfg_ttl (config_of options)))) = false →
  getCacheData JSON_parse key options' (at_time t w1) = (Ret d, at_time t w1).
Proof.
  intros Hcarried Hset Hver Hsto Hlive.
  destruct (read_after_write key d options options' w w1 t Hcarried Hset Hsto)
    as (st & blob & item & Hb & Hk & Hne & Hparse & Hd & Hex & Hv).
  rewrite (getCacheData_run _ _ _ _ _ Hb), Hk.
  destruct (String.eqb_spec blob ""); [contradiction|].
  rewrite Hparse, Hex.
  replace (clock (at_time t w1)) with t by reflexivity.
  rewrite Hlive. unfold isVersionOutdated.
  now rewrite Hv, Hver, strict_equal_js_string, Hd.
Qed.

(** The same entry read too late, or read under another version, is
    gone: the read returns [null] and removes the key. *)
Corollary getCacheData_after_ttl key d options options' w w1 t :
  carried JSON_stringify JSON_parse (item_for d (config_of options) (clock w)) →
  setCacheData JSON_stringify key d options w = (Ret true, w1) →
  area (cfg_storage (config_of options')) = area (cfg_storage (config_of options)) →
  past t (Number.add (Number.of_Z (clock w))
            (ToNumeric (cfg_ttl (config_of options)))) = true
  ∨ cfg_version (config_of options') ≠ cfg_version (config_of options) →
  ∃ w' st',
    getCacheData JSON_parse key options' (at_time t w1) = (Ret VNull, w')
    ∧ backend (area (cfg_storage (config_of options'))) w' = Some st'
    ∧ items st' !! key = None.
Proof.
  intros Hcarried Hset Hsto Hlate.
  destruct (read_after_write key d options options' w w1 t Hcarried Hset Hsto)
    as (st & blob & item & Hb & Hk & Hne & Hparse & Hd & Hex & Hv).
  eexists _, _. split.
  - apply (getCacheData_invalid JSON_parse key options' (at_time t w1) st item Hb).
    + apply entry_at_Some. eauto.
    + rewrite Hex, Hv. replace (clock (at_time t w1)) with t by reflexivity.
      destruct Hlate as [Hlate | Hver]; [now left | right].
      intros Heq. apply Hver.
      destruct (cfg_version (config_of options')),
        (cfg_version (config_of options)); simpl in Heq; congruence.
  - split; [now apply (backend_set_store_of _ st)|].
    apply lookup_delete_eq.
Qed.

End RoundTrip.

(** ** The statements at the sample worlds *)

Section Examples.
Import Samples.

(** The scenario of the specification: the payload comes back at once,
    and is gone 1001 ms later. *)
Example scenario_fresh :
  (getCacheData Json.parse "profile_1" no_options browser_after_set).1
  = Ret profile.
Proof. vm_compute. reflexivity. Qed.

Example scenario_late :
  (getCacheData Json.parse "profile_1" no_options
     (at_time 2001 browser_after_set)).1 = Ret VNull.
Proof. vm_compute. reflexivity. Qed.

Lemma cache_round_trip_witness :
  getCacheData Json.parse "profile_1" no_options (at_time 1999 browser_after_set)
  = (Ret profile, at_time 1999 browser_after_set).
Proof.
  apply (cache_round_trip Json.stringify Json.parse
           "profile_1" profile short_lived no_options
           browser browser_after_set 1999).
  - apply json_carries; reflexivity.
  - vm_compute. reflexivity.
  - reflexivity.
  - reflexivity.
  - vm_compute. reflexivity.
Defined.

(** C1 as stated fails: [NaN] is stored without error and read back as
    [null]. *)
Lemma cache_round_trip_counterexample :
  ¬ (∀ key d options options' w w1 t,
       setCacheData Json.stringify key d options w = (Ret true, w1) →
       cfg_version (config_of options') = cfg_version (config_of options) →
       area (cfg_storage (config_of options')) = area (cfg_storage (config_of options)) →
       past t (Number.add (Number.of_Z (clock w))
                 (ToNumeric (cfg_ttl (config_of options)))) = false →
       (getCacheData Json.parse key options' (at_time t w1)).1 = Ret d).
Proof.
  intros H.
  specialize (H "profile_1" VNaN no_options no_options browser
                (setCacheData Json.stringify "profile_1" VNaN no_options browser).2
                1000).
  assert ((getCacheData Json.parse "profile_1" no_options
             (at_time 1000
                (setCacheData Json.stringify "profile_1" VNaN no_options
                   browser).2)).1 = Ret VNull) as Hnull
    by (vm_compute; reflexivity).
  rewrite Hnull in H.
  assert (Ret VNull = Ret VNaN) as Habsurd.
  { apply H; vm_compute; reflexivity. }
  discriminate Habsurd.
Qed.

Lemma getCacheData_evicts_invalid_witness :
  ∃ w' st',
    getCacheData Json.parse "profile_1" no_options
      (at_time 2001 browser_after_set) = (Ret VNull, w')
    ∧ backend localStorage w' = Some st'
    ∧ items st' !! "profile_1" = None
    ∧ items st' = delete "profile_1" (items area_after_set)
    ∧ w' = set_store localStorage
             (mkStorage (delete "profile_1" (items area_after_set))
                        (quota area_after_set))
             (at_time 2001 browser_after_set).
Proof.
  apply (getCacheData_evicts_invalid Json.parse "profile_1" no_options
           (at_time 2001 browser_after_set) area_after_set profile_item).
  - vm_compute. reflexivity.
  - vm_compute. reflexivity.
  - left. reflexivity.
Defined.

Lemma getCacheStats_corrupt_share_witness :
  ∃ s s0 w' w0',
    getCacheStats Json.parse localStorage broken_browser = (Ret s, w')
    ∧ getCacheStats Json.parse localStorage
        (set_store localStorage
           (mkStorage (delete "tasa_cache_broken" (items broken_area))
                      (quota broken_area))
           broken_browser)
      = (Ret s0, w0')
    ∧ logged error "Error parsing cache item tasa_cache_broken:" w'
    ∧ expiredKeys s = expiredKeys s0
    ∧ totalSize s = (5 + totalSize s0)%nat.
Proof.
  apply (getCacheStats_corrupt_share Json.parse localStorage broken_browser
           broken_area "tasa_cache_broken" "{oops").
  - reflexivity.
  - reflexivity.
  - vm_compute. reflexivity.
  - discriminate.
  - vm_compute. reflexivity.
Defined.

(** C3 as stated fails: the unreadable text under [tasa_cache_broken]
    adds its five characters to [totalSize]. *)
Lemma getCacheStats_corrupt_share_counterexample :
  ¬ (∀ ty w st key blob,
       backend ty w = Some st →
       prefixed key = true →
       items st !! key = Some blob →
       blob ≠ "" →
       Json.parse blob = None →
       ∃ s s0 w' w0',
         getCacheStats Json.parse ty w = (Ret s, w')
         ∧ getCacheStats Json.parse ty
             (set_store ty (mkStorage (delete key (items st)) (quota st)) w)
           = (Ret s0, w0')
         ∧ logged error ("Error parsing cache item " +:+ key +:+ ":") w'
         ∧ expiredKeys s = expiredKeys s0
         ∧ totalSize s = totalSize s0).
Proof.
  intros H.
  destruct (H localStorage broken_browser broken_area
              "tasa_cache_broken" "{oops")
    as (s & s0 & w' & w0' & Hs & Hs0 & _ & _ & Hsize).
  - reflexivity.
  - reflexivity.
  - vm_compute. reflexivity.
  - discriminate.
  - vm_compute. reflexivity.
  - vm_compute in Hs, Hs0.
    injection Hs as <- _. injection Hs0 as <- _.
    discriminate Hsize.
Qed.

(** C4 as stated fails for the scans: with an unreadable text under
    the prefix, [cleanupExpiredCache] returns 1 and [getCacheStats]
    returns non-zero statistics, not the safe defaults. *)
Lemma facade_total_counterexample :
  ¬ (∀ ty w st key blob,
       backend ty w = Some st →
       prefixed key = true →
       items st !! key = Some blob →
       blob ≠ "" →
       Json.parse blob = None →
       (cleanupExpiredCache Json.parse ty w).1 = Ret 0%nat
       ∧ (getCacheStats Json.parse ty w).1 = Ret zero_stats).
Proof.
  intros H.
  destruct (H localStorage broken_browser broken_area
              "tasa_cache_broken" "{oops") as [Hcleanup _].
  - reflexivity.
  - reflexivity.
  - vm_compute. reflexivity.
  - discriminate.
  - vm_compute. reflexivity.
  - vm_compute in Hcleanup. discriminate Hcleanup.
Qed.

Example scans_on_unreadable_text :
  (cleanupExpiredCache Json.parse localStorage broken_browser).1 = Ret 1%nat
  ∧ (getCacheStats Json.parse localStorage broken_browser).1
    = Ret {| totalKeys := 1; cacheKeys := 1; expiredKeys := 0; totalSize := 5 |}.
Proof. split; vm_compute; reflexivity. Qed.

Example clear_keeps_other_keys :
  ∃ w' st',
    clearAllCache localStorage mixed_browser = (Ret true, w')
    ∧ local_store w' = Some st'
    ∧ items st' = {[ "theme" := "dark" ]}
    ∧ (getCacheStats Json.parse localStorage mixed_browser).1
      = Ret {| totalKeys := 2; cacheKeys := 1; expiredKeys := 0;
               totalSize := String.length profile_text |}
    ∧ (getCacheStats Json.parse localStorage w').1
      = Ret {| totalKeys := 1; cacheKeys := 0; expiredKeys := 0;
               totalSize := 0 |}.
Proof. eexists _, _. repeat split; vm_compute; reflexivity. Qed.

Example two_callers_one_attempt :
  DbConnect.run
    [DbConnect.Call; DbConnect.Call;
     DbConnect.Settle 0%nat (DbConnect.Fulfilled 7%nat);
     DbConnect.Resume 0%nat; DbConnect.Resume 0%nat; DbConnect.Call]
    DbConnect.start
  = Some (DbConnect.mkProcess
            (DbConnect.mkCache (Some 0%nat) (Some 7%nat))
            [DbConnect.Fulfilled 7%nat] [] [7; 7; 7]%nat false).
Proof. reflexivity. Qed.

Lemma unprefixed_key_outside_scans_witness :
  (∃ w2 st2,
     clearAllCache localStorage browser_after_set = (Ret true, w2)
     ∧ backend localStorage w2 = Some st2
     ∧ items st2 !! "profile_1" = Some profile_text)
  ∧ (∃ n w2 st2,
       cleanupExpiredCache Json.parse localStorage
         (at_time 2001 browser_after_set) = (Ret n, w2)
       ∧ backend localStorage w2 = Some st2
       ∧ items st2 !! "profile_1" = Some profile_text)
  ∧ (∃ s s0 w2 w3,
       getCacheStats Json.parse localStorage browser_after_set = (Ret s, w2)
       ∧ getCacheStats Json.parse localStorage
           (set_store localStorage
              (mkStorage (delete "profile_1" (items area_after_set))
                         (quota area_after_set))
              browser_after_set)
         = (Ret s0, w3)
       ∧ totalKeys s = S (totalKeys s0)
       ∧ cacheKeys s = cacheKeys s0
       ∧ expiredKeys s = expiredKeys s0
       ∧ totalSize s = totalSize s0).
Proof.
  destruct (unprefixed_key_outside_scans Json.stringify Json.parse
              "profile_1" profile short_lived eq_refl) as [_ Hscans].
  destruct (Hscans localStorage browser_after_set area_after_set profile_text)
    as (Hclear & _ & Hstats); [vm_compute; reflexivity..|].
  destruct (Hscans localStorage (at_time 2001 browser_after_set)
              area_after_set profile_text)
    as (_ & Hcleanup & _); [vm_compute; reflexivity..|].
  exact (conj Hclear (conj Hcleanup Hstats)).
Defined.

End Examples.

(** * Further properties of the cache facade *)

Lemma truthy_Some blob : truthy (Some blob) = negb (String.eqb blob "").
Proof. reflexivity. Qed.

Lemma same_storage_refl w : same_storage w w.
Proof. now split. Qed.

Lemma same_storage_say lvl msg w : same_storage w (say lvl msg w).
Proof. now split. Qed.

Lemma same_storage_add_console lines w : same_storage w (add_console lines w).
Proof. now split. Qed.

Lemma same_storage_without_backend c w : same_storage w (without_backend c w).
Proof. unfold without_backend. destruct (has_window w); now split. Qed.

Lemma same_storage_store_of ty w w' :
  same_storage w w' → store_of ty w' = store_of ty w.
Proof. intros [Hl Hs]. now destruct ty. Qed.

Lemma store_of_other ty st w :
  store_of (other ty) (set_store ty st w) = store_of (other ty) w.
Proof. now destruct ty. Qed.

Lemma backend_None_without ty c w :
  backend ty w = None → backend ty (without_backend c w) = None.
Proof.
  unfold backend, without_backend.
  destruct (has_window w) eqn:Hw; simpl; rewrite Hw; [|done].
  now rewrite store_of_say.
Qed.

Lemma backend_say ty lvl msg w : backend ty (say lvl msg w) = backend ty w.
Proof. unfold backend. simpl. now rewrite store_of_say. Qed.

Lemma backend_add_console ty lines w :
  backend ty (add_console lines w) = backend ty w.
Proof. unfold backend. simpl. now rewrite store_of_add_console. Qed.

Lemma backend_set_other ty ty' st w :
  ty' ≠ ty → backend ty' (set_store ty st w) = backend ty' w.
Proof.
  intros Hne. unfold backend. rewrite has_window_set_store.
  now rewrite store_of_set_store_ne.
Qed.

Section FacadeResults.

Variable JSON_parse : string → option CacheItem.

(** The value [getCacheData] returns, as a function of the text stored
    under the key. *)
Lemma getCacheData_result key options w :
  (getCacheData JSON_parse key options w).1 =
  Ret match backend (area (cfg_storage (config_of options))) w with
      | Some st =>
          read_of JSON_parse (config_of options) (clock w) (items st !! key)
      | None => VNull
      end.
Proof.
  destruct (backend (area (cfg_storage (config_of options))) w) as [st|] eqn:Hb.
  - rewrite (getCacheData_run _ _ _ _ _ Hb). unfold read_of, isVersionOutdated.
    destruct (items st !! key) as [blob|]; [|done].
    rewrite truthy_Some. simpl default.
    destruct (String.eqb blob ""); [done|]. simpl.
    destruct (JSON_parse blob) as [item|]; [|done].
    now destruct (_ || _).
  - now rewrite (getCacheData_unavailable _ _ _ _ Hb).
Qed.

Lemma hasValidCache_result key options w :
  (hasValidCache JSON_parse key options w).1 =
  Ret match backend (area (cfg_storage (config_of options))) w with
      | Some st =>
          valid_of JSON_parse (config_of options) (clock w) (items st !! key)
      | None => false
      end.
Proof.
  destruct (backend (area (cfg_storage (config_of options))) w) as [st|] eqn:Hb.
  - rewrite (hasValidCache_run _ _ _ _ _ Hb). unfold valid_of, isVersionOutdated.
    destruct (items st !! key) as [blob|]; [|done].
    rewrite truthy_Some. simpl default.
    destruct (String.eqb blob ""); [done|]. simpl.
    destruct (JSON_parse blob) as [item|]; [|done].
    simpl. now rewrite negb_involutive.
  - now rewrite (hasValidCache_unavailable _ _ _ _ Hb).
Qed.

(** The storage [getCacheData] leaves: the area it read, with the key
    deleted when its entry was expired or of another version. *)
Lemma getCacheData_storage key options w st :
  backend (area (cfg_storage (config_of options))) w = Some st →
  ∃ m,
    backend (area (cfg_storage (config_of options)))
      (getCacheData JSON_parse key options w).2
    = Some (mkStorage m (quota st))
    ∧ (m = items st ∨ m = delete key (items st))
    ∧ store_of (other (area (cfg_storage (config_of options))))
        (getCacheData JSON_parse key options w).2
      = store_of (other (area (cfg_storage (config_of options)))) w.
Proof.
  intros Hb. rewrite (getCacheData_run _ _ _ _ _ Hb).
  assert (Hsame : backend (area (cfg_storage (config_of options))) w
                  = Some (mkStorage (items st) (quota st)))
    by now destruct st.
  destruct (items st !! key) as [blob|]; [|eauto].
  destruct (String.eqb blob ""); [eauto|].
  destruct (JSON_parse blob) as [item|].
  - destruct (_ || _); [|eauto].
    exists (delete key (items st)). simpl.
    split; [now apply (backend_set_store_of _ st)|].
    split; [now right | apply store_of_other].
  - exists (items st). simpl. rewrite backend_say, store_of_say. auto.
Qed.

End FacadeResults.

Lemma say_add_console lvl msg w : say lvl msg w = add_console [Log lvl msg] w.
Proof. reflexivity. Qed.

Lemma unchanged_outside_add_console ty lines w :
  unchanged_outside ty w (add_console lines w).
Proof. unfold unchanged_outside. now rewrite store_of_add_console. Qed.

Lemma unchanged_outside_set_store ty st w :
  unchanged_outside ty w (set_store ty st w).
Proof.
  unfold unchanged_outside.
  now rewrite store_of_other, has_window_set_store, clock_set_store.
Qed.

Lemma unchanged_outside_trans ty w1 w2 w3 :
  unchanged_outside ty w1 w2 → unchanged_outside ty w2 w3 →
  unchanged_outside ty w1 w3.
Proof. intros (? & ? & ?) (? & ? & ?). repeat split; congruence. Qed.

Lemma without_backend_console c w :
  ∃ lines, without_backend c w = add_console lines w.
Proof.
  unfold without_backend. destruct (has_window w).
  - eexists. apply say_add_console.
  - exists []. now rewrite add_console_nil.
Qed.

Lemma StorageType_cases (a b : StorageType) : a = b ∨ a ≠ b.
Proof. destruct a, b; auto; right; discriminate. Qed.

Section FacadeFurther.

Variable JSON_stringify : CacheItem → option string.
Variable JSON_parse : string → option CacheItem.

(** The world [setCacheData] leaves: one key written within the quota,
    or only console lines. *)
Lemma setCacheData_world key d options w :
  (∃ st blob,
     backend (area (cfg_storage (config_of options))) w = Some st
     ∧ JSON_stringify (item_for d (config_of options) (clock w)) = Some blob
     ∧ (used (<[key := blob]> (items st)) ≤ quota st)%nat
     ∧ setCacheData JSON_stringify key d options w
       = (Ret true,
          set_store (area (cfg_storage (config_of options)))
            (mkStorage (<[key := blob]> (items st)) (quota st)) w))
  ∨ (∃ lines,
       lines ≠ []
       ∧ setCacheData JSON_stringify key d options w
         = (Ret false, add_console lines w)).
Proof.
  destruct (backend (area (cfg_storage (config_of options))) w) as [st|] eqn:Hb.
  - rewrite (setCacheData_run _ _ _ _ _ _ Hb).
    destruct (JSON_stringify _) as [blob|] eqn:Hser.
    + destruct (Nat.leb_spec (used (<[key := blob]> (items st))) (quota st)).
      * left. exists st, blob. auto.
      * right. now exists [Log error "Error setting cache data:"].
    + right. now exists [Log error "Error setting cache data:"].
  - rewrite (setCacheData_unavailable _ _ _ _ _ Hb). right.
    destruct (without_backend_console (cfg_storage (config_of options)) w)
      as [lines ->].
    exists (lines ++ [Log warn "Storage not available"]).
    split; [now destruct lines|].
    now rewrite say_add_console, add_console_add.
Qed.

(** X1.  Removal is final and idempotent: [removeCacheData] returns
    [true] exactly when there is a backend; afterwards the key is absent
    from the selected area while every other key and the other area are
    as before, [getCacheData] returns [null] and [hasValidCache] returns
    [false] for the key, whatever was stored; and removing again changes
    no storage. *)
Theorem removeCacheData_then_read key options w :
  ∃ b w1,
    removeCacheData key (area (cfg_storage (config_of options))) w = (Ret b, w1)
    ∧ (b = true ↔ is_Some (backend (area (cfg_storage (config_of options))) w))
    ∧ (∀ st,
         backend (area (cfg_storage (config_of options))) w = Some st →
         backend (area (cfg_storage (config_of options))) w1
         = Some (mkStorage (delete key (items st)) (quota st)))
    ∧ unchanged_outside (area (cfg_storage (config_of options))) w w1
    ∧ (getCacheData JSON_parse key options w1).1 = Ret VNull
    ∧ (hasValidCache JSON_parse key options w1).1 = Ret false
    ∧ ∃ w2,
        removeCacheData key (area (cfg_storage (config_of options))) w1 = (Ret b, w2)
        ∧ same_storage w1 w2.
Proof.
  generalize (eq_refl (area (cfg_storage (config_of options)))).
  generalize (area (cfg_storage (config_of options))) at 1 3 4 5 6 7 as ty.
  intros ty Hty.
  destruct (backend ty w) as [st|] eqn:Hb.
  - rewrite (removeCacheData_run _ _ _ _ Hb).
    set (st1 := mkStorage (delete key (items st)) (quota st)).
    assert (Hb1 : backend ty (set_store ty st1 w) = Some st1)
      by now apply (backend_set_store_of _ st).
    eexists true, _. split; [reflexivity|].
    split; [split; eauto|]. split; [now intros st' [= <-]|].
    split; [apply unchanged_outside_set_store|].
    rewrite getCacheData_result, hasValidCache_result, <- Hty, Hb1.
    unfold read_of, valid_of. simpl items. rewrite lookup_delete_eq.
    split; [reflexivity|]. split; [reflexivity|].
    rewrite (removeCacheData_run _ _ _ _ Hb1). eexists. split; [reflexivity|].
    rewrite set_store_twice. simpl. rewrite delete_delete_eq.
    apply same_storage_refl.
  - rewrite (removeCacheData_unavailable _ _ _ Hb).
    pose proof (backend_None_without _ (Some ty) _ Hb) as Hb1.
    eexists false, _. split; [reflexivity|].
    split; [split; [discriminate | intros [? [=]]]|].
    split; [discriminate|].
    split.
    { destruct (without_backend_console (Some ty) w) as [lines ->].
      apply unchanged_outside_add_console. }
    rewrite getCacheData_result, hasValidCache_result, <- Hty, Hb1.
    split; [reflexivity|]. split; [reflexivity|].
    rewrite (removeCacheData_unavailable _ _ _ Hb1). eexists.
    split; [reflexivity | apply same_storage_without_backend].
Qed.

(** X2.  A write is all or nothing.  [setCacheData] either returns
    [true], having bound exactly the given key in the selected area
    within the area's quota and written nothing to the console, or it
    returns [false], having changed no storage at all and written at
    least one console line.  Either way the other area, the window and
    the clock are as before. *)
Theorem setCacheData_all_or_nothing key d options w :
  ∃ b w1,
    setCacheData JSON_stringify key d options w = (Ret b, w1)
    ∧ unchanged_outside (area (cfg_storage (config_of options))) w w1
    ∧ (b = true →
       console w1 = console w
       ∧ ∃ st blob,
           backend (area (cfg_storage (config_of options))) w = Some st
           ∧ backend (area (cfg_storage (config_of options))) w1
             = Some (mkStorage (<[key := blob]> (items st)) (quota st))
           ∧ (used (<[key := blob]> (items st)) ≤ quota st)%nat)
    ∧ (b = false →
       same_storage w w1 ∧ (length (console w) < length (console w1))%nat).
Proof.
  destruct (setCacheData_world key d options w)
    as [(st & blob & Hb & Hser & Hfit & ->) | (lines & Hne & ->)].
  - eexists true, _. split; [reflexivity|].
    split; [apply unchanged_outside_set_store|].
    split; [|discriminate]. intros _.
    split; [now destruct (area (cfg_storage (config_of options)))|].
    exists st, blob. split; [done|].
    split; [now apply (backend_set_store_of _ st) | done].
  - eexists false, _. split; [reflexivity|].
    split; [apply unchanged_outside_add_console|].
    split; [discriminate|]. intros _.
    split; [apply same_storage_add_console|].
    simpl. rewrite length_app. destruct lines; [done | simpl; lia].
Qed.

(** X3.  Keys do not interfere: whatever [setCacheData] does for one
    key, [getCacheData] and [hasValidCache] answer for any other key, in
    either area, as they did before. *)
Theorem setCacheData_other_key key key' d options options' w :
  key ≠ key' →
  (getCacheData JSON_parse key' options'
     (setCacheData JSON_stringify key d options w).2).1
  = (getCacheData JSON_parse key' options' w).1
  ∧ (hasValidCache JSON_parse key' options'
       (setCacheData JSON_stringify key d options w).2).1
    = (hasValidCache JSON_parse key' options' w).1.
Proof.
  intros Hne. rewrite !getCacheData_result, !hasValidCache_result.
  destruct (setCacheData_world key d options w)
    as [(st & blob & Hb & Hser & Hfit & ->) | (lines & _ & ->)]; simpl snd.
  - rewrite clock_set_store.
    destruct (StorageType_cases (area (cfg_storage (config_of options')))
                (area (cfg_storage (config_of options)))) as [Heq | Hdiff].
    + rewrite Heq, Hb, (backend_set_store_of _ st _ _ Hb). simpl items.
      now rewrite lookup_insert_ne.
    + now rewrite backend_set_other.
  - now rewrite backend_add_console.
Qed.

(** X4.  [hasValidCache] foretells [getCacheData]: when it answers
    [true], the read returns the payload of the stored entry and leaves
    the world exactly as it was; when it answers [false], the read
    returns [null]. *)
Theorem hasValidCache_foretells_read key options w :
  ((hasValidCache JSON_parse key options w).1 = Ret true →
   ∃ st item,
     backend (area (cfg_storage (config_of options))) w = Some st
     ∧ entry_at JSON_parse st key = Some item
     ∧ getCacheData JSON_parse key options w = (Ret (data item), w))
  ∧ ((hasValidCache JSON_parse key options w).1 = Ret false →
     (getCacheData JSON_parse key options w).1 = Ret VNull).
Proof.
  destruct (backend (area (cfg_storage (config_of options))) w) as [st|] eqn:Hb.
  - rewrite (hasValidCache_run _ _ _ _ _ Hb), (getCacheData_run _ _ _ _ _ Hb).
    destruct (items st !! key) as [blob|] eqn:Hk;
      [|split; [discriminate | done]].
    destruct (String.eqb blob "") eqn:He; [split; [discriminate | done]|].
    destruct (JSON_parse blob) as [item|] eqn:Hp;
      [|split; [discriminate | done]].
    simpl. rewrite <- negb_orb.
    destruct (_ || _); simpl; split; try discriminate; try done.
    intros _. exists st, item. unfold entry_at. now rewrite Hk, He, Hp.
  - rewrite (hasValidCache_unavailable _ _ _ _ Hb),
      (getCacheData_unavailable _ _ _ _ Hb).
    split; [discriminate | done].
Qed.

Lemma unchanged_outside_refl ty w : unchanged_outside ty w w.
Proof using Type. now repeat split. Qed.

Lemma unchanged_outside_say ty lvl msg w :
  unchanged_outside ty w (say lvl msg w).
Proof using Type. rewrite say_add_console. apply unchanged_outside_add_console. Qed.

Lemma unchanged_outside_without ty c w :
  unchanged_outside ty w (without_backend c w).
Proof using Type.
  destruct (without_backend_console c w) as [lines ->].
  apply unchanged_outside_add_console.
Qed.

Lemma unchanged_outside_unavailable ty c w :
  unchanged_outside ty w (say warn "Storage not available" (without_backend c w)).
Proof using Type.
  eapply unchanged_outside_trans;
    [apply unchanged_outside_without | apply unchanged_outside_say].
Qed.

(** X5.  The two areas are isolated: none of the seven operations
    changes the area it was not pointed at, the presence of a window, or
    the clock. *)
Theorem other_area_untouched key d options ty w :
  unchanged_outside (area (cfg_storage (config_of options))) w
    (setCacheData JSON_stringify key d options w).2
  ∧ unchanged_outside (area (cfg_storage (config_of options))) w
      (getCacheData JSON_parse key options w).2
  ∧ unchanged_outside (area (cfg_storage (config_of options))) w
      (hasValidCache JSON_parse key options w).2
  ∧ unchanged_outside ty w (removeCacheData key ty w).2
  ∧ unchanged_outside ty w (clearAllCache ty w).2
  ∧ unchanged_outside ty w (getCacheStats JSON_parse ty w).2
  ∧ unchanged_outside ty w (cleanupExpiredCache JSON_parse ty w).2.
Proof.
  split.
  { destruct (setCacheData_world key d options w)
      as [(st & blob & _ & _ & _ & ->) | (lines & _ & ->)]; simpl.
    - apply unchanged_outside_set_store.
    - apply unchanged_outside_add_console. }
  split.
  { destruct (backend (area (cfg_storage (config_of options))) w) as [st|] eqn:Hb.
    - rewrite (getCacheData_run _ _ _ _ _ Hb).
      destruct (items st !! key) as [blob|];
        [|apply unchanged_outside_refl].
      destruct (String.eqb blob ""); [apply unchanged_outside_refl|].
      destruct (JSON_parse blob); [|apply unchanged_outside_say].
      destruct (_ || _);
        [apply unchanged_outside_set_store | apply unchanged_outside_refl].
    - rewrite (getCacheData_unavailable _ _ _ _ Hb).
      apply unchanged_outside_unavailable. }
  split.
  { destruct (backend (area (cfg_storage (config_of options))) w) as [st|] eqn:Hb.
    - rewrite (hasValidCache_run _ _ _ _ _ Hb).
      destruct (items st !! key) as [blob|];
        [|apply unchanged_outside_refl].
      destruct (String.eqb blob ""); [apply unchanged_outside_refl|].
      destruct (JSON_parse blob);
        [apply unchanged_outside_refl | apply unchanged_outside_say].
    - rewrite (hasValidCache_unavailable _ _ _ _ Hb).
      apply unchanged_outside_without. }
  destruct (backend ty w) as [st|] eqn:Hb.
  - rewrite (removeCacheData_run _ _ _ _ Hb), (clearAllCache_run _ _ _ Hb),
      (getCacheStats_run _ _ _ _ Hb), (cleanupExpiredCache_exact _ _ _ _ Hb).
    simpl snd.
    split; [apply unchanged_outside_set_store|].
    split; [apply unchanged_outside_set_store|].
    split; [apply unchanged_outside_add_console|].
    eapply unchanged_outside_trans;
      [apply unchanged_outside_set_store | apply unchanged_outside_add_console].
  - rewrite (removeCacheData_unavailable _ _ _ Hb),
      (clearAllCache_unavailable _ _ Hb),
      (getCacheStats_unavailable _ _ _ Hb),
      (cleanupExpiredCache_unavailable _ _ _ Hb).
    simpl snd.
    split; [apply unchanged_outside_without|].
    split; [apply unchanged_outside_without|].
    split; apply unchanged_outside_without.
Qed.

(** X6.  A read does not repair: when the text under a key is not empty
    and fails to parse, [getCacheData] returns [null] and
    [hasValidCache] returns [false], each writes one error line, and
    neither removes the key (unlike an expired entry): the storage is
    as before, so the next read fails the same way. *)
Theorem unreadable_text_survives_reads key options w st blob :
  backend (area (cfg_storage (config_of options))) w = Some st →
  items st !! key = Some blob →
  blob ≠ "" →
  JSON_parse blob = None →
  getCacheData JSON_parse key options w
  = (Ret VNull, say error "Error getting cache data:" w)
  ∧ hasValidCache JSON_parse key options w
    = (Ret false, say error "Error checking cache validity:" w)
  ∧ backend (area (cfg_storage (config_of options)))
      (getCacheData JSON_parse key options w).2 = Some st
  ∧ (getCacheData JSON_parse key options
       (getCacheData JSON_parse key options w).2).1 = Ret VNull.
Proof.
  intros Hb Hk Hne Hparse.
  assert (Hget : getCacheData JSON_parse key options w
                 = (Ret VNull, say error "Error getting cache data:" w)).
  { rewrite (getCacheData_run _ _ _ _ _ Hb), Hk.
    destruct (String.eqb_spec blob ""); [contradiction|]. now rewrite Hparse. }
  split; [exact Hget|]. split.
  { rewrite (hasValidCache_run _ _ _ _ _ Hb), Hk.
    destruct (String.eqb_spec blob ""); [contradiction|]. now rewrite Hparse. }
  rewrite Hget. simpl snd. rewrite backend_say. split; [exact Hb|].
  rewrite getCacheData_result, backend_say, Hb. unfold read_of.
  rewrite Hk, truthy_Some. simpl default.
  destruct (String.eqb_spec blob ""); [contradiction|]. simpl.
  now rewrite Hparse.
Qed.

End FacadeFurther.

(** ** Further properties of the scans *)

Lemma keys_of_remove_all ks st :
  NoDup ks →
  (∀ k, k ∈ ks → shadowed k = false ∧ is_Some (items st !! k)) →
  keys_of st ≡ₚ ks ++ keys_of (remove_all ks st).
Proof.
  revert st. induction ks as [|k ks IH]; intros st Hnd Hin.
  - now rewrite remove_all_nil.
  - apply NoDup_cons in Hnd as [Hk Hnd].
    destruct (Hin k) as [Hvis [blob Hb]]; [apply elem_of_cons; now left|].
    rewrite remove_all_cons, (keys_of_delete st k blob Hb), Hvis. simpl.
    constructor. apply IH; [done|].
    intros j Hj. simpl. rewrite lookup_delete_ne.
    + apply Hin, elem_of_cons. now right.
    + intros ->. contradiction.
Qed.

Lemma List_filter_nil {A} (f : A → bool) (l : list A) :
  (∀ x, x ∈ l → f x = false) → List.filter f l = [].
Proof.
  induction l as [|x l IH]; intros H; simpl; [done|].
  rewrite H by (apply elem_of_cons; now left).
  apply IH. intros y Hy. apply H, elem_of_cons. now right.
Qed.

Lemma List_filter_all {A} (f : A → bool) (l : list A) :
  (∀ x, x ∈ l → f x = true) → List.filter f l = l.
Proof.
  induction l as [|x l IH]; intros H; simpl; [done|].
  rewrite H by (apply elem_of_cons; now left).
  f_equal. apply IH. intros y Hy. apply H, elem_of_cons. now right.
Qed.

Lemma sum_list_with_zero {A} (f : A → nat) (l : list A) :
  (∀ x, x ∈ l → f x = 0%nat) → sum_list_with f l = 0%nat.
Proof.
  induction l as [|x l IH]; intros H; simpl; [done|].
  rewrite H by (apply elem_of_cons; now left).
  apply IH. intros y Hy. apply H, elem_of_cons. now right.
Qed.


Section ScanFurther.

Variable JSON_stringify : CacheItem → option string.
Variable JSON_parse : string → option CacheItem.

Lemma stale_reads_null config now o :
  stale JSON_parse now o = true →
  read_of JSON_parse config now o = VNull
  ∧ valid_of JSON_parse config now o = false.
Proof using Type.
  unfold stale, read_of, valid_of.
  destruct (truthy o); [|discriminate]. simpl.
  destruct (JSON_parse (default "" o)) as [item|]; [|done].
  now intros ->.
Qed.


Lemma fresh_share now o :
  stale JSON_parse now o = false →
  expired_share JSON_parse now o = 0%nat ∧ unreadable JSON_parse o = false.
Proof using Type.
  unfold stale, expired_share, unreadable.
  destruct (truthy o); simpl; [|done].
  destruct (JSON_parse (default "" o)) as [item|]; [|discriminate].
  intros ->. split; [done|]. now rewrite bool_decide_eq_false_2.
Qed.

Lemma stale_is_Some now o : stale JSON_parse now o = true → is_Some o.
Proof using Type.
  unfold stale. destruct o; [eauto | discriminate].
Qed.

Lemma elem_of_stale_keys now st k :
  k ∈ stale_keys JSON_parse now st ↔
  prefixed k = true ∧ stale JSON_parse now (items st !! k) = true.
Proof using Type.
  unfold stale_keys.
  rewrite list_elem_of_In, filter_In, <- list_elem_of_In.
  rewrite elem_of_cache_keys_of. split.
  - now intros [[? _] ?].
  - intros [? Hs]. split; [split|]; try done. now apply stale_is_Some in Hs.
Qed.

Lemma NoDup_stale_keys now st : NoDup (stale_keys JSON_parse now st).
Proof using Type.
  unfold stale_keys.
  apply NoDup_ListNoDup, List.NoDup_filter, NoDup_ListNoDup,
    NoDup_cache_keys_of.
Qed.

Lemma lookup_swept now st j :
  items (swept JSON_parse now st) !! j =
  if prefixed j && stale JSON_parse now (items st !! j)
  then None else items st !! j.
Proof using Type.
  unfold swept. rewrite lookup_remove_all.
  case_decide as Hin.
  - apply elem_of_stale_keys in Hin as [-> ->]. reflexivity.
  - destruct (prefixed j) eqn:Hp; [|done].
    destruct (stale _ _ _) eqn:Hs; [|done].
    exfalso. apply Hin, elem_of_stale_keys. auto.
Qed.

Lemma quota_swept now st : quota (swept JSON_parse now st) = quota st.
Proof using Type. reflexivity. Qed.

Lemma swept_fresh now st k :
  k ∈ cache_keys_of (swept JSON_parse now st) →
  stale JSON_parse now (items (swept JSON_parse now st) !! k) = false.
Proof using Type.
  intros [Hp [blob Hk]]%elem_of_cache_keys_of.
  rewrite lookup_swept, Hp in Hk. rewrite lookup_swept, Hp. simpl in *.
  destruct (stale _ _ (items st !! k)) eqn:Hs; [discriminate | exact Hs].
Qed.

Lemma stale_keys_swept now st :
  stale_keys JSON_parse now (swept JSON_parse now st) = [].
Proof using Type.
  apply List_filter_nil. intros k Hk. now apply swept_fresh.
Qed.

Lemma keys_of_swept now st :
  keys_of st ≡ₚ
  stale_keys JSON_parse now st ++ keys_of (swept JSON_parse now st).
Proof using Type.
  apply keys_of_remove_all; [apply NoDup_stale_keys|].
  intros k [Hp Hs]%elem_of_stale_keys.
  split; [now apply prefixed_visible | now apply stale_is_Some in Hs].
Qed.

Lemma cache_keys_of_swept now st :
  cache_keys_of st ≡ₚ
  stale_keys JSON_parse now st ++ cache_keys_of (swept JSON_parse now st).
Proof using Type.
  unfold cache_keys_of at 1 2.
  rewrite (List_filter_Permutation _ _ _ (keys_of_swept now st)).
  rewrite List.filter_app.
  rewrite (List_filter_all prefixed (stale_keys JSON_parse now st)); [done|].
  now intros k [? _]%elem_of_stale_keys.
Qed.

(** The world [cleanupExpiredCache] leaves, in these terms. *)
Lemma cleanupExpiredCache_swept ty w st :
  backend ty w = Some st →
  cleanupExpiredCache JSON_parse ty w =
    (Ret (length (stale_keys JSON_parse (clock w) st)),
     add_console (cleanup_lines JSON_parse st (cache_keys_of st))
       (set_store ty (swept JSON_parse (clock w) st) w)).
Proof using Type. apply cleanupExpiredCache_exact. Qed.

Lemma backend_after_cleanup ty w st :
  backend ty w = Some st →
  backend ty (cleanupExpiredCache JSON_parse ty w).2
  = Some (swept JSON_parse (clock w) st)
  ∧ clock (cleanupExpiredCache JSON_parse ty w).2 = clock w.
Proof using Type.
  intros Hb. rewrite (cleanupExpiredCache_swept _ _ _ Hb). simpl snd.
  rewrite backend_add_console. split.
  - now apply (backend_set_store_of _ st).
  - simpl. apply clock_set_store.
Qed.


(** X8.  What [cleanupExpiredCache] returns is what it removed: the
    number it returns is the number of prefixed keys whose non-empty
    text is expired or unreadable at the time of the call; exactly those
    keys are gone afterwards and every other key keeps its text; and
    [getCacheStats] run before and after differs by that number in
    [totalKeys] and in [cacheKeys], and reports no expired key
    afterwards. *)
Theorem cleanupExpiredCache_accounting ty w st :
  backend ty w = Some st →
  ∃ n w' st' s s' w1 w2,
    cleanupExpiredCache JSON_parse ty w = (Ret n, w')
    ∧ backend ty w' = Some st'
    ∧ n = length (stale_keys JSON_parse (clock w) st)
    ∧ (∀ k, items st' !! k =
            if prefixed k && stale JSON_parse (clock w) (items st !! k)
            then None else items st !! k)
    ∧ getCacheStats JSON_parse ty w = (Ret s, w1)
    ∧ getCacheStats JSON_parse ty w' = (Ret s', w2)
    ∧ totalKeys s = (n + totalKeys s')%nat
    ∧ cacheKeys s = (n + cacheKeys s')%nat
    ∧ expiredKeys s' = 0%nat.
Proof.
  intros Hb.
  destruct (backend_after_cleanup ty w st Hb) as [Hb' Hclock].
  rewrite (cleanupExpiredCache_swept _ _ _ Hb) in Hb', Hclock |- *.
  simpl snd in Hb', Hclock.
  eexists _, _, _, _, _, _, _.
  split; [reflexivity|]. split; [exact Hb'|]. split; [reflexivity|].
  split; [apply lookup_swept|].
  split; [apply (getCacheStats_run _ _ _ _ Hb)|].
  split; [apply (getCacheStats_run _ _ _ _ Hb')|].
  cbn [totalKeys cacheKeys expiredKeys]. split; [|split].
  - rewrite (keys_of_swept (clock w) st) at 1. now rewrite length_app.
  - rewrite (cache_keys_of_swept (clock w) st) at 1. now rewrite length_app.
  - apply sum_list_with_zero. intros k Hk. rewrite Hclock.
    now apply fresh_share, swept_fresh.
Qed.

(** X9.  [cleanupExpiredCache] settles: run again at the same clock
    reading it finds nothing to remove, returns [0] and leaves the world
    exactly as the first run left it. *)
Theorem cleanupExpiredCache_settles ty w st :
  backend ty w = Some st →
  cleanupExpiredCache JSON_parse ty (cleanupExpiredCache JSON_parse ty w).2
  = (Ret 0%nat, (cleanupExpiredCache JSON_parse ty w).2).
Proof.
  intros Hb.
  destruct (backend_after_cleanup ty w st Hb) as [Hb' Hclock].
  set (w' := (cleanupExpiredCache JSON_parse ty w).2) in *.
  rewrite (cleanupExpiredCache_swept _ _ _ Hb'), Hclock.
  rewrite stale_keys_swept. unfold swept at 3. rewrite stale_keys_swept.
  rewrite remove_all_nil.
  apply backend_Some in Hb' as [_ Hs]. rewrite (set_store_same _ _ _ Hs).
  unfold cleanup_lines. rewrite List_filter_nil.
  - simpl. now rewrite add_console_nil.
  - intros k Hk. now apply (fresh_share (clock w)), swept_fresh.
Qed.

(** X10.  [cleanupExpiredCache] is invisible to reads: it removes only
    what a read would refuse anyway, so [getCacheData] and
    [hasValidCache] answer for every key, under every option and in
    either area, as they would have without the cleanup. *)
Theorem cleanupExpiredCache_invisible ty key options w :
  (getCacheData JSON_parse key options
     (cleanupExpiredCache JSON_parse ty w).2).1
  = (getCacheData JSON_parse key options w).1
  ∧ (hasValidCache JSON_parse key options
       (cleanupExpiredCache JSON_parse ty w).2).1
    = (hasValidCache JSON_parse key options w).1.
Proof.
  rewrite !getCacheData_result, !hasValidCache_result.
  destruct (backend ty w) as [st|] eqn:Hb.
  - destruct (backend_after_cleanup ty w st Hb) as [Hb' Hclock].
    rewrite Hclock.
    destruct (StorageType_cases (area (cfg_storage (config_of options))) ty)
      as [Heq | Hdiff].
    + rewrite Heq, Hb', Hb, lookup_swept.
      destruct (prefixed key && stale _ _ _) eqn:Hs; [|done].
      apply andb_true_iff in Hs as [_ Hs].
      destruct (stale_reads_null (config_of options) _ _ Hs) as [-> ->].
      done.
    + rewrite (cleanupExpiredCache_swept _ _ _ Hb). simpl snd.
      rewrite backend_add_console. now rewrite backend_set_other.
  - rewrite (cleanupExpiredCache_unavailable _ _ _ Hb). simpl snd.
    destruct (without_backend_console (Some ty) w) as [lines ->].
    now rewrite backend_add_console.
Qed.

End ScanFurther.

Lemma size_share_Some blob : size_share (Some blob) = String.length blob.
Proof.
  unfold size_share. rewrite truthy_Some. simpl default.
  destruct (String.eqb_spec blob "") as [-> | _]; reflexivity.
Qed.

Lemma storage_eta st : mkStorage (items st) (quota st) = st.
Proof. now destruct st. Qed.

Lemma cache_keys_of_cleared st :
  cache_keys_of (remove_all (cache_keys_of st) st) = [].
Proof.
  unfold cache_keys_of at 1. apply List_filter_nil.
  intros k [_ [blob Hk]]%elem_of_keys_of. rewrite lookup_cleared in Hk.
  now destruct (prefixed k).
Qed.

Section FacadeComposed.

Variable JSON_stringify : CacheItem → option string.
Variable JSON_parse : string → option CacheItem.

(** X11.  [clearAllCache] settles: with a backend, clearing again
    returns [true] and leaves the world exactly as the first clearing
    left it; a [cleanupExpiredCache] that follows finds nothing and
    returns [0]; and [getCacheData] for a key under the prefix returns
    [null] without touching the world. *)
Theorem clearAllCache_settles ty w st :
  backend ty w = Some st →
  clearAllCache ty (clearAllCache ty w).2 = (Ret true, (clearAllCache ty w).2)
  ∧ cleanupExpiredCache JSON_parse ty (clearAllCache ty w).2
    = (Ret 0%nat, (clearAllCache ty w).2)
  ∧ ∀ key options,
      area (cfg_storage (config_of options)) = ty →
      prefixed key = true →
      getCacheData JSON_parse key options (clearAllCache ty w).2
      = (Ret VNull, (clearAllCache ty w).2).
Proof.
  intros Hb. rewrite (clearAllCache_run _ _ _ Hb). simpl snd.
  set (st' := remove_all (cache_keys_of st) st).
  set (w' := set_store ty st' w).
  assert (Hb' : backend ty w' = Some st')
    by now apply (backend_set_store_of _ st).
  pose proof Hb' as [_ Hs]%backend_Some.
  assert (Hnil : cache_keys_of st' = []) by apply cache_keys_of_cleared.
  split; [|split].
  - rewrite (clearAllCache_run _ _ _ Hb'), Hnil, remove_all_nil.
    now rewrite (set_store_same _ _ _ Hs).
  - rewrite (cleanupExpiredCache_exact _ _ _ _ Hb'), Hnil. simpl List.filter.
    rewrite remove_all_nil, (set_store_same _ _ _ Hs).
    unfold cleanup_lines. simpl. now rewrite add_console_nil.
  - intros key options <- Hp.
    rewrite (getCacheData_run _ _ _ _ _ Hb').
    unfold st'. now rewrite lookup_cleared, Hp.
Qed.

(** X12.  [setCacheData] as [getCacheStats] sees it: a successful write
    adds one to [totalKeys] exactly when the key was not in the area
    before and does not have the name of a built-in member of the
    storage object (such a key is never listed), adds one to [cacheKeys]
    exactly when the key was not in the area before and is under the
    prefix, and replaces the size share of the old text by the length of
    the new text in [totalSize] when the key is under the prefix; for a
    key outside the prefix [cacheKeys] and [totalSize] stay as they
    were. *)
Theorem setCacheData_then_stats key d options w w1 st :
  backend (area (cfg_storage (config_of options))) w = Some st →
  setCacheData JSON_stringify key d options w = (Ret true, w1) →
  ∃ blob s s1 wa wb,
    JSON_stringify (item_for d (config_of options) (clock w)) = Some blob
    ∧ getCacheStats JSON_parse (area (cfg_storage (config_of options))) w
      = (Ret s, wa)
    ∧ getCacheStats JSON_parse (area (cfg_storage (config_of options))) w1
      = (Ret s1, wb)
    ∧ totalKeys s1
      = ((if shadowed key then 0 else fresh_count (items st !! key))
         + totalKeys s)%nat
    ∧ cacheKeys s1
      = ((if prefixed key then fresh_count (items st !! key) else 0)
         + cacheKeys s)%nat
    ∧ ((if prefixed key then size_share (items st !! key) else 0)
       + totalSize s1
       = (if prefixed key then String.length blob else 0)
         + totalSize s)%nat.
Proof.
  intros Hb (st_ & blob & Hb_ & Hser & ->)%setCacheData_true_inv.
  rewrite Hb in Hb_. injection Hb_ as <-.
  set (ty := area (cfg_storage (config_of options))) in *.
  set (st1 := mkStorage (<[key := blob]> (items st)) (quota st)).
  assert (Hb1 : backend ty (set_store ty st1 w) = Some st1)
    by now apply (backend_set_store_of _ st).
  assert (Hk1 : items st1 !! key = Some blob) by apply lookup_insert_eq.
  destruct (getCacheStats_share JSON_parse ty _ st1 key blob Hb1 Hk1)
    as (s1 & s0 & wb & w0 & Hs1 & Hs0 & Ht1 & Hc1 & _ & Hz1 & _).
  rewrite set_store_twice in Hs0. simpl in Hs0.
  rewrite delete_insert_eq in Hs0.
  exists blob. rewrite Hs1.
  destruct (items st !! key) as [old|] eqn:Hold.
  - destruct (getCacheStats_share JSON_parse ty w st key old Hb Hold)
      as (s & s0' & wa & w0' & Hs & Hs0' & Ht & Hc & _ & Hz & _).
    rewrite Hs0 in Hs0'. injection Hs0' as <- <-.
    rewrite Hs. exists s, s1, wa, wb.
    split; [exact Hser|]. split; [done|]. split; [done|].
    rewrite Ht1, Ht, Hc1, Hc, Hz1, Hz, !size_share_Some. unfold listed.
    destruct (shadowed key), (prefixed key); simpl; lia.
  - rewrite delete_id in Hs0 by done.
    rewrite storage_eta in Hs0.
    apply backend_Some in Hb as [_ Hstore].
    rewrite (set_store_same _ _ _ Hstore) in Hs0.
    rewrite Hs0. exists s0, s1, w0, wb.
    split; [exact Hser|]. split; [done|]. split; [done|].
    rewrite Ht1, Hc1, Hz1, !size_share_Some. unfold listed.
    destruct (shadowed key), (prefixed key); simpl; lia.
Qed.

(** X13.  An empty text counts as no entry: with the empty string stored
    under the key, [getCacheData] returns [null] and [hasValidCache]
    returns [false] without logging or removing anything, and
    [cleanupExpiredCache] keeps the key. *)
Theorem empty_text_is_ignored key options w st :
  backend (area (cfg_storage (config_of options))) w = Some st →
  items st !! key = Some "" →
  getCacheData JSON_parse key options w = (Ret VNull, w)
  ∧ hasValidCache JSON_parse key options w = (Ret false, w)
  ∧ ∃ n w' st',
      cleanupExpiredCache JSON_parse (area (cfg_storage (config_of options))) w
      = (Ret n, w')
      ∧ backend (area (cfg_storage (config_of options))) w' = Some st'
      ∧ items st' !! key = Some "".
Proof.
  intros Hb Hk.
  rewrite (getCacheData_run _ _ _ _ _ Hb), (hasValidCache_run _ _ _ _ _ Hb), Hk.
  split; [done|]. split; [done|].
  destruct (backend_after_cleanup JSON_parse _ w st Hb) as [Hb' _].
  rewrite (cleanupExpiredCache_swept _ _ _ _ Hb) in Hb' |- *.
  eexists _, _, _. split; [reflexivity|].
  split; [exact Hb'|].
  rewrite lookup_swept, Hk. unfold stale. simpl. now rewrite andb_false_r.
Qed.

(** X14.  Outside a browser nothing is touched: when there is no
    [window], every operation returns its default without reading or
    writing either area, whatever they hold; [setCacheData] and
    [getCacheData] write the one warning line, the other five operations
    leave the world exactly as it is. *)
Theorem outside_browser_inert key d options ty w :
  has_window w = false →
  setCacheData JSON_stringify key d options w
  = (Ret false, say warn "Storage not available" w)
  ∧ getCacheData JSON_parse key options w
    = (Ret VNull, say warn "Storage not available" w)
  ∧ hasValidCache JSON_parse key options w = (Ret false, w)
  ∧ removeCacheData key ty w = (Ret false, w)
  ∧ clearAllCache ty w = (Ret false, w)
  ∧ getCacheStats JSON_parse ty w = (Ret zero_stats, w)
  ∧ cleanupExpiredCache JSON_parse ty w = (Ret 0%nat, w).
Proof.
  intros Hw.
  assert (Hnone : ∀ ty', backend ty' w = None)
    by (intros ty'; unfold backend; now rewrite Hw).
  assert (Hsame : ∀ c, without_backend c w = w)
    by (intros c; unfold without_backend; now rewrite Hw).
  rewrite (setCacheData_unavailable _ _ _ _ _ (Hnone _)),
    (getCacheData_unavailable _ _ _ _ (Hnone _)),
    (hasValidCache_unavailable _ _ _ _ (Hnone _)),
    (removeCacheData_unavailable _ _ _ (Hnone _)),
    (clearAllCache_unavailable _ _ (Hnone _)),
    (getCacheStats_unavailable _ _ _ (Hnone _)),
    (cleanupExpiredCache_unavailable _ _ _ (Hnone _)), !Hsame.
  repeat split.
Qed.

End FacadeComposed.

(** No Number is greater than itself. *)
Lemma gt_irrefl (x : Number.t) : Number.gt x x = false.
Proof.
  unfold Number.gt, SFltb.
  destruct x as [s|s| |s m e]; simpl; try reflexivity.
  - now destruct s.
  - rewrite Z.compare_refl, Pos.compare_cont_refl. now destruct s.
Qed.

Section Lifetime.

Variable JSON_stringify : CacheItem → option string.
Variable JSON_parse : string → option CacheItem.

(** X15.  The lifetime of an entry is inclusive.  After a successful
    [setCacheData] of an item JSON carries, a read under the same
    version and storage selection returns the payload at every clock
    reading that is not greater than [expiresAt], the [Date.now()] of
    the write plus [ttl], and [null] at every greater one; at the
    reading equal to [expiresAt] the payload is still returned;
    [hasValidCache] answers [true] at exactly the readings at which the
    payload is returned. *)
Theorem lifetime_boundary key d options options' w w1 t :
  carried JSON_stringify JSON_parse (item_for d (config_of options) (clock w)) →
  setCacheData JSON_stringify key d options w = (Ret true, w1) →
  cfg_version (config_of options') = cfg_version (config_of options) →
  area (cfg_storage (config_of options')) = area (cfg_storage (config_of options)) →
  (getCacheData JSON_parse key options' (at_time t w1)).1
  = Ret (if past t (Number.add (Number.of_Z (clock w))
                      (ToNumeric (cfg_ttl (config_of options))))
         then VNull else d)
  ∧ (hasValidCache JSON_parse key options' (at_time t w1)).1
    = Ret (negb (past t (Number.add (Number.of_Z (clock w))
                           (ToNumeric (cfg_ttl (config_of options))))))
  ∧ (Number.of_Z t
     = Number.add (Number.of_Z (clock w)) (ToNumeric (cfg_ttl (config_of options))) →
     (getCacheData JSON_parse key options' (at_time t w1)).1 = Ret d).
Proof.
  intros Hcarried Hset Hver Hsto.
  destruct (read_after_write JSON_stringify JSON_parse key d options options'
              w w1 t Hcarried Hset Hsto)
    as (st & blob & item & Hb & Hk & Hne & Hparse & Hd & Hex & Hv).
  rewrite getCacheData_result, hasValidCache_result, Hb, Hk.
  unfold read_of, valid_of. rewrite truthy_Some.
  destruct (String.eqb_spec blob ""); [contradiction|].
  simpl default. cbn [negb andb]. rewrite Hparse, Hex, Hv, Hd, Hver.
  rewrite strict_equal_js_string.
  replace (clock (at_time t w1)) with t by reflexivity.
  cbn [negb orb]. rewrite orb_false_r, andb_true_r.
  split; [reflexivity|]. split; [reflexivity|].
  intros <-. unfold past. now rewrite gt_irrefl.
Qed.

End Lifetime.

(** ** Further properties of the memoised connection *)

Section DbConnectFurther.
Import DbConnect.

Lemma exited_enter P : exited (dbConnect_enter P).2 = exited P.
Proof.
  unfold dbConnect_enter.
  destruct (connection (cached P)); [done|].
  now destruct (promise (cached P)).
Qed.

(** The only way out: a step that ends the process is the resumption of
    a call on the rejected attempt, and it leaves the cache reset. *)
Lemma step_exit e P P' :
  Inv P → step e P = Some P' → exited P' = true →
  cached P' = mkCache None None ∧ attempts P' = [Rejected].
Proof.
  intros HI. unfold step.
  destruct (exited P) eqn:Hex; [discriminate|].
  destruct e as [|p s|i].
  - pose proof (exited_enter P) as Hsame.
    destruct (dbConnect_enter P) as [[c|p] P1];
      intros [= <-]; simpl in *; congruence.
  - destruct (attempts P !! p) as [[| |]|]; try (destruct s; discriminate).
    destruct s; try discriminate; intros [= <-]; simpl; congruence.
  - destruct (waiting P !! i) as [p|] eqn:Hi; [|discriminate].
    destruct (attempts P !! _) as [s|] eqn:Hs; [|discriminate].
    destruct (single_attempt _ _ _ (inv_attempts P HI) Hs) as [Hall _].
    destruct s as [|c|]; simpl; [discriminate| |].
    + intros [= <-]. simpl. congruence.
    + intros [= <-]. simpl. auto.
Qed.

Lemma run_exit es P P' :
  Inv P → exited P = false → run es P = Some P' → exited P' = true →
  cached P' = mkCache None None ∧ attempts P' = [Rejected].
Proof.
  revert P. induction es as [|e es IH]; intros P HI Hex; simpl.
  - intros [= <-]. congruence.
  - destruct (step e P) as [P1|] eqn:Hstep; [|discriminate].
    destruct (exited P1) eqn:Hex1.
    + destruct es as [|e' es]; simpl.
      * intros [= <-] _. now apply (step_exit e P).
      * unfold step at 1. now rewrite Hex1.
    + apply IH; [now apply (Inv_step e P) | exact Hex1].
Qed.

Lemma step_connected e P P' c :
  Inv P → connection (cached P) = Some c → step e P = Some P' →
  connection (cached P') = Some c
  ∧ attempts P' = attempts P
  ∧ exited P' = false.
Proof.
  intros HI Hc. unfold step.
  destruct (exited P) eqn:Hex; [discriminate|].
  pose proof (inv_connection P HI c Hc) as Hall.
  destruct e as [|p s|i].
  - unfold dbConnect_enter. rewrite Hc. now intros [= <-].
  - rewrite Hall. destruct p as [|p]; simpl; [|discriminate].
    destruct s; discriminate.
  - destruct (waiting P !! i) as [p|] eqn:Hi; [|discriminate].
    assert (p = 0%nat) as ->.
    { apply (inv_waiting P HI). eapply list_elem_of_lookup_2, Hi. }
    rewrite Hall. simpl. now intros [= <-].
Qed.

(** X16.  A failed connection ends everything: in any state the process
    can reach in which [process.exit] has run, the one attempt was
    rejected, the cache is reset to its two [null]s, no call has ever
    been handed a connection, and nothing happens any more: no further
    call, settlement or resumption. *)
Theorem dbConnect_failure_is_final es P :
  run es start = Some P →
  exited P = true →
  cached P = mkCache None None
  ∧ attempts P = [Rejected]
  ∧ returned P = []
  ∧ ∀ e, step e P = None.
Proof.
  intros Hrun Hex.
  destruct (run_exit es start P Inv_start eq_refl Hrun Hex) as [Hcache Hatt].
  pose proof (Inv_run es start P Inv_start Hrun) as HI.
  split; [exact Hcache|]. split; [exact Hatt|]. split.
  - destruct (returned P) as [|c l] eqn:Hret; [done|].
    assert (Hin : c ∈ returned P) by (rewrite Hret; apply elem_of_cons; now left).
    apply (inv_returned P HI) in Hin. congruence.
  - intros e. unfold step. now rewrite Hex.
Qed.

(** X17.  A cached connection stays: once a reachable state holds a
    handle in the cache, every later state holds the same handle; no
    further attempt is initiated, the process does not exit, a call
    returns that handle at once, and every handle ever returned is that
    one. *)
Theorem dbConnect_connection_is_stable es0 es P P' c :
  run es0 start = Some P →
  connection (cached P) = Some c →
  run es P = Some P' →
  connection (cached P') = Some c
  ∧ attempts P' = attempts P
  ∧ exited P' = false
  ∧ dbConnect_enter P' = (Done c, P')
  ∧ ∀ c', c' ∈ returned P' → c' = c.
Proof.
  intros Hrun0 Hc Hrun.
  pose proof (Inv_run es0 start P Inv_start Hrun0) as HI.
  assert (Hstable : connection (cached P') = Some c
                    ∧ attempts P' = attempts P ∧ exited P' = false ∧ Inv P').
  { assert (Hex : exited P = false).
    { destruct (exited P) eqn:Hex; [|done].
      destruct (run_exit es0 start P Inv_start eq_refl Hrun0 Hex) as [Hcache _].
      rewrite Hcache in Hc. discriminate. }
    clear Hrun0. revert P HI Hc Hex Hrun.
    induction es as [|e es IH]; intros P HI Hc Hex; simpl.
    - now intros [= <-].
    - destruct (step e P) as [P1|] eqn:Hstep; [|discriminate].
      destruct (step_connected e P P1 c HI Hc Hstep) as (Hc1 & Hatt1 & Hex1).
      intros Hrun. rewrite <- Hatt1.
      apply IH; [now apply (Inv_step e P) | done..]. }
  destruct Hstable as (Hc' & Hatt' & Hex' & HI').
  split; [exact Hc'|]. split; [exact Hatt'|]. split; [exact Hex'|]. split.
  - unfold dbConnect_enter. now rewrite Hc'.
  - intros c' Hin. apply (inv_returned P' HI') in Hin.
    pose proof (inv_connection P' HI' c Hc'). congruence.
Qed.

End DbConnectFurther.

(** ** The matcher and the callback together *)

Section MiddlewareFacts.
Import AuthGate Middleware.

Lemma selectable_cases pathname :
  selectable pathname ↔
  startsWith pathname "/dashboard" = true
  ∨ startsWith pathname "/profile" = true
  ∨ startsWith pathname "/api/protected" = true.
Proof.
  unfold selectable, matcher. split.
  - intros (pattern & Hin & Hstart).
    repeat (apply elem_of_cons in Hin as [-> | Hin]); auto.
    inversion Hin.
  - intros [H | [H | H]].
    + exists "/dashboard/:path*". split; [|exact H].
      apply elem_of_cons. now left.
    + exists "/profile/:path*". split; [|exact H].
      apply elem_of_cons. right. apply elem_of_cons. now left.
    + exists "/api/protected/:path*". split; [|exact H].
      apply elem_of_cons. right. apply elem_of_cons. right.
      apply elem_of_cons. now left.
Qed.

(** X18.  The matcher and the callback together: on every pathname the
    matcher can select, the public-route test for [/auth/] is never the
    one that decides; a request with a token is authorised; and a
    request without a token is authorised exactly when its pathname
    begins with [/api/protected], the one matcher entry the callback
    does not guard. *)
Theorem authorized_on_selected (token : option JWT) (pathname : string) :
  selectable pathname →
  startsWith pathname "/auth/" = false
  ∧ (token ≠ None → authorized token pathname = true)
  ∧ (authorized None pathname = true ↔
     startsWith pathname "/api/protected" = true).
Proof.
  intros Hsel%selectable_cases. unfold authorized.
  destruct Hsel as [H | [H | H]]; pose proof H as [r Hr]%prefix_append.
  - assert (startsWith pathname "/auth/" = false) as -> by now rewrite Hr.
    assert (startsWith pathname "/api/protected" = false) as ->
      by now rewrite Hr.
    rewrite H. simpl. split; [done|].
    split; [now destruct token | split; discriminate].
  - assert (startsWith pathname "/auth/" = false) as -> by now rewrite Hr.
    assert (startsWith pathname "/api/protected" = false) as ->
      by now rewrite Hr.
    rewrite H, orb_true_r. simpl. split; [done|].
    split; [now destruct token | split; discriminate].
  - assert (startsWith pathname "/auth/" = false) as -> by now rewrite Hr.
    assert (startsWith pathname "/dashboard" = false) as -> by now rewrite Hr.
    assert (startsWith pathname "/profile" = false) as -> by now rewrite Hr.
    rewrite H. simpl. done.
Qed.

End MiddlewareFacts.

(** ** The further properties on the sample worlds *)

Section FurtherExamples.
Import Samples MoreSamples.

Lemma setCacheData_other_key_witness :
  (getCacheData Json.parse "theme" no_options
     (setCacheData Json.stringify "tasa_cache_user" VNaN short_lived
        mixed_browser).2).1
  = (getCacheData Json.parse "theme" no_options mixed_browser).1
  ∧ (hasValidCache Json.parse "theme" no_options
       (setCacheData Json.stringify "tasa_cache_user" VNaN short_lived
          mixed_browser).2).1
    = (hasValidCache Json.parse "theme" no_options mixed_browser).1.
Proof.
  apply (setCacheData_other_key Json.stringify Json.parse
           "tasa_cache_user" "theme" VNaN short_lived no_options
           mixed_browser).
  discriminate.
Defined.

Lemma unreadable_text_survives_reads_witness :
  getCacheData Json.parse "tasa_cache_broken" no_options broken_browser
  = (Ret VNull, say error "Error getting cache data:" broken_browser)
  ∧ hasValidCache Json.parse "tasa_cache_broken" no_options broken_browser
    = (Ret false, say error "Error checking cache validity:" broken_browser)
  ∧ backend localStorage
      (getCacheData Json.parse "tasa_cache_broken" no_options
         broken_browser).2
    = Some broken_area
  ∧ (getCacheData Json.parse "tasa_cache_broken" no_options
       (getCacheData Json.parse "tasa_cache_broken" no_options
          broken_browser).2).1
    = Ret VNull.
Proof.
  apply (unreadable_text_survives_reads Json.parse "tasa_cache_broken"
           no_options broken_browser broken_area "{oops").
  - reflexivity.
  - reflexivity.
  - discriminate.
  - vm_compute. reflexivity.
Defined.

Lemma cleanupExpiredCache_accounting_witness :
  ∃ n w' st' s s' w1 w2,
    cleanupExpiredCache Json.parse localStorage late_browser = (Ret n, w')
    ∧ backend localStorage w' = Some st'
    ∧ n = length (stale_keys Json.parse (clock late_browser) mixed_area)
    ∧ (∀ k, items st' !! k =
            if prefixed k
               && stale Json.parse (clock late_browser) (items mixed_area !! k)
            then None else items mixed_area !! k)
    ∧ getCacheStats Json.parse localStorage late_browser = (Ret s, w1)
    ∧ getCacheStats Json.parse localStorage w' = (Ret s', w2)
    ∧ totalKeys s = (n + totalKeys s')%nat
    ∧ cacheKeys s = (n + cacheKeys s')%nat
    ∧ expiredKeys s' = 0%nat.
Proof.
  apply (cleanupExpiredCache_accounting Json.parse localStorage late_browser
           mixed_area).
  reflexivity.
Defined.

Example cleanup_counts_the_expired_entry :
  (cleanupExpiredCache Json.parse localStorage late_browser).1 = Ret 1%nat
  ∧ (cleanupExpiredCache Json.parse localStorage mixed_browser).1 = Ret 0%nat.
Proof. vm_compute. split; reflexivity. Qed.

Lemma cleanupExpiredCache_settles_witness :
  cleanupExpiredCache Json.parse localStorage
    (cleanupExpiredCache Json.parse localStorage late_browser).2
  = (Ret 0%nat, (cleanupExpiredCache Json.parse localStorage late_browser).2).
Proof.
  apply (cleanupExpiredCache_settles Json.parse localStorage late_browser
           mixed_area).
  reflexivity.
Defined.

Lemma clearAllCache_settles_witness :
  clearAllCache localStorage (clearAllCache localStorage mixed_browser).2
  = (Ret true, (clearAllCache localStorage mixed_browser).2)
  ∧ cleanupExpiredCache Json.parse localStorage
      (clearAllCache localStorage mixed_browser).2
    = (Ret 0%nat, (clearAllCache localStorage mixed_browser).2)
  ∧ ∀ key options,
      area (cfg_storage (config_of options)) = localStorage →
      prefixed key = true →
      getCacheData Json.parse key options
        (clearAllCache localStorage mixed_browser).2
      = (Ret VNull, (clearAllCache localStorage mixed_browser).2).
Proof.
  apply (clearAllCache_settles Json.parse localStorage mixed_browser
           mixed_area).
  reflexivity.
Defined.

Lemma setCacheData_then_stats_witness :
  ∃ blob s s1 wa wb,
    Json.stringify (item_for profile (config_of short_lived) (clock browser))
    = Some blob
    ∧ getCacheStats Json.parse (area (cfg_storage (config_of short_lived))) browser
      = (Ret s, wa)
    ∧ getCacheStats Json.parse (area (cfg_storage (config_of short_lived)))
        browser_after_user
      = (Ret s1, wb)
    ∧ totalKeys s1
      = ((if shadowed "tasa_cache_user"
          then 0
          else fresh_count (items (mkStorage ∅ 4096) !! "tasa_cache_user"))
         + totalKeys s)%nat
    ∧ cacheKeys s1
      = ((if prefixed "tasa_cache_user"
          then fresh_count (items (mkStorage ∅ 4096) !! "tasa_cache_user")
          else 0)
         + cacheKeys s)%nat
    ∧ ((if prefixed "tasa_cache_user"
        then size_share (items (mkStorage ∅ 4096) !! "tasa_cache_user")
        else 0)
       + totalSize s1
       = (if prefixed "tasa_cache_user" then String.length blob else 0)
         + totalSize s)%nat.
Proof.
  apply (setCacheData_then_stats Json.stringify Json.parse "tasa_cache_user"
           profile short_lived browser browser_after_user
           (mkStorage ∅ 4096)).
  - reflexivity.
  - vm_compute. reflexivity.
Defined.

Example stats_after_first_write :
  (getCacheStats Json.parse localStorage browser_after_user).1
  = Ret {| totalKeys := 1; cacheKeys := 1; expiredKeys := 0;
           totalSize := String.length profile_text |}.
Proof. vm_compute. reflexivity. Qed.

Lemma empty_text_is_ignored_witness :
  getCacheData Json.parse "tasa_cache_blank" no_options blank_browser
  = (Ret VNull, blank_browser)
  ∧ hasValidCache Json.parse "tasa_cache_blank" no_options blank_browser
    = (Ret false, blank_browser)
  ∧ ∃ n w' st',
      cleanupExpiredCache Json.parse (area (cfg_storage (config_of no_options)))
        blank_browser
      = (Ret n, w')
      ∧ backend (area (cfg_storage (config_of no_options))) w' = Some st'
      ∧ items st' !! "tasa_cache_blank" = Some EmptyString.
Proof.
  apply (empty_text_is_ignored Json.parse "tasa_cache_blank" no_options
           blank_browser blank_area).
  - reflexivity.
  - reflexivity.
Defined.

Lemma outside_browser_inert_witness :
  setCacheData Json.stringify "tasa_cache_user" profile no_options server
  = (Ret false, say warn "Storage not available" server)
  ∧ getCacheData Json.parse "tasa_cache_user" no_options server
    = (Ret VNull, say warn "Storage not available" server)
  ∧ hasValidCache Json.parse "tasa_cache_user" no_options server
    = (Ret false, server)
  ∧ removeCacheData "tasa_cache_user" localStorage server = (Ret false, server)
  ∧ clearAllCache localStorage server = (Ret false, server)
  ∧ getCacheStats Json.parse localStorage server = (Ret zero_stats, server)
  ∧ cleanupExpiredCache Json.parse localStorage server = (Ret 0%nat, server).
Proof.
  apply (outside_browser_inert Json.stringify Json.parse "tasa_cache_user"
           profile no_options localStorage server).
  reflexivity.
Defined.

Lemma lifetime_boundary_witness :
  (getCacheData Json.parse "profile_1" no_options
     (at_time 2000 browser_after_set)).1 = Ret profile
  ∧ (hasValidCache Json.parse "profile_1" no_options
       (at_time 2000 browser_after_set)).1 = Ret true
  ∧ (Number.of_Z 2000 = Number.add (Number.of_Z 1000) (Number.of_Z 1000) →
     (getCacheData Json.parse "profile_1" no_options
        (at_time 2000 browser_after_set)).1 = Ret profile).
Proof.
  apply (lifetime_boundary Json.stringify Json.parse
           "profile_1" profile short_lived no_options
           browser browser_after_set 2000).
  - apply json_carries; reflexivity.
  - vm_compute. reflexivity.
  - reflexivity.
  - reflexivity.
Defined.

Lemma dbConnect_failure_is_final_witness :
  ∃ P,
    DbConnect.run failing DbConnect.start = Some P
    ∧ DbConnect.waiting P = [0%nat]
    ∧ DbConnect.cached P = DbConnect.mkCache None None
    ∧ DbConnect.attempts P = [DbConnect.Rejected]
    ∧ DbConnect.returned P = []
    ∧ ∀ e, DbConnect.step e P = None.
Proof.
  exists failed. split; [vm_compute; reflexivity|].
  split; [vm_compute; reflexivity|].
  apply (dbConnect_failure_is_final failing); vm_compute; reflexivity.
Defined.

Lemma dbConnect_connection_is_stable_witness :
  ∃ P P',
    DbConnect.run connecting DbConnect.start = Some P
    ∧ DbConnect.run [DbConnect.Call; DbConnect.Call] P = Some P'
    ∧ DbConnect.connection (DbConnect.cached P') = Some 7%nat
    ∧ DbConnect.attempts P' = DbConnect.attempts P
    ∧ DbConnect.exited P' = false
    ∧ DbConnect.dbConnect_enter P' = (DbConnect.Done 7%nat, P')
    ∧ ∀ c', c' ∈ DbConnect.returned P' → c' = 7%nat.
Proof.
  exists connected, connected_later. split; [vm_compute; reflexivity|].
  split; [vm_compute; reflexivity|].
  apply (dbConnect_connection_is_stable connecting
           [DbConnect.Call; DbConnect.Call]); vm_compute; reflexivity.
Defined.

Lemma authorized_on_selected_witness :
  startsWith "/api/protected/users" "/auth/" = false
  ∧ (@None AuthGate.JWT ≠ None →
     AuthGate.authorized None "/api/protected/users" = true)
  ∧ (AuthGate.authorized None "/api/protected/users" = true ↔
     startsWith "/api/protected/users" "/api/protected" = true).
Proof.
  apply (authorized_on_selected None "/api/protected/users").
  exists "/api/protected/:path*". split; [|reflexivity].
  apply elem_of_cons. right. apply elem_of_cons. right.
  apply elem_of_cons. now left.
Defined.

(** C10 as stated fails: a key named like a member of the storage object
    is stored, and [Object.keys] does not list it, so [totalKeys] does
    not count it. *)
Lemma unprefixed_key_outside_scans_counterexample :
  ¬ (∀ key ty w1 st1 blob,
       prefixed key = false →
       backend ty w1 = Some st1 →
       items st1 !! key = Some blob →
       ∃ s s0 w2 w3,
         getCacheStats Json.parse ty w1 = (Ret s, w2)
         ∧ getCacheStats Json.parse ty
             (set_store ty (mkStorage (delete key (items st1)) (quota st1)) w1)
           = (Ret s0, w3)
         ∧ totalKeys s = S (totalKeys s0)).
Proof.
  intros H.
  destruct (H "length" localStorage browser_after_length length_area
              (default EmptyString (items length_area !! "length")))
    as (s & s0 & w2 & w3 & Hs & Hs0 & Htot).
  - reflexivity.
  - vm_compute. reflexivity.
  - vm_compute. reflexivity.
  - vm_compute in Hs, Hs0.
    injection Hs as <- _. injection Hs0 as <- _.
    discriminate Htot.
Qed.

Example stats_skip_a_builtin_name :
  (setCacheData Json.stringify "length" profile no_options browser).1 = Ret true
  ∧ (getCacheData Json.parse "length" no_options browser_after_length).1
    = Ret profile
  ∧ (getCacheStats Json.parse localStorage browser_after_length).1
    = Ret zero_stats.
Proof. vm_compute. repeat split. Qed.

(** What the codec and the options do at the edges of the number type:
    a fraction comes back; with [ttl] infinite or [undefined] the text
    holds [null] for [expiresAt] and the first read evicts the entry. *)
Example fraction_round_trip :
  (getCacheData Json.parse "k" no_options
     (setCacheData Json.stringify "k" one_and_a_half no_options browser).2).1
  = Ret one_and_a_half.
Proof. vm_compute. reflexivity. Qed.

Example infinite_ttl_is_evicted :
  (setCacheData Json.stringify "k" profile forever browser).1 = Ret true
  ∧ ∃ w' st',
      getCacheData Json.parse "k" forever
        (setCacheData Json.stringify "k" profile forever browser).2
      = (Ret VNull, w')
      ∧ backend localStorage w' = Some st'
      ∧ items st' !! "k" = None.
Proof.
  split; [vm_compute; reflexivity|].
  eexists _, _. split; [vm_compute; reflexivity|].
  split; vm_compute; reflexivity.
Qed.

Example undefined_ttl_is_evicted :
  (setCacheData Json.stringify "k" profile ttl_undefined browser).1 = Ret true
  ∧ (getCacheData Json.parse "k" ttl_undefined
       (setCacheData Json.stringify "k" profile ttl_undefined browser).2).1
    = Ret VNull.
Proof. vm_compute. split; reflexivity. Qed.

Example undefined_storage_selects_session :
  ∃ st,
    session_store
      (setCacheData Json.stringify "k" profile storage_undefined browser).2
    = Some st
    ∧ is_Some (items st !! "k")
    ∧ local_store
        (setCacheData Json.stringify "k" profile storage_undefined browser).2
      = local_store browser.
Proof.
  eexists. split; [vm_compute; reflexivity|].
  split; [vm_compute; eauto | vm_compute; reflexivity].
Qed.

End FurtherExamples.
